(** * korean_polisher: the Transformer of [korean_polisher/train/transformer.py]

    A shallow embedding of the mask builders, the masked loss, the metric
    trackers, the decoder layer wiring, greedy decoding, evaluation and the
    demo loop, followed by the properties established about them.

    Conventions.
    - A rank-2 batch of token ids is a [list (list Z)] (rows = sentences).
    - Attention masks hold only the two values 0.0 and 1.0 of the model's
      float type; they are written as the integers 0 and 1.
    - Logits and losses are idealised as real numbers; the one place where the
      source divides by a possibly-zero quantity keeps the IEEE outcomes
      (infinities and NaN) explicit in the type [tfloat].  What this
      idealisation hides (a label that the cross-entropy kernel rejects, a
      cross-entropy that is inf or NaN, a forward pass that raises) is kept
      by the definitions whose names end in [_checked].
    - The Keras metric objects live in a store indexed by object identity, so
      that the module-level trackers and the ones built by [evaluate] can be
      told apart.
    - A Python call either returns or raises; printing is a list of lines. *)

From Stdlib Require Import ZArith List String Ascii Reals Lra Lia.
From Stdlib Require Import DecimalString DecimalNat.
From stdpp Require Import base list gmap strings.

Local Open Scope Z_scope.

(* ================================================================= *)
(** * Part I: definitions *)
(* ================================================================= *)

(** ** Tensors of mask values *)

Abbreviation tensor2 := (list (list Z)).
Abbreviation tensor4 := (list (list (list (list Z)))).

(** Entry of a rank-2 / rank-4 tensor, [None] outside its shape. *)
Definition at2 (m : tensor2) (i j : nat) : option Z :=
  row ← m !! i; row !! j.

Definition at4 (m : tensor4) (b h i j : nat) : option Z :=
  m3 ← m !! b; m2 ← m3 !! h; row ← m2 !! i; row !! j.

(** [tf.shape(t)[1]] of a batch given as a list of rows. *)
Definition shape1 (t : tensor2) : nat :=
  match t with
  | [] => 0%nat
  | row :: _ => length row
  end.

(** [tf.cast(tf.math.equal(x, 0), float_dtype)] on one id. *)
Definition equal0 (x : Z) : Z := if x =? 0 then 1 else 0.

(** [create_padding_mask]: [seq[:, newaxis, newaxis, :]] wraps every row in
    two singleton axes. *)
Definition create_padding_mask (seq : tensor2) : tensor4 :=
  map (fun row => [[map equal0 row]]) seq.

(** [tf.ones((n, m))]. *)
Definition ones (n m : nat) : tensor2 := replicate n (replicate m 1).

(** [tf.linalg.band_part(input, num_lower, num_upper)]: entry (i, j) is kept
    when [(num_lower < 0 || i - j <= num_lower) &&
          (num_upper < 0 || j - i <= num_upper)] and zeroed otherwise. *)
Definition in_band (num_lower num_upper : Z) (i j : nat) : bool :=
  ((num_lower <? 0) || (Z.of_nat i - Z.of_nat j <=? num_lower)) &&
  ((num_upper <? 0) || (Z.of_nat j - Z.of_nat i <=? num_upper)).

Definition band_part (input : tensor2) (num_lower num_upper : Z) : tensor2 :=
  imap (fun i row =>
          imap (fun j x => if in_band num_lower num_upper i j then x else 0) row)
       input.

(** [create_look_ahead_mask(size)]:
    [1 - tf.linalg.band_part(tf.ones((size, size)), -1, 0)]. *)
Definition create_look_ahead_mask (size : nat) : tensor2 :=
  map (map (fun x => 1 - x)) (band_part (ones size size) (-1) 0).

(** Broadcasting of a binary operation along one axis: an axis of length 1 is
    stretched to the other operand's length, equal lengths are zipped. *)
Definition bcast {A B C} (f : A -> B -> C) (u : list A) (v : list B) : list C :=
  match u, v with
  | [x], _ => map (f x) v
  | _, [y] => map (fun x => f x y) u
  | _, _ => zip_with f u v
  end.

(** [tf.maximum(a, b)] for [a] of rank 4 and [b] of rank 2: [b] is aligned on
    the two trailing axes and repeated along the two leading ones. *)
Definition tf_maximum (a : tensor4) (b : tensor2) : tensor4 :=
  map (map (fun a2 => bcast (bcast Z.max) a2 b)) a.

(** [create_masks(inp, tar)]; the result is the triple
    [(enc_padding_mask, combined_mask, dec_padding_mask)]. *)
Definition create_masks (inp tar : tensor2) : tensor4 * tensor4 * tensor4 :=
  let enc_padding_mask := create_padding_mask inp in
  let dec_padding_mask := create_padding_mask inp in
  let look_ahead_mask := create_look_ahead_mask (shape1 tar) in
  let dec_target_padding_mask := create_padding_mask tar in
  let combined_mask := tf_maximum dec_target_padding_mask look_ahead_mask in
  (enc_padding_mask, combined_mask, dec_padding_mask).

(** Number of entries equal to 1 in a row and in a rank-2 mask. *)
Definition ones_of (row : list Z) : nat :=
  length (filter (fun x => x = 1) row).

Definition count_ones (m : tensor2) : nat := ones_of (concat m).

(** All rows of a batch have length [n] (the batch is a tensor of shape
    [(length t, n)]). *)
Definition rectangular (n : nat) (t : tensor2) : Prop :=
  Forall (fun row => length row = n) t.

(** ** Floating-point values

    Finite values are real numbers; the non-finite IEEE outcomes are kept as
    separate constructors so that a division by zero is visible. *)

Inductive tfloat : Type :=
| Finite (x : R)
| PosInf
| NegInf
| NaN.

(** [a / b] on two finite values. *)
Definition tf_truediv (a b : R) : tfloat :=
  if Req_dec_T b 0 then
    if Req_dec_T a 0 then NaN
    else if Rlt_dec 0 a then PosInf else NegInf
  else Finite (a / b).

Definition tf_add (a b : tfloat) : tfloat :=
  match a, b with
  | NaN, _ | _, NaN => NaN
  | PosInf, NegInf | NegInf, PosInf => NaN
  | PosInf, _ | _, PosInf => PosInf
  | NegInf, _ | _, NegInf => NegInf
  | Finite x, Finite y => Finite (x + y)
  end.

(** [tf.math.divide_no_nan(a, b)] with a finite denominator: 0 when [b] is 0. *)
Definition div_no_nan (a : tfloat) (b : R) : tfloat :=
  if Req_dec_T b 0 then Finite 0
  else match a with
       | Finite x => Finite (x / b)
       | other => other
       end.

(** Logits of shape (batch, seq, vocab). *)
Abbreviation logits3 := (list (list (list R))).

Definition at3 (p : logits3) (b j : nat) : option (list R) :=
  row ← p !! b; row !! j.

(** [tf.reduce_sum] over a vector and over a rank-2 tensor. *)
Definition reduce_sum1 (l : list R) : R := foldr Rplus 0%R l.
Definition reduce_sum (t : list (list R)) : R := reduce_sum1 (concat t).

(** [tf.argmax] along the last axis: index of the first maximal entry. *)
Fixpoint argmax_from (best_i : nat) (best : R) (i : nat) (l : list R) : nat :=
  match l with
  | [] => best_i
  | x :: l' =>
      if Rlt_dec best x then argmax_from i x (S i) l'
      else argmax_from best_i best (S i) l'
  end.

Definition argmax (l : list R) : nat :=
  match l with
  | [] => 0%nat
  | x :: l' => argmax_from 0 x 1 l'
  end.
Arguments argmax : simpl never.

(** ** Masked loss *)

(** [SparseCategoricalCrossentropy(from_logits=True, reduction='none')] on one
    position: minus the log-softmax of the logits at the label.  Labels are
    ids produced by the tokenizer, inside the vocabulary.  This is the kernel
    in exact arithmetic; [ideal_kernel] and [loss_function_checked] keep the
    rejection of a label outside the vocabulary and the floats inf and
    NaN. *)
Definition sparse_categorical_crossentropy (label : Z) (logits : list R) : R :=
  (ln (reduce_sum1 (map exp logits)) - nth (Z.to_nat label) logits 0)%R.

Definition loss_object (real : tensor2) (pred : logits3) : list (list R) :=
  zip_with (zip_with sparse_categorical_crossentropy) real pred.

(** [tf.cast(tf.math.logical_not(tf.math.equal(x, 0)), dtype)]. *)
Definition not_equal0 (x : Z) : R := if x =? 0 then 0%R else 1%R.

Definition loss_mask (real : tensor2) : list (list R) :=
  map (map not_equal0) real.

(** [loss_ *= mask]. *)
Definition masked_loss (real : tensor2) (pred : logits3) : list (list R) :=
  zip_with (zip_with Rmult) (loss_object real pred) (loss_mask real).

(** [loss_function(real, pred)]. *)
Definition loss_function (real : tensor2) (pred : logits3) : tfloat :=
  tf_truediv (reduce_sum (masked_loss real pred)) (reduce_sum (loss_mask real)).

(** ** Metric trackers

    [tf.keras.metrics.Mean] keeps two variables, [total] and [count];
    [SparseCategoricalAccuracy] is a [Mean] over the 0/1 matches. *)

Record Metric : Type := { total : tfloat; count : R }.

Definition Metric_new : Metric := {| total := Finite 0; count := 0%R |}.

Definition reset_states (m : Metric) : Metric := Metric_new.

(** [update_state(values)]: [total += reduce_sum(values)],
    [count += size(values)]. *)
Definition update_state (values : list tfloat) (m : Metric) : Metric :=
  {| total := tf_add (total m) (foldr tf_add (Finite 0) values);
     count := (count m + INR (length values))%R |}.

(** [result()]: [divide_no_nan(total, count)]. *)
Definition Metric_result (m : Metric) : tfloat :=
  div_no_nan (total m) (count m).

(** [sparse_categorical_accuracy(y_true, y_pred)]:
    [cast(equal(y_true, argmax(y_pred, axis=-1)), float)]. *)
Definition matches (y_true : Z) (logits : list R) : R :=
  if y_true =? Z.of_nat (argmax logits) then 1%R else 0%R.

Definition sparse_categorical_accuracy (real : tensor2) (pred : logits3)
  : list (list R) :=
  zip_with (zip_with matches) real pred.

(** Calling a [Mean] on a scalar, and a [SparseCategoricalAccuracy] on
    (labels, predictions). *)
Definition Mean_call (value : tfloat) (m : Metric) : Metric :=
  update_state [value] m.

Definition SparseCategoricalAccuracy_call (real : tensor2) (pred : logits3)
    (m : Metric) : Metric :=
  update_state (map Finite (concat (sparse_categorical_accuracy real pred))) m.

(** ** The store of metric objects

    Metric objects live in a store indexed by object identity.  The module
    creates [train_loss] and [train_accuracy] when it is loaded. *)

Abbreviation heap := (gmap nat Metric).

Definition train_loss : nat := 0%nat.
Definition train_accuracy : nat := 1%nat.

Definition module_heap : heap :=
  <[train_accuracy := Metric_new]> (<[train_loss := Metric_new]> ∅).

#[global] Instance Metric_inhabited : Inhabited Metric := populate Metric_new.

(** Constructing a metric allocates a new object. *)
Definition new_metric (h : heap) : nat * heap :=
  let l := fresh (dom h) in (l, <[l := Metric_new]> h).

(** ** Slicing helpers *)

(** [range(0, stop, step)] for a positive [step]. *)
Definition py_range (stop step : nat) : list nat :=
  map (fun k => (k * step)%nat) (seq 0 ((stop + step - 1) / step)).

(** [l[a:b]] for [a <= b <= len(l)]. *)
Definition slice {A} (l : list A) (a b : nat) : list A :=
  take (b - a) (drop a l).

(** [split_batch(iterable, n)]; [None] stands for the [ValueError] that
    [range] raises on a zero step. *)
Definition split_batch {A} (iterable : list A) (n : nat) : option (list (list A)) :=
  let l := length iterable in
  if (n =? 0)%nat then None
  else Some (map (fun ndx => slice iterable ndx (Nat.min (ndx + n) l))
                 (py_range l n)).

(** [t[:, :-1]] and [t[:, 1:]]. *)
Definition drop_last_column (t : tensor2) : tensor2 :=
  map (fun row => take (length row - 1) row) t.
Definition drop_first_column (t : tensor2) : tensor2 := map (drop 1) t.

(** ** Specification-side definitions for the loss and the accuracy *)

(** A target batch with at least one non-pad label / with pad labels only. *)
Definition has_nonpad (real : tensor2) : Prop :=
  Exists (Exists (fun t => t <> 0)) real.

Definition all_pad (real : tensor2) : Prop :=
  Forall (Forall (fun t => t = 0)) real.

Definition nonpad_count (real : tensor2) : nat :=
  length (List.filter (fun t => negb (t =? 0)) (concat real)).

(** [real] with the label at row [b], column [j] replaced by [v], and [pred]
    with the logits at that position replaced. *)
Definition set_label (real : tensor2) (b j : nat) (v : Z) : tensor2 :=
  alter (fun row => <[j := v]> row) b real.

Definition set_logits (pred : logits3) (b j : nat) (logits : list R) : logits3 :=
  alter (fun row => <[j := logits]> row) b pred.

(** The (label, logits) pairs that the metrics compare, in order. *)
Definition compared (real : tensor2) (pred : logits3) : list (Z * list R) :=
  concat (zip_with zip real pred).

Definition hit (p : Z * list R) : bool := p.1 =? Z.of_nat (argmax p.2).
Definition is_nonpad (p : Z * list R) : bool := negb (p.1 =? 0).

(** The loss after masking, position by position. *)
Definition masked_entry (t : Z) (logits : list R) : R :=
  (sparse_categorical_crossentropy t logits * not_equal0 t)%R.

(** Accuracy as the code computes it: every compared position counts. *)
Definition hit_count (real : tensor2) (pred : logits3) : nat :=
  length (List.filter hit (compared real pred)).

Definition position_count (real : tensor2) (pred : logits3) : nat :=
  length (compared real pred).

(** Accuracy in the words of the specification: the fraction of non-pad
    target positions whose argmax prediction matches the label. *)
Definition spec_masked_accuracy (real : tensor2) (pred : logits3) : tfloat :=
  div_no_nan
    (Finite (INR (length (List.filter (fun p => is_nonpad p && hit p)
                                      (compared real pred)))))
    (INR (length (List.filter is_nonpad (compared real pred)))).

(** ** Attention layers

    The wiring of [scaled_dot_product_attention], [MultiHeadAttention] and
    [DecoderLayer] over an abstract type of float tensors: the numeric
    kernels are operations of the runtime, the sublayers are fields of the
    layer objects. *)

Section Layers.
Variable T : Type.
Variable tf_shape0 : T -> Z.
Variable tf_reshape : T -> list Z -> T.
Variable tf_transpose : T -> list Z -> T.
(** [tf.matmul(a, b, transpose_b=...)]. *)
Variable tf_matmul : T -> T -> bool -> T.
(** [x / tf.math.sqrt(tf.cast(tf.shape(k)[-1], float_dtype))]. *)
Variable div_sqrt_dk : T -> T -> T.
(** [x + mask * -1e9]. *)
Variable add_mask : T -> tensor4 -> T.
(** [tf.nn.softmax(x, axis=-1)]. *)
Variable softmax : T -> T.
(** [a + b]. *)
Variable tensor_add : T -> T -> T.

Definition scaled_dot_product_attention (q k v : T) (mask : option tensor4)
  : T * T :=
  let qk := tf_matmul q k true in
  let scaled_attention_logits := div_sqrt_dk qk k in
  let scaled_attention_logits :=
    match mask with
    | Some m => add_mask scaled_attention_logits m
    | None => scaled_attention_logits
    end in
  let attention_weights := softmax scaled_attention_logits in
  let output := tf_matmul attention_weights v false in
  (output, attention_weights).

Record MultiHeadAttention : Type := {
  num_heads : Z;
  d_model : Z;
  depth : Z;
  wq : T -> T;
  wk : T -> T;
  wv : T -> T;
  dense : T -> T
}.

Definition split_heads (self : MultiHeadAttention) (x : T) (batch_size : Z) : T :=
  let x := tf_reshape x [batch_size; -1; num_heads self; depth self] in
  tf_transpose x [0; 2; 1; 3].

(** [MultiHeadAttention.call(self, v, k, q, mask)]. *)
Definition MultiHeadAttention_call (self : MultiHeadAttention)
    (v k q : T) (mask : option tensor4) : T * T :=
  let batch_size := tf_shape0 q in
  let q := wq self q in
  let k := wk self k in
  let v := wv self v in
  let q := split_heads self q batch_size in
  let k := split_heads self k batch_size in
  let v := split_heads self v batch_size in
  let '(scaled_attention, attention_weights) :=
    scaled_dot_product_attention q k v mask in
  let scaled_attention := tf_transpose scaled_attention [0; 2; 1; 3] in
  let concat_attention :=
    tf_reshape scaled_attention [batch_size; -1; d_model self] in
  let output := dense self concat_attention in
  (output, attention_weights).

Record DecoderLayer : Type := {
  mha1 : MultiHeadAttention;
  mha2 : MultiHeadAttention;
  ffn : T -> T;
  layernorm1 : T -> T;
  layernorm2 : T -> T;
  layernorm3 : T -> T;
  dropout1 : T -> bool -> T;
  dropout2 : T -> bool -> T;
  dropout3 : T -> bool -> T
}.

(** [DecoderLayer.call(self, x, enc_output, training, look_ahead_mask,
    padding_mask)]. *)
Definition DecoderLayer_call (self : DecoderLayer) (x enc_output : T)
    (training : bool) (look_ahead_mask padding_mask : option tensor4)
  : T * T * T :=
  let '(attn1, attn_weights_block1) :=
    MultiHeadAttention_call (mha1 self) x x x look_ahead_mask in
  let attn1 := dropout1 self attn1 training in
  let out1 := layernorm1 self (tensor_add attn1 x) in
  let '(attn2, attn_weights_block2) :=
    MultiHeadAttention_call (mha2 self) enc_output enc_output out1
                            padding_mask in
  let attn2 := dropout2 self attn2 training in
  let out2 := layernorm2 self (tensor_add attn2 out1) in
  let ffn_output := ffn self out2 in
  let ffn_output := dropout3 self ffn_output training in
  let out3 := layernorm3 self (tensor_add ffn_output out2) in
  (out3, attn_weights_block1, attn_weights_block2).

(** The output of the first (masked self-attention) block of a decoder
    layer, [out1] in the source. *)
Definition DecoderLayer_out1 (self : DecoderLayer) (x : T) (training : bool)
    (look_ahead_mask : option tensor4) : T :=
  let '(attn1, _) :=
    MultiHeadAttention_call (mha1 self) x x x look_ahead_mask in
  layernorm1 self (tensor_add (dropout1 self attn1 training) x).
End Layers.

(** ** Python outcomes and printing

    A call either returns a value or raises an exception (kept as its
    message).  [io A] adds the lines printed so far. *)

Inductive outcome (A : Type) : Type :=
| Returns (a : A)
| Raises (e : string).
Arguments Returns {A} a.
Arguments Raises {A} e.

Definition io (A : Type) : Type := list string * outcome A.

#[global] Instance io_ret : MRet io := fun A a => ([], Returns a).

#[global] Instance io_bind : MBind io := fun A B f m =>
  match m with
  | (out, Returns a) => let '(out', r) := f a in (out ++ out', r)
  | (out, Raises e) => (out, Raises e)
  end.

Definition print (s : string) : io unit := ([s], Returns tt).

Definition lift {A} (o : outcome A) : io A := ([], o).

(** [try: body except Exception as e: handler(e)]. *)
Definition try_except (body : io unit) (handler : string -> io unit) : io unit :=
  match body with
  | (out, Raises e) => let '(out', r) := handler e in (out ++ out', r)
  | (out, Returns tt) => (out, Returns tt)
  end.

(** [for x in l: body(x)]. *)
Fixpoint for_each {A} (l : list A) (body : A -> io unit) : io unit :=
  match l with
  | [] => mret tt
  | x :: l' => body x ;; for_each l' body
  end.

(** [s.split(sep)] for a one-character separator. *)
Fixpoint split (sep : ascii) (s : string) : list string :=
  match s with
  | EmptyString => [EmptyString]
  | String c s' =>
      if Ascii.eqb c sep then EmptyString :: split sep s'
      else match split sep s' with
           | [] => [String c EmptyString]
           | piece :: pieces => String c piece :: pieces
           end
  end.

Definition newline : ascii := Ascii.ascii_of_nat 10.

Section Demo.
(** [self.predict]. *)
Variable predict : string -> outcome string.

(** The body of [Transformer.demo] over the method [self.predict]; [file] is
    the outcome of opening and reading [./demo.txt]. *)
Definition demo_with (file : outcome string) : io unit :=
  try_except
    (d ← lift file;
     for_each (split newline d) (fun i =>
       if negb (String.length i =? 0)%nat then
         print i ;;
         text ← lift (predict i);
         print text
       else mret tt))
    (fun e => print "demo error" ;; print e).
End Demo.

(** ** The model: training step, greedy decoding, evaluation *)

(** [predictions[:, -1:, :]]. *)
Definition last_position (p : logits3) : logits3 :=
  map (fun row => drop (length row - 1) row) p.

(** [tf.cast(tf.argmax(predictions, axis=-1), int_dtype)]. *)
Definition argmax_ids (p : logits3) : tensor2 :=
  map (map (fun logits => Z.of_nat (argmax logits))) p.

(** [tf.concat([a, b], axis=-1)] on rank-2 tensors. *)
Definition concat_last (a b : tensor2) : tensor2 := zip_with app a b.

Section Transformer.
(** The trainable variables, the forward pass [Transformer.call] (its first
    result), one gradient computation followed by the optimizer update,
    the tokenizer and the two constants of [options].  The forward pass is
    taken here as a call that returns; [predict_loop_checked] is the decoding
    loop over a forward pass that can raise. *)
Variable weights : Type.
Variable call : weights -> tensor2 -> tensor2 -> bool ->
                tensor4 -> tensor4 -> tensor4 -> logits3.
Variable apply_gradients : weights -> tensor2 -> tensor2 -> tensor2 -> weights.
Variable tokenize_batch : string -> tensor2.
Variable decode : list Z -> string.
Variable BATCH_SIZE : nat.
Variable MAX_LENGTH : nat.

(** The forward pass yields one vector of logits per position of the
    decoder input: its result has shape (batch, target length, vocabulary). *)
Definition call_shape : Prop :=
  forall w inp tar training m1 m2 m3,
    Forall2 (fun (row : list Z) (logits : list (list R)) =>
               length logits = length row)
            tar (call w inp tar training m1 m2 m3).

Definition train_step (w : weights) (inp tar : tensor2) (h : heap)
  : weights * heap :=
  let tar_inp := drop_last_column tar in
  let tar_real := drop_first_column tar in
  let '(enc_padding_mask, combined_mask, dec_padding_mask) :=
    create_masks inp tar_inp in
  let predictions :=
    call w inp tar_inp true enc_padding_mask combined_mask dec_padding_mask in
  let loss := loss_function tar_real predictions in
  let w' := apply_gradients w inp tar_inp tar_real in
  let h := alter (Mean_call loss) train_loss h in
  let h := alter (SparseCategoricalAccuracy_call tar_real predictions)
                 train_accuracy h in
  (w', h).

(** One forward pass of the decoding loop: the predicted ids at the last
    position, of shape (batch, 1). *)
Definition greedy_step (w : weights) (encoder_input output : tensor2) : tensor2 :=
  let '(enc_padding_mask, combined_mask, dec_padding_mask) :=
    create_masks encoder_input output in
  let predictions :=
    call w encoder_input output false
         enc_padding_mask combined_mask dec_padding_mask in
  let predictions := last_position predictions in
  argmax_ids predictions.

(** The loop [for i in range(MAX_LENGTH)] of [predict], with [n] iterations
    left.  It returns the list handed to [self.tk.decode] together with
    the number of forward passes made; [predicted_id.numpy()[0][0]] raises
    when the index is out of range. *)
Fixpoint predict_loop (w : weights) (encoder_input : tensor2) (n : nat)
    (output : tensor2) (result : list Z) (passes : nat)
  : outcome (list Z * nat) :=
  match n with
  | O => Returns (result, passes)
  | S n' =>
      let predicted_id := greedy_step w encoder_input output in
      let output := concat_last output predicted_id in
      match at2 predicted_id 0 0 with
      | None => Raises "IndexError"
      | Some predicted_id =>
          if predicted_id =? 3 then Returns (result, S passes)
          else predict_loop w encoder_input n' output
                            (result ++ [predicted_id]) (S passes)
      end
  end.

Definition predict_ids (w : weights) (inp_sentence : string)
  : outcome (list Z * nat) :=
  let encoder_input := tokenize_batch inp_sentence in
  let decoder_input := [2] in
  let output := [decoder_input] in
  let result := decoder_input in
  predict_loop w encoder_input MAX_LENGTH output result 0.

Definition predict (w : weights) (inp_sentence : string) : outcome string :=
  match predict_ids w inp_sentence with
  | Returns (result, _) => Returns (decode result)
  | Raises e => Raises e
  end.

(** [Transformer.demo] of a model with weights [w]. *)
Definition demo (w : weights) (file : outcome string) : io unit :=
  demo_with (predict w) file.

(** The body of the loop [for inp, tar in zip(inp_batch, tar_batch)]. *)
Definition evaluate_batch (w : weights) (test_loss test_accuracy : nat)
    (h : heap) (batch : tensor2 * tensor2) : heap :=
  let '(inp, tar) := batch in
  let tar_inp := drop_last_column tar in
  let tar_real := drop_first_column tar in
  let '(enc_padding_mask, combined_mask, dec_padding_mask) :=
    create_masks inp tar_inp in
  let predictions :=
    call w inp tar_inp false enc_padding_mask combined_mask dec_padding_mask in
  let loss := loss_function tar_real predictions in
  let h := alter (Mean_call loss) test_loss h in
  alter (SparseCategoricalAccuracy_call tar_real predictions) test_accuracy h.

Definition evaluate (w : weights) (inp tar : tensor2) (h : heap)
  : outcome (tfloat * tfloat) * heap :=
  let '(test_loss, h) := new_metric h in
  let '(test_accuracy, h) := new_metric h in
  let h := alter reset_states test_loss h in
  let h := alter reset_states test_accuracy h in
  match split_batch inp BATCH_SIZE, split_batch tar BATCH_SIZE with
  | Some inp_batch, Some tar_batch =>
      let h := foldl (evaluate_batch w test_loss test_accuracy) h
                     (zip inp_batch tar_batch) in
      (Returns (Metric_result (h !!! test_loss),
                Metric_result (h !!! test_accuracy)), h)
  | _, _ => (Raises "ValueError", h)
  end.

(** *** Specification-side definitions *)

(** The labels and the predictions that one batch contributes to the
    metrics: [(tar_real, predictions)] of the source. *)
Definition batch_targets (w : weights) (training : bool) (inp tar : tensor2)
  : tensor2 * logits3 :=
  let tar_inp := drop_last_column tar in
  let tar_real := drop_first_column tar in
  let '(enc_padding_mask, combined_mask, dec_padding_mask) :=
    create_masks inp tar_inp in
  (tar_real,
   call w inp tar_inp training enc_padding_mask combined_mask dec_padding_mask).

(** The loss and accuracy trackers as values, folded over the batches of
    one evaluation. *)
Definition batch_metrics (w : weights) (ms : Metric * Metric)
    (batch : tensor2 * tensor2) : Metric * Metric :=
  let '(tar_real, predictions) := batch_targets w false batch.1 batch.2 in
  (Mean_call (loss_function tar_real predictions) ms.1,
   SparseCategoricalAccuracy_call tar_real predictions ms.2).

Definition evaluate_metrics (w : weights) (batches : list (tensor2 * tensor2))
  : Metric * Metric :=
  foldl (batch_metrics w) (Metric_new, Metric_new) batches.

(** Matching positions and compared positions over all batches. *)
Definition eval_hit_count (w : weights) (batches : list (tensor2 * tensor2))
  : nat :=
  sum_list (map (fun batch =>
                   let '(tar_real, predictions) :=
                     batch_targets w false batch.1 batch.2 in
                   hit_count tar_real predictions) batches).

Definition eval_position_count (w : weights)
    (batches : list (tensor2 * tensor2)) : nat :=
  sum_list (map (fun batch =>
                   let '(tar_real, predictions) :=
                     batch_targets w false batch.1 batch.2 in
                   position_count tar_real predictions) batches).
End Transformer.

(** ** Specification-side definitions for the demo loop *)

(** A line of [demo.txt] is processed without error: it is empty (skipped) or
    its prediction returns. *)
Definition line_ok (predict : string -> outcome string) (i : string) : Prop :=
  i = EmptyString \/ exists text, predict i = Returns text.

(** What the loop prints for a list of lines that are all processed without
    error: every non-empty line followed by its prediction. *)
Definition lines_output (predict : string -> outcome string) (ls : list string)
  : list string :=
  flat_map (fun i =>
              if (String.length i =? 0)%nat then []
              else match predict i with
                   | Returns text => [i; text]
                   | Raises _ => [i]
                   end) ls.

(** ** Small concrete models, used to run the definitions *)

(** A tokenizer that encodes a sentence as the one-row batch of its
    character codes. *)
Definition toy_tokenize (s : string) : tensor2 :=
  [map (fun c => Z.of_nat (nat_of_ascii c)) (list_ascii_of_string s)].

(** A forward pass that answers the same logits at every position. *)
Definition toy_call (logits : list R) (w : unit) (inp tar : tensor2)
    (training : bool) (m1 m2 m3 : tensor4) : logits3 :=
  map (map (fun _ => logits)) tar.

(** An optimizer step that leaves the weights as they are. *)
Definition toy_apply_gradients (w : unit) (inp tar_inp tar_real : tensor2) : unit :=
  w.

(** A prediction that fails on the sentence "a" and echoes any other one. *)
Definition toy_predict (s : string) : outcome string :=
  if String.eqb s "a" then Raises "boom" else Returns s.

(** The text of three lines "b", "a", "c". *)
Definition toy_demo_file : string :=
  String "b" (String newline (String "a" (String newline (String "c" EmptyString)))).

(** Two tokenizer decoders: one renders the reserved ids by name, the other
    skips them. *)
Definition token_text (skip_special : bool) (id : Z) : string :=
  if id =? 0 then (if skip_special then "" else "[PAD]")
  else if id =? 2 then (if skip_special then "" else "[CLS]")
  else if id =? 3 then (if skip_special then "" else "[SEP]")
  else "w".

Definition toy_decode (skip_special : bool) (ids : list Z) : string :=
  String.concat "" (map (token_text skip_special) ids).

(** ** Specification-side definitions for decoding and training runs *)

Section TransformerSpec.
Variable weights : Type.
Variable call : weights -> tensor2 -> tensor2 -> bool ->
                tensor4 -> tensor4 -> tensor4 -> logits3.
Variable apply_gradients : weights -> tensor2 -> tensor2 -> tensor2 -> weights.

(** The id that one forward pass selects when the decoder input is the
    one-row batch [[prefix]]. *)
Definition greedy_choice (w : weights) (encoder_input : tensor2)
    (prefix : list Z) : option Z :=
  at2 (greedy_step weights call w encoder_input [prefix]) 0 0.

(** A caller's training loop: [train_step] on each batch in turn. *)
Definition train_steps (w : weights) (h : heap)
    (batches : list (tensor2 * tensor2)) : weights * heap :=
  foldl (fun st batch => train_step weights call apply_gradients
                                    st.1 batch.1 batch.2 st.2)
        (w, h) batches.

(** The loss of each step of such a loop. *)
Fixpoint train_losses (w : weights) (batches : list (tensor2 * tensor2))
  : list tfloat :=
  match batches with
  | [] => []
  | batch :: batches' =>
      let tp := batch_targets weights call w true batch.1 batch.2 in
      loss_function tp.1 tp.2
      :: train_losses (apply_gradients w batch.1 (drop_last_column batch.2)
                                       (drop_first_column batch.2))
                      batches'
  end.
End TransformerSpec.

(** ** Specification-side definitions for the size of the loss *)

(** Every non-pad label that is compared is an index into its vector of
    logits (the label is inside the vocabulary). *)
Definition in_vocabulary (real : tensor2) (pred : logits3) : Prop :=
  Forall (fun p : Z * list R =>
            p.1 <> 0 -> 0 <= p.1 /\ (Z.to_nat p.1 < length p.2)%nat)
         (compared real pred).

(** The same constant added to every logit. *)
Definition shift_logits (c : R) (pred : logits3) : logits3 :=
  map (map (map (fun x => (x + c)%R))) pred.

(** ** The history file *)

(** [Transformer._history(test_loss, test_acc)]: [file] is the content of
    [./history.txt] ([None] when the file does not exist yet; mode ['a+']
    creates it), [str_float] is the rendering of a number by ['%s'].  The
    result is the content of the file after the call. *)
Definition _history (str_float : tfloat -> string) (file : option string)
    (test_loss test_acc : tfloat) : string :=
  (default EmptyString file
   ++ String newline (str_float test_loss ++ " " ++ str_float test_acc))%string.

(** A line that [demo] does not skip. *)
Definition nonempty_line (i : string) : bool := negb (String.length i =? 0)%nat.

(** The character [sep] does not occur in [s]. *)
Definition free_of (sep : ascii) (s : string) : Prop :=
  ~ In sep (list_ascii_of_string s).

(** ** Activation and positional encoding *)

(** [gelu(x)]: [0.5 * x * (1 + tanh(sqrt(2 / pi) * (x + 0.044715 * x^3)))]. *)
Definition gelu (x : R) : R :=
  (0.5 * x * (1 + tanh (sqrt (2 / PI) * (x + 0.044715 * x ^ 3))))%R.

(** [get_angles(pos, i, d_model)] for a column of positions and a row of
    dimension indices: [angle_rates = 1 / 10000^((2 * (i // 2)) / d_model)],
    and the product [pos * angle_rates] is broadcast to a matrix. *)
Definition angle_rates (i d_model : nat) : R :=
  (1 / Rpower 10000 (INR (2 * (i / 2)) / INR d_model))%R.

Definition get_angles (pos : list R) (i : list nat) (d_model : nat)
  : list (list R) :=
  map (fun p => map (fun k => (p * angle_rates k d_model)%R) i) pos.

(** [np.arange(n)]. *)
Definition np_arange (n : nat) : list nat := seq 0 n.

(** [positional_encoding(position, d_model)]: sine on the even columns, then
    cosine on the odd columns, then a leading axis of length 1. *)
Definition positional_encoding (position d_model : nat) : list (list (list R)) :=
  let angle_rads :=
    get_angles (map INR (np_arange position)) (np_arange d_model) d_model in
  let angle_rads :=
    map (imap (fun j x => if Nat.even j then sin x else x)) angle_rads in
  let angle_rads :=
    map (imap (fun j x => if Nat.odd j then cos x else x)) angle_rads in
  [angle_rads].

(** Entry of the encoding table at position [p], dimension [i]. *)
Definition pe_at (table : list (list (list R))) (p i : nat) : option R :=
  m ← table !! 0%nat; row ← m !! p; row !! i.

(** ** Softmax on real tensors *)

Abbreviation rtensor4 := (list (list (list (list R)))).

(** [tf.nn.softmax(x, axis=-1)] on one vector and on a rank-4 tensor. *)
Definition softmax_row (l : list R) : list R :=
  map (fun x => (exp x / reduce_sum1 (map exp l))%R) l.

Definition tf_nn_softmax (x : rtensor4) : rtensor4 :=
  map (map (map softmax_row)) x.

(** Row [i] of head [h] of batch element [b]. *)
Definition row4 (x : rtensor4) (b h i : nat) : option (list R) :=
  m3 ← x !! b; m2 ← m3 !! h; m2 !! i.

(** ** The decoder stack *)

(** ['{}'.format(n)] for a non-negative integer. *)
Definition py_str_nat (n : nat) : string :=
  NilZero.string_of_uint (Nat.to_uint n).

(** ['decoder_layer{}_block1'.format(n)] and
    ['decoder_layer{}_block2'.format(n)]. *)
Definition block1_key (n : nat) : string :=
  ("decoder_layer" ++ py_str_nat n ++ "_block1")%string.
Definition block2_key (n : nat) : string :=
  ("decoder_layer" ++ py_str_nat n ++ "_block2")%string.

Section DecoderStack.
Variable T : Type.
Variable tf_shape0 : T -> Z.
Variable tf_reshape : T -> list Z -> T.
Variable tf_transpose : T -> list Z -> T.
Variable tf_matmul : T -> T -> bool -> T.
Variable div_sqrt_dk : T -> T -> T.
Variable add_mask : T -> tensor4 -> T.
Variable softmax : T -> T.
Variable tensor_add : T -> T -> T.
(** [x * tf.math.sqrt(tf.cast(d_model, float_dtype))]. *)
Variable scale_sqrt : T -> Z -> T.
(** [pos_encoding[:, :seq_len, :]]. *)
Variable slice_positions : T -> nat -> T.

Record Decoder : Type := {
  decoder_d_model : Z;
  decoder_num_layers : nat;
  decoder_embedding : tensor2 -> T;
  decoder_pos_encoding : T;
  dec_layers : list (DecoderLayer T);
  decoder_dropout : T -> bool -> T
}.

(** [Decoder.__init__]: the list [dec_layers] is built by a comprehension
    over [range(num_layers)]; [new_layer] stands for the successive calls of
    [DecoderLayer(d_model, num_heads, dff, rate)]. *)
Definition Decoder_init (num_layers : nat) (d_model : Z)
    (embedding : tensor2 -> T) (pos_encoding : T)
    (new_layer : nat -> DecoderLayer T) (dropout : T -> bool -> T) : Decoder :=
  {| decoder_d_model := d_model;
     decoder_num_layers := num_layers;
     decoder_embedding := embedding;
     decoder_pos_encoding := pos_encoding;
     dec_layers := map new_layer (seq 0 num_layers);
     decoder_dropout := dropout |}.

(** The part of [Decoder.call] before the loop. *)
Definition Decoder_embed (self : Decoder) (x : tensor2) (training : bool) : T :=
  let seq_len := shape1 x in
  let x := decoder_embedding self x in
  let x := scale_sqrt x (decoder_d_model self) in
  let x := tensor_add x (slice_positions (decoder_pos_encoding self) seq_len) in
  decoder_dropout self x training.

(** One iteration of the loop [for i in range(self.num_layers)]; indexing
    [self.dec_layers[i]] raises when the list is too short. *)
Definition Decoder_step (self : Decoder) (enc_output : T) (training : bool)
    (look_ahead_mask padding_mask : option tensor4)
    (state : outcome (T * gmap string T)) (i : nat)
  : outcome (T * gmap string T) :=
  match state with
  | Raises e => Raises e
  | Returns (x, attention_weights) =>
      match dec_layers self !! i with
      | None => Raises "IndexError"
      | Some layer =>
          let '(x, block1, block2) :=
            DecoderLayer_call T tf_shape0 tf_reshape tf_transpose tf_matmul
                              div_sqrt_dk add_mask softmax tensor_add
                              layer x enc_output training
                              look_ahead_mask padding_mask in
          let attention_weights :=
            <[block1_key (i + 1) := block1]> attention_weights in
          let attention_weights :=
            <[block2_key (i + 1) := block2]> attention_weights in
          Returns (x, attention_weights)
      end
  end.

(** [Decoder.call(self, x, enc_output, training, look_ahead_mask,
    padding_mask)]. *)
Definition Decoder_call (self : Decoder) (x : tensor2) (enc_output : T)
    (training : bool) (look_ahead_mask padding_mask : option tensor4)
  : outcome (T * gmap string T) :=
  foldl (Decoder_step self enc_output training look_ahead_mask padding_mask)
        (Returns (Decoder_embed self x training, ∅))
        (seq 0 (decoder_num_layers self)).

(** Specification side: the hidden state that enters layer [i], that is the
    embedded input threaded through the first [i] layers. *)
Definition Decoder_state (self : Decoder) (x : tensor2) (enc_output : T)
    (training : bool) (look_ahead_mask padding_mask : option tensor4)
    (i : nat) : T :=
  foldl (fun x layer =>
           (DecoderLayer_call T tf_shape0 tf_reshape tf_transpose tf_matmul
                              div_sqrt_dk add_mask softmax tensor_add
                              layer x enc_output training
                              look_ahead_mask padding_mask).1.1)
        (Decoder_embed self x training)
        (take i (dec_layers self)).
End DecoderStack.

(** ** A small decoder, used to run the definitions *)

Definition toy_attention : MultiHeadAttention unit :=
  {| num_heads := 1; d_model := 1; depth := 1;
     wq := fun x => x; wk := fun x => x; wv := fun x => x;
     dense := fun x => x |}.

Definition toy_decoder_layer : DecoderLayer unit :=
  {| mha1 := toy_attention; mha2 := toy_attention;
     ffn := fun x => x;
     layernorm1 := fun x => x; layernorm2 := fun x => x;
     layernorm3 := fun x => x;
     dropout1 := fun x _ => x; dropout2 := fun x _ => x;
     dropout3 := fun x _ => x |}.

Definition toy_decoder : Decoder unit :=
  Decoder_init unit 2 1 (fun _ => tt) tt (fun _ => toy_decoder_layer)
               (fun x _ => x).

(** ** Failures of the runtime

    The definitions above take the numeric runtime as total: the
    per-position cross-entropy is a real number and a forward pass always
    answers.  The runtime is not total: the cross-entropy kernel rejects a
    label outside the vocabulary and can answer inf or NaN, and a forward pass
    can raise, for instance when a sequence is longer than the table of
    positional encodings.  The definitions of this section are the same
    functions with these outcomes kept; they coincide with the ones above
    when nothing fails ([loss_function_checked_ideal],
    [predict_checked_total]). *)

#[global] Instance outcome_ret : MRet outcome := fun A a => Returns a.

#[global] Instance outcome_bind : MBind outcome := fun A B f m =>
  match m with
  | Returns a => f a
  | Raises e => Raises e
  end.

(** Evaluating a list of calls in order: the first exception ends it. *)
Fixpoint all_returned {A} (l : list (outcome A)) : outcome (list A) :=
  match l with
  | [] => Returns []
  | o :: l' => a ← o; r ← all_returned l'; mret (a :: r)
  end.

(** [a * m] for a float [a] and a finite [m]: inf * 0 is NaN. *)
Definition tf_mul (a : tfloat) (m : R) : tfloat :=
  match a with
  | Finite x => Finite (x * m)
  | NaN => NaN
  | PosInf =>
      if Req_dec_T m 0 then NaN else if Rlt_dec 0 m then PosInf else NegInf
  | NegInf =>
      if Req_dec_T m 0 then NaN else if Rlt_dec 0 m then NegInf else PosInf
  end.

(** [a / b] for a float [a] and a finite [b] that is not negative (a sum of
    mask values): a finite [a] divides as in [tf_truediv]. *)
Definition tf_div (a : tfloat) (b : R) : tfloat :=
  match a with
  | Finite x => tf_truediv x b
  | NaN => NaN
  | PosInf => if Rlt_dec b 0 then NegInf else PosInf
  | NegInf => if Rlt_dec b 0 then PosInf else NegInf
  end.

(** [tf.reduce_sum] over a rank-2 tensor of floats. *)
Definition reduce_sum_fl (t : list (list tfloat)) : tfloat :=
  foldr tf_add (Finite 0) (concat t).

Section Kernel.
(** The kernel behind
    [SparseCategoricalCrossentropy(from_logits=True, reduction='none')] at
    one position: from a label and a vector of logits to a float, or to the
    exception with which the runtime rejects the label. *)
Variable kernel : Z -> list R -> outcome tfloat.

(** [loss_object(real, pred)]: the call raises when a position is rejected. *)
Definition loss_object_checked (real : tensor2) (pred : logits3)
  : outcome (list (list tfloat)) :=
  all_returned (map all_returned (zip_with (zip_with kernel) real pred)).

(** [loss_] after [loss_ *= mask]. *)
Definition masked_loss_checked (real : tensor2) (pred : logits3)
  : outcome (list (list tfloat)) :=
  loss_ ← loss_object_checked real pred;
  mret (zip_with (zip_with tf_mul) loss_ (loss_mask real)).

(** [loss_function(real, pred)]. *)
Definition loss_function_checked (real : tensor2) (pred : logits3)
  : outcome tfloat :=
  loss_ ← masked_loss_checked real pred;
  mret (tf_div (reduce_sum_fl loss_) (reduce_sum (loss_mask real))).

(** Specification side: the masked loss at one position. *)
Definition masked_entry_checked (t : Z) (logits : list R) : outcome tfloat :=
  x ← kernel t logits; mret (tf_mul x (not_equal0 t)).
End Kernel.

(** The kernel in exact arithmetic: a label outside [0, vocabulary) is
    rejected, any other label gives [sparse_categorical_crossentropy].  The
    float kernel differs from it by rounding and by overflow to inf. *)
Definition ideal_kernel (label : Z) (logits : list R) : outcome tfloat :=
  if (0 <=? label) && (label <? Z.of_nat (length logits))
  then Returns (Finite (sparse_categorical_crossentropy label logits))
  else Raises "InvalidArgumentError".

(** Specification side: a float that is a number at least 0, or +inf. *)
Definition not_negative (a : tfloat) : Prop :=
  match a with
  | Finite x => (0 <= x)%R
  | PosInf => True
  | NegInf | NaN => False
  end.

(** Every compared label, pad or not, is an index into its logits. *)
Definition labels_in_range (real : tensor2) (pred : logits3) : Prop :=
  Forall (fun p : Z * list R => 0 <= p.1 < Z.of_nat (length p.2))
         (compared real pred).

(** At every compared position the kernel returns a float that is not
    negative, and a finite one where the label is the pad id. *)
Definition kernel_not_negative (kernel : Z -> list R -> outcome tfloat)
    (real : tensor2) (pred : logits3) : Prop :=
  Forall (fun p : Z * list R =>
            exists x, kernel p.1 p.2 = Returns x /\ not_negative x /\
                      (p.1 = 0 -> exists a, x = Finite a))
         (compared real pred).

(** *** Greedy decoding over a forward pass that can raise *)

Section TransformerChecked.
(** The forward pass [Transformer.call] (its first result) as a call that
    returns logits or raises; the tokenizer and [MAX_LENGTH] as before. *)
Variable weights : Type.
Variable call : weights -> tensor2 -> tensor2 -> bool ->
                tensor4 -> tensor4 -> tensor4 -> outcome logits3.
Variable tokenize_batch : string -> tensor2.
Variable decode : list Z -> string.
Variable MAX_LENGTH : nat.

(** One forward pass of the decoding loop, up to [predicted_id] of shape
    (batch, 1). *)
Definition greedy_step_checked (w : weights) (encoder_input output : tensor2)
  : outcome tensor2 :=
  let '(enc_padding_mask, combined_mask, dec_padding_mask) :=
    create_masks encoder_input output in
  predictions ← call w encoder_input output false
                     enc_padding_mask combined_mask dec_padding_mask;
  let predictions := last_position predictions in
  mret (argmax_ids predictions).

(** The loop [for i in range(MAX_LENGTH)] of [predict], with [n] iterations
    left.  Nothing in [predict] catches an exception, so the exception of a
    forward pass ends the loop.  The second component counts the forward
    passes that were started. *)
Fixpoint predict_loop_checked (w : weights) (encoder_input : tensor2) (n : nat)
    (output : tensor2) (result : list Z) (passes : nat)
  : outcome (list Z) * nat :=
  match n with
  | O => (Returns result, passes)
  | S n' =>
      match greedy_step_checked w encoder_input output with
      | Raises e => (Raises e, S passes)
      | Returns predicted_id =>
          let output := concat_last output predicted_id in
          match at2 predicted_id 0 0 with
          | None => (Raises "IndexError", S passes)
          | Some predicted_id =>
              if predicted_id =? 3 then (Returns result, S passes)
              else predict_loop_checked w encoder_input n' output
                                        (result ++ [predicted_id]) (S passes)
          end
      end
  end.

(** [predict] up to the list handed to [self.tk.decode]. *)
Definition predict_ids_checked (w : weights) (inp_sentence : string)
  : outcome (list Z) * nat :=
  let encoder_input := tokenize_batch inp_sentence in
  let decoder_input := [2] in
  let output := [decoder_input] in
  let result := decoder_input in
  predict_loop_checked w encoder_input MAX_LENGTH output result 0.

(** [Transformer.predict]. *)
Definition predict_checked (w : weights) (inp_sentence : string)
  : outcome string :=
  result ← (predict_ids_checked w inp_sentence).1;
  mret (decode result).

End TransformerChecked.

(** Modelled from the spec: the tokenizer ([self.tk], an artifact loaded from
    [tokenizer.joblib]) is not part of the source.  The spec gives it as
    [decode(sequence of integer ids) -> text] and, in its scenario of a model
    that predicts the end token at once, takes the text of the sequence that
    holds only the start token to be empty. *)
Definition decodes_start_token_to_empty (decode : list Z -> string) : Prop :=
  decode [2] = EmptyString.

(** *** The forward pass and the table of positional encodings *)

(** Hidden states of shape (batch, seq, d_model). *)
Abbreviation rtensor3 := (list (list (list R))).

(** Broadcasting of a binary operation along one axis, with the check of the
    runtime: equal lengths are zipped, an axis of length 1 is stretched, any
    other pair of lengths is rejected. *)
Definition bcast_checked {A B C} (f : A -> B -> outcome C)
    (u : list A) (v : list B) : outcome (list C) :=
  if (length u =? length v)%nat then all_returned (zip_with f u v)
  else match u, v with
       | [x], _ => all_returned (map (f x) v)
       | _, [y] => all_returned (map (fun x => f x y) u)
       | _, _ => Raises "InvalidArgumentError"
       end.

(** [x + y] on rank-3 tensors. *)
Definition tf_add3 (x y : rtensor3) : outcome rtensor3 :=
  bcast_checked
    (bcast_checked (bcast_checked (fun a b : R => Returns (a + b)%R))) x y.

(** [x * c] for a scalar [c]. *)
Definition scale3 (x : rtensor3) (c : R) : rtensor3 :=
  map (map (map (fun v => (v * c)%R))) x.

(** An [Encoder]: its embedding layer, its table [pos_encoding], its dropout
    layer, and the loop over [enc_layers] as one call. *)
Record Encoder_checked : Type := {
  enc_d_model : Z;
  enc_embedding : tensor2 -> rtensor3;
  enc_pos_encoding : rtensor3;
  enc_dropout : rtensor3 -> bool -> rtensor3;
  enc_layers_call : rtensor3 -> bool -> tensor4 -> outcome rtensor3
}.

(** [Encoder.call(self, x, training, mask)]. *)
Definition Encoder_call_checked (self : Encoder_checked) (x : tensor2)
    (training : bool) (mask : tensor4) : outcome rtensor3 :=
  let seq_len := shape1 x in
  let x := enc_embedding self x in
  let x := scale3 x (sqrt (IZR (enc_d_model self))) in
  x ← tf_add3 x (map (take seq_len) (enc_pos_encoding self));
  let x := enc_dropout self x training in
  enc_layers_call self x training mask.

(** A [Decoder], in the same way; the loop over [dec_layers] is one call
    that yields the final state (the map of attention weights is left out). *)
Record Decoder_checked : Type := {
  dec_d_model : Z;
  dec_embedding : tensor2 -> rtensor3;
  dec_pos_encoding : rtensor3;
  dec_dropout : rtensor3 -> bool -> rtensor3;
  dec_layers_call : rtensor3 -> rtensor3 -> bool -> tensor4 -> tensor4 ->
                    outcome rtensor3
}.

(** [Decoder.call(self, x, enc_output, training, look_ahead_mask,
    padding_mask)], its first result. *)
Definition Decoder_call_checked (self : Decoder_checked) (x : tensor2)
    (enc_output : rtensor3) (training : bool)
    (look_ahead_mask padding_mask : tensor4) : outcome rtensor3 :=
  let seq_len := shape1 x in
  let x := dec_embedding self x in
  let x := scale3 x (sqrt (IZR (dec_d_model self))) in
  x ← tf_add3 x (map (take seq_len) (dec_pos_encoding self));
  let x := dec_dropout self x training in
  dec_layers_call self x enc_output training look_ahead_mask padding_mask.



(** Specification side: [x] has shape ([b], [s], [d]). *)
Definition shape3 (b s d : nat) (x : rtensor3) : Prop :=
  length x = b /\
  Forall (fun m => length m = s /\ Forall (fun r : list R => length r = d) m) x.

(** Entry of a rank-3 tensor at batch element [b], position [p],
    dimension [i]. *)
Definition entry3 (x : rtensor3) (b p i : nat) : option R :=
  r ← at3 x b p; r !! i.

(** An embedding layer of width [d] maps a batch of shape (batch, seq) to a
    tensor of shape (batch, seq, [d]). *)
Definition embedding_shape (d : nat) (embedding : tensor2 -> rtensor3) : Prop :=
  forall (x : tensor2) (s : nat),
    rectangular s x -> shape3 (length x) s d (embedding x).

(** *** A small transformer, used to run the definitions

    Embedding tables of zeros, layers that hand their input on, and a final
    layer with a zero kernel and the bias [0, 1], so that every forward pass
    that returns selects the id 1. *)

Definition toy_embedding (d : nat) (x : tensor2) : rtensor3 :=
  map (map (fun _ => replicate d 0%R)) x.


Definition toy_decoder_checked (capacity : nat) : Decoder_checked :=
  {| dec_d_model := 2;
     dec_embedding := toy_embedding 2;
     dec_pos_encoding := positional_encoding capacity 2;
     dec_dropout := fun x _ => x;
     dec_layers_call := fun x _ _ _ _ => Returns x |}.


(** [toy_call] as a forward pass that returns. *)
Definition toy_call_checked (logits : list R) (w : unit) (inp tar : tensor2)
    (training : bool) (m1 m2 m3 : tensor4) : outcome logits3 :=
  Returns (toy_call logits w inp tar training m1 m2 m3).

(* ================================================================= *)
(** * Part II: properties *)
(* ================================================================= *)

(** ** Masks *)

Example padding_mask_example :
  create_padding_mask [[4; 5; 6; 0; 0]] = [[[[0; 0; 0; 1; 1]]]].
Proof. reflexivity. Qed.

Example look_ahead_mask_3 :
  create_look_ahead_mask 3 = [[0; 1; 1]; [0; 0; 1]; [0; 0; 0]].
Proof. reflexivity. Qed.

Example combined_mask_example :
  (create_masks [[4; 5; 6; 0; 0]] [[2; 7; 0]]).1.2
  = [[[[0; 1; 1]; [0; 0; 1]; [0; 0; 1]]]].
Proof. reflexivity. Qed.

Lemma look_ahead_mask_seq (n : nat) :
  create_look_ahead_mask n
  = map (fun i => map (fun j => if (i <? j)%nat then 1 else 0) (seq 0 n)) (seq 0 n).
Proof.
  unfold create_look_ahead_mask, band_part, ones.
  apply list_eq; intros i.
  rewrite !list_lookup_fmap, list_lookup_imap.
  destruct (decide (i < n)%nat) as [Hi | Hi].
  - rewrite (lookup_seq_lt 0 n i Hi), (lookup_replicate_2 n _ i Hi). simpl.
    f_equal. apply list_eq; intros j.
    rewrite !list_lookup_fmap, list_lookup_imap.
    destruct (decide (j < n)%nat) as [Hj | Hj].
    + rewrite (lookup_seq_lt 0 n j Hj), (lookup_replicate_2 n _ j Hj). simpl.
      f_equal. unfold in_band. simpl.
      destruct (Nat.ltb_spec i j), (Z.leb_spec (Z.of_nat j - Z.of_nat i) 0);
        simpl; lia.
    + rewrite (lookup_seq_ge 0 n j) by lia.
      assert (replicate n 1 !! j = None) as -> by (apply lookup_replicate_None; lia).
      done.
  - rewrite (lookup_seq_ge 0 n i) by lia.
    assert (replicate n (replicate n 1) !! i = None) as ->
      by (apply lookup_replicate_None; lia).
    done.
Qed.

Lemma count_ones_cons (row : list Z) (m : tensor2) :
  count_ones (row :: m) = (ones_of row + count_ones m)%nat.
Proof. unfold count_ones, ones_of. simpl. now rewrite filter_app, length_app. Qed.

Lemma count_ones_map {A} (f : A -> list Z) (l : list A) :
  count_ones (map f l)
  = sum_list (map (fun a => ones_of (f a)) l).
Proof.
  induction l as [| a l IH]; [reflexivity |].
  simpl map. rewrite count_ones_cons, IH. reflexivity.
Qed.

(** Row [i] of the strict upper triangle of width [n] has [n - (i + 1)] ones. *)
Lemma ones_in_row (i n : nat) :
  ones_of (map (fun j => if (i <? j)%nat then 1 else 0) (seq 0 n))
  = (n - S i)%nat.
Proof.
  unfold ones_of.
  induction n as [| n IH]; [reflexivity |].
  rewrite seq_S, map_app, filter_app, length_app, IH. simpl.
  destruct (Nat.ltb_spec i n).
  - rewrite filter_cons_True by reflexivity. simpl. lia.
  - rewrite filter_cons_False by discriminate. simpl. lia.
Qed.

Lemma sum_list_append (l k : list nat) :
  sum_list (l ++ k) = (sum_list l + sum_list k)%nat.
Proof. induction l as [| a l IH]; simpl; [reflexivity | rewrite IH; lia]. Qed.

Lemma sum_list_snoc (l : list nat) (a : nat) :
  sum_list (l ++ [a]) = (sum_list l + a)%nat.
Proof. rewrite sum_list_append. simpl. lia. Qed.

Lemma sum_triangle_step (n k : nat) :
  (k <= n)%nat ->
  (sum_list (map (fun i => n - i) (seq 0 k))
   = sum_list (map (fun i => n - S i) (seq 0 k)) + k)%nat.
Proof.
  induction k as [| k IHk]; intros Hk; [reflexivity |].
  rewrite seq_S, !map_app. cbn [map]. rewrite !sum_list_snoc, IHk by lia. lia.
Qed.

Lemma sum_triangle (n : nat) :
  (2 * sum_list (map (fun i => n - S i) (seq 0 n)) = n * (n - 1))%nat.
Proof.
  induction n as [| n IH]; [reflexivity |].
  rewrite seq_S, map_app. cbn [map]. rewrite sum_list_snoc.
  change (map (fun i => (S n - S i)%nat) (seq 0 n))
    with (map (fun i => (n - i)%nat) (seq 0 n)).
  rewrite sum_triangle_step by lia.
  replace (S n - 1)%nat with n by lia.
  destruct n as [| m]; [simpl in *; lia |].
  replace (S m - 1)%nat with m in IH by lia. nia.
Qed.

Lemma look_ahead_mask_shape (n : nat) :
  length (create_look_ahead_mask n) = n /\
  rectangular n (create_look_ahead_mask n).
Proof.
  rewrite look_ahead_mask_seq. split.
  - now rewrite length_map, length_seq.
  - unfold rectangular. apply Forall_map, Forall_forall. intros i _.
    simpl. now rewrite length_map, length_seq.
Qed.

(** C7. For every size [n] (positive or zero), [create_look_ahead_mask n] is
    the strict upper-triangular [n] x [n] matrix: it has [n] rows of length
    [n], its entry at row [i] and column [j] is 1 exactly when [j > i] and 0
    otherwise (and there is no entry outside the shape), and it contains
    exactly [n * (n - 1) / 2] ones. *)
Theorem create_look_ahead_mask_strict_upper (n : nat) :
  length (create_look_ahead_mask n) = n /\
  rectangular n (create_look_ahead_mask n) /\
  (forall i j : nat,
      at2 (create_look_ahead_mask n) i j
      = if ((i <? n) && (j <? n))%nat
        then Some (if (i <? j)%nat then 1 else 0)
        else None) /\
  count_ones (create_look_ahead_mask n) = (n * (n - 1) / 2)%nat.
Proof.
  split; [apply look_ahead_mask_shape |].
  split; [apply look_ahead_mask_shape |].
  rewrite look_ahead_mask_seq. split.
  - intros i j. unfold at2. rewrite list_lookup_fmap.
    destruct (Nat.ltb_spec i n) as [Hi | Hi].
    + rewrite (lookup_seq_lt 0 n i Hi). simpl. rewrite list_lookup_fmap.
      destruct (Nat.ltb_spec j n) as [Hj | Hj].
      * now rewrite (lookup_seq_lt 0 n j Hj).
      * now rewrite (lookup_seq_ge 0 n j Hj).
    + now rewrite (lookup_seq_ge 0 n i Hi).
  - rewrite count_ones_map.
    rewrite (map_ext _ (fun i => (n - S i)%nat)) by (intros i; apply ones_in_row).
    apply Nat.div_unique_exact; [lia |]. now rewrite sum_triangle.
Qed.

Lemma bcast_same_length {A B C} (f : A -> B -> C) (u : list A) (v : list B) :
  length u = length v -> bcast f u v = zip_with f u v.
Proof.
  destruct u as [| x [| x' u]], v as [| y [| y' v]];
    simpl; intros H; try discriminate H; reflexivity.
Qed.

Lemma padding_mask_lookup (seq : tensor2) (b : nat) :
  create_padding_mask seq !! b = (fun row => [[map equal0 row]]) <$> seq !! b.
Proof. unfold create_padding_mask. apply list_lookup_fmap. Qed.

Lemma padding_mask_entry (seq : tensor2) (b j : nat) :
  at4 (create_padding_mask seq) b 0 0 j = equal0 <$> at2 seq b j.
Proof.
  unfold at4, at2. rewrite padding_mask_lookup.
  destruct (seq !! b) as [row |]; simpl; [| reflexivity].
  apply list_lookup_fmap.
Qed.

Lemma look_ahead_mask_row (n i : nat) :
  (i < n)%nat ->
  exists larow, create_look_ahead_mask n !! i = Some larow /\ length larow = n.
Proof.
  intros Hi.
  destruct (look_ahead_mask_shape n) as [Hlen Hrect].
  destruct (lookup_lt_is_Some_2 (create_look_ahead_mask n) i) as [larow Hrow];
    [lia |].
  exists larow. split; [exact Hrow |].
  unfold rectangular in Hrect. rewrite Forall_lookup in Hrect. eauto.
Qed.

Lemma shape1_rectangular (n : nat) (t : tensor2) (b : nat) (row : list Z) :
  rectangular n t -> t !! b = Some row -> shape1 t = n /\ length row = n.
Proof.
  unfold rectangular. intros Hrect Hrow.
  split; [| exact (proj1 (Forall_lookup _ t) Hrect b row Hrow)].
  destruct t as [| r t]; [discriminate Hrow |].
  simpl. now inversion Hrect.
Qed.

Lemma combined_mask_entry (n : nat) (tar : tensor2) (b i j : nat) :
  rectangular n tar ->
  at4 (tf_maximum (create_padding_mask tar) (create_look_ahead_mask (shape1 tar)))
      b 0 i j
  = x ← at4 (create_padding_mask tar) b 0 0 j;
    y ← at2 (create_look_ahead_mask n) i j;
    Some (Z.max x y).
Proof.
  intros Hrect. rewrite padding_mask_entry.
  unfold at4, at2, tf_maximum.
  rewrite list_lookup_fmap, padding_mask_lookup.
  destruct (tar !! b) as [row |] eqn:Hrow; simpl; [| reflexivity].
  destruct (shape1_rectangular n tar b row Hrect Hrow) as [-> Hlen].
  rewrite list_lookup_fmap.
  destruct (decide (i < n)%nat) as [Hi | Hi].
  - destruct (look_ahead_mask_row n i Hi) as (larow & -> & Hla). simpl.
    rewrite bcast_same_length by (rewrite length_map; lia).
    rewrite lookup_zip_with, list_lookup_fmap.
    destruct (row !! j); reflexivity.
  - assert (create_look_ahead_mask n !! i = None) as ->.
    { apply lookup_ge_None_2.
      destruct (look_ahead_mask_shape n) as [-> _]. lia. }
    simpl. destruct (row !! j); reflexivity.
Qed.

(** C6. [create_masks inp tar] returns three masks.  The encoder padding mask
    and the decoder cross-attention padding mask are the same padding mask of
    [inp]: one [1 x 1 x seq] block per batch row (shape (batch, 1, 1, seq)),
    holding 1 exactly where the token id is 0 and 0 elsewhere.  The decoder
    self-attention mask is, entry by entry, the maximum of the padding mask
    of [tar] (broadcast over the query axis) and the look-ahead mask.  In
    particular the input batch [[4,5,6,0,0]] gives the encoder padding mask
    [[[[0,0,0,1,1]]]] whatever the target batch is. *)
Theorem create_masks_spec (inp tar : tensor2) (n : nat) :
  rectangular n tar ->
  (create_masks inp tar).1.1 = create_padding_mask inp /\
  (create_masks inp tar).2 = create_padding_mask inp /\
  length (create_padding_mask inp) = length inp /\
  (forall b : nat,
      create_padding_mask inp !! b
      = (fun row => [[map (fun t => if t =? 0 then 1 else 0) row]]) <$> inp !! b) /\
  (forall b j : nat,
      at4 (create_padding_mask inp) b 0 0 j
      = (fun t => if t =? 0 then 1 else 0) <$> at2 inp b j) /\
  (forall b i j : nat,
      at4 (create_masks inp tar).1.2 b 0 i j
      = x ← at4 (create_padding_mask tar) b 0 0 j;
        y ← at2 (create_look_ahead_mask n) i j;
        Some (Z.max x y)) /\
  (forall tar' : tensor2,
      (create_masks [[4; 5; 6; 0; 0]] tar').1.1 = [[[[0; 0; 0; 1; 1]]]]).
Proof.
  intros Hrect. repeat split.
  - unfold create_padding_mask. apply length_map.
  - intros b. apply padding_mask_lookup.
  - intros b j. apply padding_mask_entry.
  - intros b i j. simpl. now apply combined_mask_entry.
Qed.

Lemma create_masks_spec_witness :
  rectangular 3 [[2; 7; 0]] /\
  at4 (create_masks [[4; 5; 6; 0; 0]] [[2; 7; 0]]).1.2 0 0 1 2
  = x ← at4 (create_padding_mask [[2; 7; 0]]) 0 0 0 2;
    y ← at2 (create_look_ahead_mask 3) 1 2;
    Some (Z.max x y).
Proof.
  assert (H : rectangular 3 [[2; 7; 0]]) by (repeat constructor).
  split; [exact H |].
  exact (proj1 (proj2 (proj2 (proj2 (proj2 (proj2
           (create_masks_spec [[4; 5; 6; 0; 0]] [[2; 7; 0]] 3%nat H))))))
           0%nat 1%nat 2%nat).
Defined.

(** ** The decoder layer *)

Section LayersProps.
Context (T : Type) (tf_shape0 : T -> Z) (tf_reshape tf_transpose : T -> list Z -> T)
        (tf_matmul : T -> T -> bool -> T) (div_sqrt_dk : T -> T -> T)
        (add_mask : T -> tensor4 -> T) (softmax : T -> T)
        (tensor_add : T -> T -> T).

Local Abbreviation attention :=
  (scaled_dot_product_attention T tf_matmul div_sqrt_dk add_mask softmax).
Local Abbreviation mha_call :=
  (MultiHeadAttention_call T tf_shape0 tf_reshape tf_transpose tf_matmul
                           div_sqrt_dk add_mask softmax).
Local Abbreviation layer_call :=
  (DecoderLayer_call T tf_shape0 tf_reshape tf_transpose tf_matmul
                     div_sqrt_dk add_mask softmax tensor_add).
Local Abbreviation layer_out1 :=
  (DecoderLayer_out1 T tf_shape0 tf_reshape tf_transpose tf_matmul
                     div_sqrt_dk add_mask softmax tensor_add).
Local Abbreviation heads := (split_heads T tf_reshape tf_transpose).

(** The positional arguments [(v, k, q, mask)] of [MultiHeadAttention.call]
    reach the attention primitive as [(q, k, v, mask)], each through its own
    projection. *)
Lemma MultiHeadAttention_call_unfold (self : MultiHeadAttention T)
    (v k q : T) (mask : option tensor4) :
  let bs := tf_shape0 q in
  let att := attention (heads self (wq T self q) bs)
                       (heads self (wk T self k) bs)
                       (heads self (wv T self v) bs) mask in
  mha_call self v k q mask
  = (dense T self
       (tf_reshape (tf_transpose att.1 [0; 2; 1; 3]) [bs; -1; d_model T self]),
     att.2).
Proof. reflexivity. Qed.

(** C8. In a decoder-layer forward pass the second attention block is the
    call [mha2(enc_output, enc_output, out1, padding_mask)] in the argument
    order [(v, k, q, mask)]: its queries are projected from [out1], the
    output of the masked self-attention block, its keys and its values are
    projected from the encoder output, and its scores are masked by
    [padding_mask].  The layer returns the weights of that block as its
    third result and builds [out2], hence [out3], from its output. *)
Theorem DecoderLayer_cross_attention (self : DecoderLayer T) (x enc_output : T)
    (training : bool) (look_ahead_mask padding_mask : option tensor4) :
  let out1 := layer_out1 self x training look_ahead_mask in
  let cross := mha2 T self in
  let bs := tf_shape0 out1 in
  let q := heads cross (wq T cross out1) bs in
  let k := heads cross (wk T cross enc_output) bs in
  let v := heads cross (wv T cross enc_output) bs in
  let attn2 := (mha_call cross enc_output enc_output out1 padding_mask).1 in
  let out2 :=
    layernorm2 T self (tensor_add (dropout2 T self attn2 training) out1) in
  mha_call cross enc_output enc_output out1 padding_mask
  = (dense T cross
       (tf_reshape (tf_transpose (attention q k v padding_mask).1 [0; 2; 1; 3])
                   [bs; -1; d_model T cross]),
     (attention q k v padding_mask).2) /\
  layer_call self x enc_output training look_ahead_mask padding_mask
  = (layernorm3 T self
       (tensor_add (dropout3 T self (ffn T self out2) training) out2),
     (mha_call (mha1 T self) x x x look_ahead_mask).2,
     (attention q k v padding_mask).2).
Proof.
  split; [reflexivity |].
  unfold DecoderLayer_call, DecoderLayer_out1.
  destruct (mha_call (mha1 T self) x x x look_ahead_mask) as [attn1 w1] eqn:E1.
  reflexivity.
Qed.
End LayersProps.

(** ** Greedy decoding *)

Lemma drop_to_last {A} (l : list A) :
  l <> [] -> exists x, drop (length l - 1) l = [x].
Proof.
  destruct l as [| a l] using rev_ind; [congruence |]. intros _.
  exists a. rewrite length_app. simpl.
  replace (length l + 1 - 1)%nat with (length l) by lia.
  now rewrite drop_app_length.
Qed.

Section PredictProps.
Context (weights : Type)
        (call : weights -> tensor2 -> tensor2 -> bool ->
                tensor4 -> tensor4 -> tensor4 -> logits3)
        (tokenize_batch : string -> tensor2)
        (decode : list Z -> string)
        (MAX_LENGTH : nat).

Local Abbreviation step := (greedy_step weights call).
Local Abbreviation loop := (predict_loop weights call).
Local Abbreviation call_shape := (call_shape weights call).

Lemma greedy_step_single (w : weights) (encoder_input : tensor2) (row : list Z) :
  call_shape -> row <> [] ->
  exists id, step w encoder_input [row] = [[id]].
Proof.
  intros Hshape Hrow. unfold greedy_step.
  destruct (create_masks encoder_input [row]) as [[m1 m2] m3].
  specialize (Hshape w encoder_input [row] false m1 m2 m3).
  inversion Hshape as [| r lg rs lgs Hlen Hrest]; subst.
  inversion Hrest; subst.
  destruct (drop_to_last lg) as [x Hx].
  { intros ->. destruct row; [congruence | discriminate Hlen]. }
  exists (Z.of_nat (argmax x)).
  unfold last_position, argmax_ids. simpl. now rewrite Hx.
Qed.

Lemma predict_loop_returns (w : weights) (encoder_input : tensor2) (n : nat) :
  call_shape ->
  forall (row result : list Z) (passes : nat),
    row <> [] -> ~ In 3 result ->
    exists result' passes',
      loop w encoder_input n [row] result passes = Returns (result', passes') /\
      (passes' <= passes + n)%nat /\ ~ In 3 result'.
Proof.
  intros Hshape.
  induction n as [| n IH]; intros row result passes Hrow H3.
  - exists result, passes. simpl. repeat split; [lia | assumption].
  - destruct (greedy_step_single w encoder_input row Hshape Hrow) as [id Hid].
    cbn [predict_loop]. rewrite Hid.
    change (at2 [[id]] 0 0) with (Some id). cbv beta iota.
    destruct (Z.eqb_spec id 3) as [-> | Hne].
    + exists result, (S passes). repeat split; [lia | assumption].
    + destruct (IH (row ++ [id]) (result ++ [id]) (S passes))
        as (result' & passes' & Hrun & Hle & Hno).
      * now destruct row.
      * rewrite in_app_iff. simpl. intuition congruence.
      * exists result', passes'. repeat split; [exact Hrun | lia | exact Hno].
Qed.
(** Whatever the forward pass answers, a run that reaches [decode] has made
    at most [n] further passes and hands over no end token. *)
Lemma predict_loop_safe (w : weights) (encoder_input : tensor2) (n : nat) :
forall (output : tensor2) (result : list Z) (passes : nat)
       (result' : list Z) (passes' : nat),
  ~ In 3 result ->
  loop w encoder_input n output result passes = Returns (result', passes') ->
  (passes' <= passes + n)%nat /\ ~ In 3 result'.
Proof.
induction n as [| n IH]; intros output result passes result' passes' H3 Hrun.
- simpl in Hrun. injection Hrun as <- <-. split; [lia | assumption].
- cbn [predict_loop] in Hrun.
  destruct (at2 (step w encoder_input output) 0 0) as [pid |] eqn:Hpid;
    [| discriminate Hrun].
  destruct (Z.eqb_spec pid 3) as [-> | Hne].
  + injection Hrun as <- <-. split; [lia | assumption].
  + apply IH in Hrun as [Hle Hno]; [split; [lia | exact Hno] |].
    rewrite in_app_iff. simpl. intuition congruence.
Qed.

End PredictProps.

(** *** Running the decoder on the small models *)

Ltac argmax_eval :=
  unfold argmax, argmax_from;
  repeat (match goal with
          | |- context [Rlt_dec ?a ?b] => destruct (Rlt_dec a b); try lra
          end);
  try reflexivity.

Lemma argmax_end_token : argmax [0; 0; 0; 1]%R = 3%nat.
Proof. argmax_eval. Qed.

Lemma argmax_word : argmax [0; 1]%R = 1%nat.
Proof. argmax_eval. Qed.

Lemma toy_call_shape (logits : list R) : call_shape unit (toy_call logits).
Proof.
  intros w inp tar training m1 m2 m3. unfold toy_call.
  induction tar as [| row tar IH]; simpl; constructor;
    [now rewrite length_map | exact IH].
Qed.

Lemma toy_first_step_end (s : string) :
  at2 (greedy_step unit (toy_call [0; 0; 0; 1]%R) tt (toy_tokenize s) [[2]]) 0 0
  = Some 3.
Proof.
  unfold greedy_step, toy_call, last_position, argmax_ids, at2. simpl.
  now rewrite argmax_end_token.
Qed.

(** ** Greedy decoding over a forward pass that can raise *)

Section PredictCheckedProps.
Context (weights : Type)
        (call : weights -> tensor2 -> tensor2 -> bool ->
                tensor4 -> tensor4 -> tensor4 -> outcome logits3)
        (tokenize_batch : string -> tensor2)
        (decode : list Z -> string)
        (MAX_LENGTH : nat).

Local Abbreviation step := (greedy_step_checked weights call).
Local Abbreviation loop := (predict_loop_checked weights call).





(** With a forward pass that always returns, the loop is [predict_loop]. *)
Lemma predict_loop_checked_total
    (call0 : weights -> tensor2 -> tensor2 -> bool ->
             tensor4 -> tensor4 -> tensor4 -> logits3)
    (w : weights) (encoder_input : tensor2) (n : nat) :
  (forall w inp tar tr m1 m2 m3,
      call w inp tar tr m1 m2 m3 = Returns (call0 w inp tar tr m1 m2 m3)) ->
  forall (output : tensor2) (result : list Z) (passes : nat),
    (loop w encoder_input n output result passes).1
    = match predict_loop weights call0 w encoder_input n output result passes with
      | Returns (result', _) => Returns result'
      | Raises e => Raises e
      end.
Proof.
  intros Hcall. induction n as [| n IH]; intros output result passes;
    [reflexivity |].
  cbn [predict_loop_checked predict_loop].
  assert (Hstep : step w encoder_input output
                  = Returns (greedy_step weights call0 w encoder_input output)).
  { unfold greedy_step_checked, greedy_step.
    destruct (create_masks encoder_input output) as [[m1 m2] m3].
    now rewrite Hcall. }
  rewrite Hstep.
  destruct (at2 (greedy_step weights call0 w encoder_input output) 0 0)
    as [id |]; [| reflexivity].
  destruct (id =? 3); [reflexivity | apply IH].
Qed.

(** C5. With [MAX_LENGTH = 1] and a first greedy step that selects the
    end-token id 3, [predict] makes one forward pass and hands [decode] the
    sequence [[2]]: only the start token was ever present and the end token
    is excluded.  With a tokenizer that decodes the start token alone to the
    empty text, [predict] returns the empty string. *)
Theorem predict_immediate_end (w : weights) (inp_sentence : string)
    (predicted_id : tensor2) :
  decodes_start_token_to_empty decode ->
  MAX_LENGTH = 1%nat ->
  greedy_step_checked weights call w (tokenize_batch inp_sentence) [[2]]
  = Returns predicted_id ->
  at2 predicted_id 0 0 = Some 3 ->
  predict_ids_checked weights call tokenize_batch MAX_LENGTH w inp_sentence
  = (Returns [2], 1%nat) /\
  predict_checked weights call tokenize_batch decode MAX_LENGTH w inp_sentence
  = Returns EmptyString.
Proof.
  intros Hdecode Hmax Hstep Hfirst.
  assert (Hids : predict_ids_checked weights call tokenize_batch MAX_LENGTH
                                     w inp_sentence = (Returns [2], 1%nat)).
  { unfold predict_ids_checked. rewrite Hmax. cbn [predict_loop_checked].
    now rewrite Hstep, Hfirst. }
  split; [exact Hids |].
  unfold predict_checked. rewrite Hids. cbn [fst mbind outcome_bind mret outcome_ret].
  now rewrite Hdecode.
Qed.

(** With a forward pass that always returns, [predict_checked] is
    [predict]. *)
Lemma predict_checked_total
    (call0 : weights -> tensor2 -> tensor2 -> bool ->
             tensor4 -> tensor4 -> tensor4 -> logits3)
    (w : weights) (inp_sentence : string) :
  (forall w inp tar tr m1 m2 m3,
      call w inp tar tr m1 m2 m3 = Returns (call0 w inp tar tr m1 m2 m3)) ->
  predict_checked weights call tokenize_batch decode MAX_LENGTH w inp_sentence
  = predict weights call0 tokenize_batch decode MAX_LENGTH w inp_sentence.
Proof.
  intros Hcall. unfold predict_checked, predict_ids_checked, predict, predict_ids.
  rewrite (predict_loop_checked_total call0 w _ MAX_LENGTH Hcall).
  destruct (predict_loop weights call0 w (tokenize_batch inp_sentence)
              MAX_LENGTH [[2]] [2] 0) as [[result passes] | e]; reflexivity.
Qed.
End PredictCheckedProps.

(** *** Broadcasting and the table of positional encodings *)




Lemma bcast_checked_mismatch {A B C} (f : A -> B -> outcome C)
    (u : list A) (v : list B) :
  length u <> length v -> length u <> 1%nat -> length v <> 1%nat ->
  bcast_checked f u v = Raises "InvalidArgumentError".
Proof.
  intros Hne Hu Hv. unfold bcast_checked.
  destruct (Nat.eqb_spec (length u) (length v)) as [E | _]; [contradiction |].
  destruct u as [| x [| x' u']], v as [| y [| y' v']]; simpl in *;
    try reflexivity; congruence.
Qed.

Lemma bcast_checked_stretch_r_raises {A B C} (f : A -> B -> outcome C)
    (u : list A) (y : B) (e : string) :
  u <> [] -> Forall (fun x => f x y = Raises e) u ->
  bcast_checked f u [y] = Raises e.
Proof.
  intros Hu H. unfold bcast_checked.
  destruct u as [| x [| x' u']]; [congruence | |];
    inversion H as [| ? ? Hx _]; subst; simpl; now rewrite Hx.
Qed.

Lemma positional_encoding_shape (position d_model : nat) :
  exists m, positional_encoding position d_model = [m] /\
            length m = position /\
            Forall (fun r => length r = d_model) m.
Proof.
  unfold positional_encoding, get_angles, np_arange. eexists.
  split; [reflexivity |]. split.
  - now rewrite !length_map, length_seq.
  - rewrite !Forall_map. apply Forall_forall. intros p _.
    now rewrite !length_imap, length_map, length_seq.
Qed.

Lemma scale3_shape (b s d : nat) (x : rtensor3) (c : R) :
  shape3 b s d x -> shape3 b s d (scale3 x c).
Proof.
  unfold shape3, scale3. intros [Hb Hx]. split; [now rewrite length_map |].
  rewrite Forall_map. eapply Forall_impl; [exact Hx |].
  simpl. intros m [Hs Hm]. split; [now rewrite length_map |].
  rewrite Forall_map. eapply Forall_impl; [exact Hm |].
  simpl. intros r Hr. now rewrite length_map.
Qed.


Lemma add_positions_outgrows (b s d capacity : nat) (x : rtensor3) :
  shape3 b s d x -> b <> 0%nat ->
  (capacity < s)%nat -> capacity <> 1%nat -> s <> 1%nat ->
  tf_add3 x (map (take s) (positional_encoding capacity d))
  = Raises "InvalidArgumentError".
Proof.
  intros [Hb Hx] Hb0 Hs Hc1 Hs1.
  destruct (positional_encoding_shape capacity d) as (m & -> & Hm & Hrows).
  cbn [map]. unfold tf_add3.
  apply bcast_checked_stretch_r_raises.
  - intros ->. simpl in Hb. lia.
  - eapply Forall_impl; [exact Hx |]. simpl. intros mx [Hmx _].
    apply bcast_checked_mismatch; rewrite ?length_take; lia.
Qed.

Lemma shape1_rows (x : tensor2) (s : nat) :
  x <> [] -> rectangular s x -> shape1 x = s.
Proof.
  intros Hx Hrect. destruct x as [| row x]; [congruence |].
  now inversion Hrect.
Qed.


Lemma Encoder_call_checked_outgrows (self : Encoder_checked) (x : tensor2)
    (s d capacity : nat) (training : bool) (mask : tensor4) :
  embedding_shape d (enc_embedding self) ->
  enc_pos_encoding self = positional_encoding capacity d ->
  x <> [] -> rectangular s x ->
  (capacity < s)%nat -> capacity <> 1%nat -> s <> 1%nat ->
  Encoder_call_checked self x training mask = Raises "InvalidArgumentError".
Proof.
  intros Hemb Hpos Hx Hrect Hs Hc1 Hs1. unfold Encoder_call_checked.
  rewrite Hpos, (shape1_rows x s Hx Hrect).
  rewrite (add_positions_outgrows (length x) s d capacity); [reflexivity | | | | |];
    try assumption.
  - now apply scale3_shape, Hemb.
  - now destruct x.
Qed.


Lemma Decoder_call_checked_outgrows (self : Decoder_checked) (x : tensor2)
    (s d capacity : nat) (enc_output : rtensor3) (training : bool)
    (look_ahead_mask padding_mask : tensor4) :
  embedding_shape d (dec_embedding self) ->
  dec_pos_encoding self = positional_encoding capacity d ->
  x <> [] -> rectangular s x ->
  (capacity < s)%nat -> capacity <> 1%nat -> s <> 1%nat ->
  Decoder_call_checked self x enc_output training look_ahead_mask padding_mask
  = Raises "InvalidArgumentError".
Proof.
  intros Hemb Hpos Hx Hrect Hs Hc1 Hs1. unfold Decoder_call_checked.
  rewrite Hpos, (shape1_rows x s Hx Hrect).
  rewrite (add_positions_outgrows (length x) s d capacity); [reflexivity | | | | |];
    try assumption.
  - now apply scale3_shape, Hemb.
  - now destruct x.
Qed.

(** *** Running the small transformer *)

Lemma toy_embedding_shape (d : nat) : embedding_shape d (toy_embedding d).
Proof.
  intros x s Hrect. unfold shape3, toy_embedding.
  split; [now rewrite length_map |].
  rewrite Forall_map. eapply Forall_impl; [exact Hrect |].
  simpl. intros row Hrow. split; [now rewrite length_map |].
  rewrite Forall_map. apply Forall_forall. intros t _. apply length_replicate.
Qed.









Lemma toy_first_step_checked (s : string) :
  greedy_step_checked unit (toy_call_checked [0; 0; 0; 1]%R) tt
                      (toy_tokenize s) [[2]]
  = Returns [[3]].
Proof.
  unfold greedy_step_checked, toy_call_checked, toy_call, last_position,
    argmax_ids. simpl. now rewrite argmax_end_token.
Qed.

Lemma predict_immediate_end_witness :
  predict_ids_checked unit (toy_call_checked [0; 0; 0; 1]%R) toy_tokenize 1 tt "ab"
  = (Returns [2], 1%nat) /\
  predict_checked unit (toy_call_checked [0; 0; 0; 1]%R) toy_tokenize
                  (toy_decode true) 1 tt "ab"
  = Returns EmptyString.
Proof.
  exact (predict_immediate_end unit (toy_call_checked [0; 0; 0; 1]%R)
           toy_tokenize (toy_decode true) 1 tt "ab" [[3]]
           eq_refl eq_refl (toy_first_step_checked "ab") eq_refl).
Defined.


(** ** The demo loop *)

Example split_example :
  split newline toy_demo_file = ["b"; "a"; "c"]%string.
Proof. reflexivity. Qed.

Example split_trailing_newline :
  split newline (String "b" (String newline EmptyString)) = ["b"; ""]%string.
Proof. reflexivity. Qed.

Lemma io_bind_lift_returns {A B} (a : A) (f : A -> io B) :
  (lift (Returns a) ≫= f) = f a.
Proof. unfold lift, mbind, io_bind. now destruct (f a). Qed.

Section DemoProps.
Context (predict : string -> outcome string).

Local Abbreviation body :=
  (fun i : string =>
     if negb (String.length i =? 0)%nat then
       print i ;; text ← lift (predict i); print text
     else mret tt).

Lemma length_zero_empty (i : string) :
  (String.length i =? 0)%nat = true <-> i = EmptyString.
Proof. destruct i; simpl; split; congruence. Qed.

Lemma for_each_ok (ls : list string) :
  Forall (line_ok predict) ls ->
  for_each ls body = (lines_output predict ls, Returns tt).
Proof.
  induction 1 as [| i ls Hi _ IH]; [reflexivity |].
  cbn [for_each lines_output flat_map]. rewrite IH.
  destruct Hi as [-> | [text Htext]]; [reflexivity |].
  destruct (String.length i =? 0)%nat; [reflexivity |].
  rewrite Htext. reflexivity.
Qed.

Lemma for_each_fail (pre post : list string) (i e : string) :
  Forall (line_ok predict) pre ->
  i <> EmptyString ->
  predict i = Raises e ->
  for_each (pre ++ i :: post) body = (lines_output predict pre ++ [i], Raises e).
Proof.
  intros Hpre Hi He.
  induction Hpre as [| j pre Hj _ IH].
  - cbn [app for_each lines_output flat_map].
    destruct (String.length i =? 0)%nat eqn:Hlen.
    + apply length_zero_empty in Hlen. contradiction.
    + cbn. rewrite He. reflexivity.
  - cbn [app for_each lines_output flat_map]. rewrite IH.
    destruct Hj as [-> | [text Htext]]; [reflexivity |].
    destruct (String.length j =? 0)%nat; [reflexivity |].
    rewrite Htext. reflexivity.
Qed.

(** C3 (amended). [demo] never lets an error escape: a failure while
    reading the file or while predicting a line is caught and logged as
    "demo error" followed by the error, and [demo] returns.  The lines
    before the failing one have been printed with their predictions and the
    failing line itself has been printed; the lines after it are not
    processed.  Without a failure every non-empty line is printed with its
    prediction. *)
Theorem demo_failure_is_logged (file : outcome string) :
  (demo_with predict file).2 = Returns tt /\
  (forall e : string,
      file = Raises e ->
      demo_with predict file = (["demo error"; e]%string, Returns tt)) /\
  (forall (d : string) (pre post : list string) (i e : string),
      file = Returns d ->
      split newline d = pre ++ i :: post ->
      Forall (line_ok predict) pre ->
      i <> EmptyString ->
      predict i = Raises e ->
      demo_with predict file
      = (lines_output predict pre ++ [i; "demo error"; e]%string, Returns tt)) /\
  (forall d : string,
      file = Returns d ->
      Forall (line_ok predict) (split newline d) ->
      demo_with predict file
      = (lines_output predict (split newline d), Returns tt)).
Proof.
  repeat split.
  - unfold demo_with, try_except.
    destruct (d ← lift file; for_each (split newline d) body) as [out [[] | e]];
      reflexivity.
  - intros e ->. reflexivity.
  - intros d pre post i e -> Hsplit Hpre Hi He.
    unfold demo_with. rewrite io_bind_lift_returns, Hsplit.
    rewrite (for_each_fail pre post i e Hpre Hi He). cbn.
    now rewrite <- app_assoc.
  - intros d -> Hok.
    unfold demo_with. rewrite io_bind_lift_returns.
    now rewrite (for_each_ok _ Hok).
Qed.
End DemoProps.

Lemma toy_line_ok_b : Forall (line_ok toy_predict) ["b"%string].
Proof.
  constructor; [| constructor]. right. exists "b"%string. reflexivity.
Qed.

Lemma demo_failure_is_logged_witness :
  demo_with toy_predict (Returns toy_demo_file)
  = (["b"; "b"; "a"; "demo error"; "boom"]%string, Returns tt).
Proof.
  refine (proj1 (proj2 (proj2
            (demo_failure_is_logged toy_predict (Returns toy_demo_file))))
            toy_demo_file ["b"%string] ["c"%string] "a"%string "boom"%string
            eq_refl eq_refl toy_line_ok_b _ eq_refl).
  discriminate.
Defined.

(** C3 as stated fails: the line "c" follows the failing line "a", its
    prediction would succeed, and it is never printed. *)
Lemma demo_stops_at_first_failure :
  split newline toy_demo_file = ["b"; "a"; "c"]%string /\
  toy_predict "a" = Raises "boom" /\
  toy_predict "c" = Returns "c"%string /\
  demo_with toy_predict (Returns toy_demo_file)
  = (["b"; "b"; "a"; "demo error"; "boom"]%string, Returns tt) /\
  ~ In "c"%string (demo_with toy_predict (Returns toy_demo_file)).1.
Proof.
  repeat split. simpl. intuition discriminate.
Qed.

(** ** Sums *)

Lemma reduce_sum1_app (l k : list R) :
  reduce_sum1 (l ++ k) = (reduce_sum1 l + reduce_sum1 k)%R.
Proof.
  unfold reduce_sum1. induction l as [| x l IH]; simpl; [lra | rewrite IH; lra].
Qed.

Lemma reduce_sum_cons (row : list R) (t : list (list R)) :
  reduce_sum (row :: t) = (reduce_sum1 row + reduce_sum t)%R.
Proof. unfold reduce_sum. simpl. apply reduce_sum1_app. Qed.

Lemma masked_row_alt (row : list Z) (p : list (list R)) :
  zip_with Rmult (zip_with sparse_categorical_crossentropy row p)
           (map not_equal0 row)
  = zip_with masked_entry row p.
Proof.
  revert p. induction row as [| t row IH]; intros [| lg p]; simpl;
    try reflexivity.
  now rewrite IH.
Qed.

Lemma masked_loss_alt (real : tensor2) (pred : logits3) :
  masked_loss real pred = zip_with (zip_with masked_entry) real pred.
Proof.
  unfold masked_loss, loss_object, loss_mask.
  revert pred. induction real as [| row real IH]; intros [| p pred]; simpl;
    try reflexivity.
  now rewrite IH, masked_row_alt.
Qed.

(** ** The masked loss *)

Lemma mask_row_sum (l : list Z) :
  reduce_sum1 (map not_equal0 l)
  = INR (length (List.filter (fun t => negb (t =? 0)) l)).
Proof.
  unfold reduce_sum1. induction l as [| t l IH]; [reflexivity |].
  simpl. rewrite IH. unfold not_equal0.
  destruct (t =? 0); simpl negb; cbv iota.
  - lra.
  - cbn [length]. rewrite S_INR. lra.
Qed.

Lemma mask_sum_count (real : tensor2) :
  reduce_sum (loss_mask real) = INR (nonpad_count real).
Proof.
  unfold reduce_sum, loss_mask, nonpad_count.
  rewrite <- concat_map. apply mask_row_sum.
Qed.

Lemma has_nonpad_count (real : tensor2) :
  has_nonpad real <-> (0 < nonpad_count real)%nat.
Proof.
  unfold has_nonpad, nonpad_count. split.
  - intros H. apply List.Exists_exists in H as (row & Hrow & H).
    apply List.Exists_exists in H as (t & Ht & Hne).
    assert (Hin : In t (List.filter (fun t => negb (t =? 0)) (concat real))).
    { apply filter_In. split.
      - apply in_concat. exists row. split; [exact Hrow | exact Ht].
      - now apply negb_true_iff, Z.eqb_neq. }
    destruct (List.filter _ (concat real)); [destruct Hin | simpl; lia].
  - intros H.
    destruct (List.filter (fun t => negb (t =? 0)) (concat real))
      as [| t l] eqn:E; [simpl in H; lia |].
    assert (Hin : In t (List.filter (fun t => negb (t =? 0)) (concat real)))
      by (rewrite E; now left).
    apply filter_In in Hin as [Hin Hne].
    apply in_concat in Hin as (row & Hrow & Ht).
    apply List.Exists_exists. exists row. split; [exact Hrow |].
    apply List.Exists_exists. exists t. split; [exact Ht |].
    now apply Z.eqb_neq, negb_true_iff.
Qed.

Lemma all_pad_count (real : tensor2) :
  all_pad real <-> nonpad_count real = 0%nat.
Proof.
  split.
  - intros Hall.
    destruct (Nat.eq_dec (nonpad_count real) 0%nat) as [E | E]; [exact E |].
    assert (Hex : has_nonpad real) by (apply has_nonpad_count; lia).
    apply List.Exists_exists in Hex as (row & Hrow & H).
    apply List.Exists_exists in H as (t & Ht & Hne).
    unfold all_pad in Hall. rewrite List.Forall_forall in Hall.
    specialize (Hall row Hrow). rewrite List.Forall_forall in Hall.
    now specialize (Hall t Ht).
  - intros Hzero. unfold all_pad.
    apply List.Forall_forall. intros row Hrow.
    apply List.Forall_forall. intros t Ht.
    destruct (Z.eq_dec t 0) as [E | E]; [exact E |].
    assert (Hex : has_nonpad real).
    { apply List.Exists_exists. exists row. split; [exact Hrow |].
      apply List.Exists_exists. exists t. split; [exact Ht | exact E]. }
    apply has_nonpad_count in Hex. lia.
Qed.

Lemma masked_sum_all_pad (real : tensor2) (pred : logits3) :
  all_pad real -> reduce_sum (masked_loss real pred) = 0%R.
Proof.
  rewrite masked_loss_alt. intros Hall. revert pred.
  induction Hall as [| row real Hrow _ IH]; intros [| p pred];
    try reflexivity.
  simpl. rewrite reduce_sum_cons, IH.
  assert (Hzero : reduce_sum1 (zip_with masked_entry row p) = 0%R).
  { clear IH. revert p.
    induction Hrow as [| t row Ht _ IHrow]; intros [| lg p]; try reflexivity.
    simpl. unfold reduce_sum1 in *. simpl. rewrite IHrow, Ht.
    unfold masked_entry, not_equal0. simpl. lra. }
  rewrite Hzero. lra.
Qed.

Lemma loss_function_finite (real : tensor2) (pred : logits3) :
  has_nonpad real ->
  INR (nonpad_count real) <> 0%R /\
  loss_function real pred
  = Finite (reduce_sum (masked_loss real pred) / INR (nonpad_count real)).
Proof.
  intros Hex. apply has_nonpad_count in Hex.
  assert (Hne : INR (nonpad_count real) <> 0%R) by (apply not_0_INR; lia).
  split; [exact Hne |].
  unfold loss_function, tf_truediv. rewrite mask_sum_count.
  destruct (Req_dec_T (INR (nonpad_count real)) 0); [contradiction | reflexivity].
Qed.

Lemma loss_function_nan (real : tensor2) (pred : logits3) :
  all_pad real ->
  reduce_sum (loss_mask real) = 0%R /\
  reduce_sum (masked_loss real pred) = 0%R /\
  loss_function real pred = NaN.
Proof.
  intros Hall.
  pose proof (masked_sum_all_pad real pred Hall) as Hnum.
  apply all_pad_count in Hall.
  assert (Hden : reduce_sum (loss_mask real) = 0%R)
    by (rewrite mask_sum_count, Hall; reflexivity).
  repeat split; [exact Hden | exact Hnum |].
  unfold loss_function, tf_truediv. rewrite Hden, Hnum.
  destruct (Req_dec_T 0 0); [reflexivity | contradiction].
Qed.

(** C9. [loss_function] divides the summed masked loss by the number of
    non-pad target positions and does not guard that number.  For a target
    batch with at least one non-pad label the divisor is not zero and the
    result is the finite quotient; for a target batch of pad labels only the
    divisor and the dividend are both 0 and the result is NaN, not a finite
    number. *)
Theorem loss_function_unguarded_division (real : tensor2) (pred : logits3) :
  reduce_sum (loss_mask real) = INR (nonpad_count real) /\
  loss_function real pred
  = tf_truediv (reduce_sum (masked_loss real pred)) (INR (nonpad_count real)) /\
  (has_nonpad real ->
     INR (nonpad_count real) <> 0%R /\
     loss_function real pred
     = Finite (reduce_sum (masked_loss real pred) / INR (nonpad_count real))) /\
  (all_pad real ->
     reduce_sum (loss_mask real) = 0%R /\
     reduce_sum (masked_loss real pred) = 0%R /\
     loss_function real pred = NaN).
Proof.
  split; [apply mask_sum_count |].
  split; [unfold loss_function; now rewrite mask_sum_count |].
  split; [apply loss_function_finite | apply loss_function_nan].
Qed.

Lemma loss_function_unguarded_division_witness :
  (INR (nonpad_count [[1; 0]]) <> 0%R /\
   loss_function [[1; 0]] [[[0; 0]; [1; 0]]]%R
   = Finite (reduce_sum (masked_loss [[1; 0]] [[[0; 0]; [1; 0]]]%R)
             / INR (nonpad_count [[1; 0]]))) /\
  (reduce_sum (loss_mask [[0; 0]]) = 0%R /\
   reduce_sum (masked_loss [[0; 0]] [[[0; 0]; [1; 0]]]%R) = 0%R /\
   loss_function [[0; 0]] [[[0; 0]; [1; 0]]]%R = NaN).
Proof.
  split.
  - apply (proj1 (proj2 (proj2
             (loss_function_unguarded_division [[1; 0]] [[[0; 0]; [1; 0]]]%R)))).
    unfold has_nonpad. apply Exists_cons_hd, Exists_cons_hd. discriminate.
  - apply (proj2 (proj2 (proj2
             (loss_function_unguarded_division [[0; 0]] [[[0; 0]; [1; 0]]]%R)))).
    unfold all_pad. repeat constructor.
Defined.

(** *** Changing one position of a batch *)

Section PointUpdate.
Context {A B : Type} (F : A -> B -> R).

Lemma row_sum_set_left (la : list A) (lb : list B) (j : nat) (x x' : A) (y : B) :
  la !! j = Some x -> lb !! j = Some y ->
  reduce_sum1 (zip_with F (<[j := x']> la) lb)
  = (reduce_sum1 (zip_with F la lb) - F x y + F x' y)%R.
Proof.
  unfold reduce_sum1. revert lb j.
  induction la as [| a la IH]; intros [| b0 lb] [| j]; simpl;
    try discriminate.
  - intros [= ->] [= ->]. lra.
  - intros Ha Hb. rewrite (IH lb j Ha Hb). lra.
Qed.

Lemma row_sum_set_right (la : list A) (lb : list B) (j : nat) (x : A) (y y' : B) :
  la !! j = Some x -> lb !! j = Some y ->
  reduce_sum1 (zip_with F la (<[j := y']> lb))
  = (reduce_sum1 (zip_with F la lb) - F x y + F x y')%R.
Proof.
  unfold reduce_sum1. revert lb j.
  induction la as [| a la IH]; intros [| b0 lb] [| j]; simpl;
    try discriminate.
  - intros [= ->] [= ->]. lra.
  - intros Ha Hb. rewrite (IH lb j Ha Hb). lra.
Qed.

Lemma batch_sum_set_left (ta : list (list A)) (tb : list (list B))
    (b j : nat) (x x' : A) (y : B) :
  (row ← ta !! b; row !! j) = Some x ->
  (row ← tb !! b; row !! j) = Some y ->
  reduce_sum (zip_with (zip_with F) (alter (fun row => <[j := x']> row) b ta) tb)
  = (reduce_sum (zip_with (zip_with F) ta tb) - F x y + F x' y)%R.
Proof.
  revert tb b.
  induction ta as [| ra ta IH]; intros [| rb tb] [| b]; simpl;
    try discriminate.
  - intros Ha Hb. rewrite !reduce_sum_cons.
    rewrite (row_sum_set_left ra rb j x x' y Ha Hb). lra.
  - intros Ha Hb. rewrite !reduce_sum_cons.
    change (list_alter (fun row => <[j := x']> row) b ta)
      with (alter (fun row => <[j := x']> row) b ta).
    rewrite (IH tb b Ha Hb). lra.
Qed.

Lemma batch_sum_set_right (ta : list (list A)) (tb : list (list B))
    (b j : nat) (x : A) (y y' : B) :
  (row ← ta !! b; row !! j) = Some x ->
  (row ← tb !! b; row !! j) = Some y ->
  reduce_sum (zip_with (zip_with F) ta (alter (fun row => <[j := y']> row) b tb))
  = (reduce_sum (zip_with (zip_with F) ta tb) - F x y + F x y')%R.
Proof.
  revert tb b.
  induction ta as [| ra ta IH]; intros [| rb tb] [| b]; simpl;
    try discriminate.
  - intros Ha Hb. rewrite !reduce_sum_cons.
    rewrite (row_sum_set_right ra rb j x y y' Ha Hb). lra.
  - intros Ha Hb. rewrite !reduce_sum_cons.
    change (list_alter (fun row => <[j := y']> row) b tb)
      with (alter (fun row => <[j := y']> row) b tb).
    rewrite (IH tb b Ha Hb). lra.
Qed.
End PointUpdate.

Lemma set_outside {A} (t : list (list A)) (b j : nat) (x : A) :
  (row ← t !! b; row !! j) = None ->
  alter (fun row => <[j := x]> row) b t = t.
Proof.
  intros Hnone. apply list_eq. intros i. rewrite list_lookup_alter.
  destruct (decide (b = i)) as [<- | Hne]; [| reflexivity].
  destruct (t !! b) as [row |]; simpl in *; [| reflexivity].
  f_equal. apply list_insert_ge. now apply lookup_ge_None.
Qed.

Lemma mask_sum_set_label (real : tensor2) (b j : nat) (t v : Z) :
  at2 real b j = Some t ->
  reduce_sum (loss_mask (set_label real b j v))
  = (reduce_sum (loss_mask real) - not_equal0 t + not_equal0 v)%R.
Proof.
  unfold at2, set_label, loss_mask. revert b.
  induction real as [| row real IH]; intros [| b]; simpl; try discriminate.
  - intros Hrow. rewrite !reduce_sum_cons.
    assert (Hsum : reduce_sum1 (map not_equal0 (<[j := v]> row))
                   = (reduce_sum1 (map not_equal0 row)
                      - not_equal0 t + not_equal0 v)%R).
    { clear IH. unfold reduce_sum1. revert j Hrow.
      induction row as [| a row IHrow]; intros [| j]; simpl; try discriminate.
      - intros [= ->]. lra.
      - intros Hj. simpl in IHrow. rewrite (IHrow j Hj). lra. }
    rewrite Hsum. lra.
  - intros Hrow. rewrite !reduce_sum_cons.
    change (list_alter (fun row => <[j := v]> row) b real)
      with (alter (fun row => <[j := v]> row) b real).
    rewrite (IH b Hrow). lra.
Qed.

Lemma masked_entry_pad (logits : list R) : masked_entry 0 logits = 0%R.
Proof. unfold masked_entry, not_equal0. simpl. lra. Qed.

Lemma set_label_same (real : tensor2) (b j : nat) (t : Z) :
  at2 real b j = Some t -> set_label real b j t = real.
Proof.
  unfold at2, set_label. intros Hat. apply list_eq. intros i.
  rewrite list_lookup_alter.
  destruct (decide (b = i)) as [<- | Hne]; [| reflexivity].
  destruct (real !! b) as [row |]; simpl in *; [| reflexivity].
  f_equal. now apply list_insert_id.
Qed.

Lemma loss_function_set_logits (real : tensor2) (pred : logits3) (b j : nat)
    (logits : list R) :
  at2 real b j = Some 0 ->
  loss_function real (set_logits pred b j logits) = loss_function real pred.
Proof.
  intros Hpad. unfold set_logits.
  destruct (at3 pred b j) as [old |] eqn:Hold.
  - unfold loss_function. rewrite !masked_loss_alt.
    rewrite (batch_sum_set_right masked_entry real pred b j 0 old logits Hpad Hold).
    rewrite !masked_entry_pad. f_equal. lra.
  - now rewrite (set_outside pred b j logits Hold).
Qed.

(** *** Lists of outcomes *)

Lemma all_returned_fmap {A} (L : list A) : all_returned (map Returns L) = Returns L.
Proof. induction L as [| a L IH]; simpl; [reflexivity | now rewrite IH]. Qed.

Lemma all_returned_inv {A} (l : list (outcome A)) (L : list A) :
  all_returned l = Returns L -> l = map Returns L.
Proof.
  revert L. induction l as [| o l IH]; intros L; simpl.
  - intros [= <-]. reflexivity.
  - destruct o as [a | e]; simpl; [| discriminate].
    destruct (all_returned l) as [r | e] eqn:E; simpl; [| discriminate].
    intros [= <-]. simpl. f_equal. now apply IH.
Qed.

Lemma all_returned_raises {A} (l : list (outcome A)) (e : string) :
  In (Raises e) l -> exists e', all_returned l = Raises e'.
Proof.
  induction l as [| o l IH]; simpl; [intros [] |].
  intros [-> | Hin]; [now exists e |].
  destruct o as [a | e0]; simpl; [| now exists e0].
  destruct (IH Hin) as [e' ->]. now exists e'.
Qed.

Lemma all_returned2_inv {A} (t : list (list (outcome A))) (M : list (list A)) :
  all_returned (map all_returned t) = Returns M -> t = map (map Returns) M.
Proof.
  intros H. apply all_returned_inv in H. revert M H.
  induction t as [| row t IH]; intros [| m M]; simpl; try discriminate;
    [reflexivity |].
  intros [= Hrow Ht]. f_equal; [now apply all_returned_inv | now apply IH].
Qed.

Lemma all_returned2_fmap {A} (M : list (list A)) :
  all_returned (map all_returned (map (map Returns) M)) = Returns M.
Proof.
  induction M as [| m M IH]; simpl; [reflexivity |].
  rewrite all_returned_fmap. simpl. now rewrite IH.
Qed.

(** *** Sums of floats *)

Lemma tf_add_comm (a b : tfloat) : tf_add a b = tf_add b a.
Proof. destruct a, b; simpl; try reflexivity. f_equal. lra. Qed.

Lemma tf_add_assoc (a b c : tfloat) :
  tf_add a (tf_add b c) = tf_add (tf_add a b) c.
Proof. destruct a, b, c; simpl; try reflexivity. f_equal. lra. Qed.

Lemma tf_add_0_l (a : tfloat) : tf_add (Finite 0) a = a.
Proof. destruct a; simpl; try reflexivity. f_equal. lra. Qed.

Lemma row_sum_fl_insert (row : list tfloat) (j : nat) (y : tfloat) :
  row !! j = Some (Finite 0) ->
  foldr tf_add (Finite 0) (<[j := y]> row)
  = tf_add (foldr tf_add (Finite 0) row) y.
Proof.
  revert j. induction row as [| a row IH]; intros [| j]; simpl; try discriminate.
  - intros [= ->]. rewrite tf_add_0_l. apply tf_add_comm.
  - intros Hj. rewrite (IH j Hj). apply tf_add_assoc.
Qed.

Lemma reduce_sum_fl_cons (row : list tfloat) (t : list (list tfloat)) :
  reduce_sum_fl (row :: t)
  = tf_add (foldr tf_add (Finite 0) row) (reduce_sum_fl t).
Proof.
  unfold reduce_sum_fl. cbn [concat].
  induction row as [| a row IH]; cbn [app foldr];
    [now rewrite tf_add_0_l |].
  rewrite IH. apply tf_add_assoc.
Qed.

Lemma reduce_sum_fl_set (M : list (list tfloat)) (b j : nat) (y : tfloat) :
  (row ← M !! b; row !! j) = Some (Finite 0) ->
  reduce_sum_fl (alter (fun row => <[j := y]> row) b M)
  = tf_add (reduce_sum_fl M) y.
Proof.
  revert b. induction M as [| row M IH]; intros [| b]; simpl; try discriminate.
  - intros Hrow. rewrite !reduce_sum_fl_cons, (row_sum_fl_insert row j y Hrow).
    rewrite <- !tf_add_assoc. f_equal. apply tf_add_comm.
  - intros Hrow. rewrite !reduce_sum_fl_cons.
    change (list_alter (fun row => <[j := y]> row) b M)
      with (alter (fun row => <[j := y]> row) b M).
    rewrite (IH b Hrow). apply tf_add_assoc.
Qed.

Lemma foldr_tf_add_in_nan (l : list tfloat) :
  In NaN l -> foldr tf_add (Finite 0) l = NaN.
Proof.
  induction l as [| a l IH]; simpl; [intros [] |].
  intros [-> | Hin]; [reflexivity |].
  rewrite (IH Hin). now destruct a.
Qed.

Lemma reduce_sum_fl_nan (M : list (list tfloat)) (b j : nat) :
  (row ← M !! b; row !! j) = Some NaN -> reduce_sum_fl M = NaN.
Proof.
  intros H. apply foldr_tf_add_in_nan. apply in_concat.
  destruct (M !! b) as [row |] eqn:Hb; simpl in H; [| discriminate].
  exists row. split.
  - apply list_elem_of_In. eapply list_elem_of_lookup_2. exact Hb.
  - apply list_elem_of_In. eapply list_elem_of_lookup_2. exact H.
Qed.

(** *** Changing one position of a zipped batch *)

Section PointUpdateZip.
Context {A B C : Type} (F : A -> B -> C).

Lemma lookup2_zip_with (ta : list (list A)) (tb : list (list B)) (b j : nat)
    (x : A) (y : B) :
  (row ← ta !! b; row !! j) = Some x ->
  (row ← tb !! b; row !! j) = Some y ->
  (row ← zip_with (zip_with F) ta tb !! b; row !! j) = Some (F x y).
Proof.
  intros Ha Hb. rewrite lookup_zip_with.
  destruct (ta !! b) as [ra |]; simpl in *; [| discriminate].
  destruct (tb !! b) as [rb |]; simpl in *; [| discriminate].
  rewrite lookup_zip_with, Ha. simpl. now rewrite Hb.
Qed.

Lemma zip_with_insert_r_same (la : list A) (lb : list B) (j : nat)
    (x : A) (y y' : B) :
  la !! j = Some x -> lb !! j = Some y -> F x y' = F x y ->
  zip_with F la (<[j := y']> lb) = zip_with F la lb.
Proof.
  revert lb j. induction la as [| a la IH]; intros [| b0 lb] [| j]; simpl;
    try discriminate.
  - intros [= ->] [= ->] ->. reflexivity.
  - intros Ha Hb HF. now rewrite (IH lb j Ha Hb HF).
Qed.

Lemma zip2_alter_r_same (ta : list (list A)) (tb : list (list B)) (b j : nat)
    (x : A) (y y' : B) :
  (row ← ta !! b; row !! j) = Some x ->
  (row ← tb !! b; row !! j) = Some y ->
  F x y' = F x y ->
  zip_with (zip_with F) ta (alter (fun row => <[j := y']> row) b tb)
  = zip_with (zip_with F) ta tb.
Proof.
  revert tb b. induction ta as [| ra ta IH]; intros [| rb tb] [| b]; simpl;
    try discriminate.
  - intros Ha Hb HF. now rewrite (zip_with_insert_r_same ra rb j x y y' Ha Hb HF).
  - intros Ha Hb HF.
    change (list_alter (fun row => <[j := y']> row) b tb)
      with (alter (fun row => <[j := y']> row) b tb).
    now rewrite (IH tb b Ha Hb HF).
Qed.

Lemma zip_with_insert_l (la : list A) (lb : list B) (j : nat)
    (x x' : A) (y : B) :
  la !! j = Some x -> lb !! j = Some y ->
  zip_with F (<[j := x']> la) lb = <[j := F x' y]> (zip_with F la lb).
Proof.
  revert lb j. induction la as [| a la IH]; intros [| b0 lb] [| j]; simpl;
    try discriminate.
  - intros _ [= ->]. reflexivity.
  - intros Ha Hb. now rewrite (IH lb j Ha Hb).
Qed.

Lemma zip2_alter_l (ta : list (list A)) (tb : list (list B)) (b j : nat)
    (x x' : A) (y : B) :
  (row ← ta !! b; row !! j) = Some x ->
  (row ← tb !! b; row !! j) = Some y ->
  zip_with (zip_with F) (alter (fun row => <[j := x']> row) b ta) tb
  = alter (fun row => <[j := F x' y]> row) b (zip_with (zip_with F) ta tb).
Proof.
  revert tb b. induction ta as [| ra ta IH]; intros [| rb tb] [| b]; simpl;
    try discriminate.
  - intros Ha Hb. now rewrite (zip_with_insert_l ra rb j x x' y Ha Hb).
  - intros Ha Hb.
    change (list_alter (fun row => <[j := x']> row) b ta)
      with (alter (fun row => <[j := x']> row) b ta).
    now rewrite (IH tb b Ha Hb).
Qed.
End PointUpdateZip.

Lemma fmap2_alter_insert {A B} (f : A -> B) (M : list (list A)) (b j : nat) (y : A) :
  alter (fun row => <[j := f y]> row) b (map (map f) M)
  = map (map f) (alter (fun row => <[j := y]> row) b M).
Proof.
  revert b. induction M as [| row M IH]; intros [| b]; simpl; try reflexivity.
  - f_equal. symmetry. apply list_fmap_insert.
  - f_equal. apply IH.
Qed.

Lemma lookup2_fmap {A B} (f : A -> B) (M : list (list A)) (b j : nat) :
  (row ← map (map f) M !! b; row !! j) = f <$> (row ← M !! b; row !! j).
Proof.
  change (map (map f) M) with (map f <$> M). rewrite list_lookup_fmap.
  destruct (M !! b) as [row |]; simpl; [| reflexivity].
  change (map f row) with (f <$> row). apply list_lookup_fmap.
Qed.

(** *** The masked loss over a float kernel *)

Section KernelProps.
Context (kernel : Z -> list R -> outcome tfloat).

Local Abbreviation entry := (masked_entry_checked kernel).

Lemma masked_row_checked (row : list Z) (p : list (list R)) :
  (L ← all_returned (zip_with kernel row p);
   mret (zip_with tf_mul L (map not_equal0 row)))
  = all_returned (zip_with entry row p).
Proof.
  revert p. induction row as [| t row IH]; intros [| lg p]; simpl;
    try reflexivity.
  rewrite <- IH. unfold masked_entry_checked.
  destruct (kernel t lg) as [a | e]; simpl; [| reflexivity].
  now destruct (all_returned (zip_with kernel row p)).
Qed.

Lemma masked_loss_checked_alt (real : tensor2) (pred : logits3) :
  masked_loss_checked kernel real pred
  = all_returned (map all_returned (zip_with (zip_with entry) real pred)).
Proof.
  unfold masked_loss_checked, loss_object_checked, loss_mask.
  revert pred. induction real as [| row real IH]; intros [| p pred]; simpl;
    try reflexivity.
  rewrite <- IH, <- masked_row_checked.
  destruct (all_returned (zip_with kernel row p)) as [a | e]; simpl;
    [| reflexivity].
  now destruct (all_returned (map all_returned
                                  (zip_with (zip_with kernel) real pred))).
Qed.

Lemma entry_pad_finite (logits : list R) (a : R) :
  kernel 0 logits = Returns (Finite a) -> entry 0 logits = Returns (Finite 0).
Proof.
  intros H. unfold masked_entry_checked. rewrite H. simpl.
  do 2 f_equal. change (not_equal0 0) with 0%R. lra.
Qed.

Lemma entry_nonpad_finite (v : Z) (logits : list R) (c : R) :
  v <> 0 -> kernel v logits = Returns (Finite c) ->
  entry v logits = Returns (Finite c).
Proof.
  intros Hv H. unfold masked_entry_checked. rewrite H. simpl.
  do 2 f_equal. unfold not_equal0.
  destruct (Z.eqb_spec v 0); [contradiction | lra].
Qed.

Lemma entry_pad_not_finite (logits : list R) (x : tfloat) :
  kernel 0 logits = Returns x -> (forall a, x <> Finite a) ->
  entry 0 logits = Returns NaN.
Proof.
  intros H Hx. unfold masked_entry_checked. rewrite H. simpl. f_equal.
  change (not_equal0 0) with 0%R. unfold tf_mul.
  destruct x as [a | | |]; [now destruct (Hx a) | | | reflexivity];
    now destruct (Req_dec_T 0 0).
Qed.
End KernelProps.

Lemma all_returned2_raises {A} (t : list (list (outcome A))) (b j : nat)
    (e : string) :
  (row ← t !! b; row !! j) = Some (Raises e) ->
  exists e', all_returned (map all_returned t) = Raises e'.
Proof.
  intros H. destruct (t !! b) as [row |] eqn:Hb; simpl in H; [| discriminate].
  destruct (all_returned_raises row e) as [e1 He1].
  { apply list_elem_of_In. eapply list_elem_of_lookup_2. exact H. }
  apply (all_returned_raises _ e1). apply in_map_iff. exists row.
  split; [exact He1 |].
  apply list_elem_of_In. eapply list_elem_of_lookup_2. exact Hb.
Qed.

Lemma lookup2_alter_insert {A} (t : list (list A)) (b j : nat) (w z : A) :
  (row ← t !! b; row !! j) = Some w ->
  (row ← alter (fun row => <[j := z]> row) b t !! b; row !! j) = Some z.
Proof.
  intros H. rewrite list_lookup_alter.
  destruct (decide (b = b)) as [_ | Hne]; [| congruence].
  destruct (t !! b) as [row |]; simpl in *; [| discriminate].
  apply list_lookup_insert_eq. eapply lookup_lt_Some. exact H.
Qed.

Section PadPosition.
Context (kernel : Z -> list R -> outcome tfloat).

Local Abbreviation entry := (masked_entry_checked kernel).

Lemma masked_loss_checked_entries (real : tensor2) (pred : logits3)
    (M : list (list tfloat)) :
  masked_loss_checked kernel real pred = Returns M ->
  zip_with (zip_with entry) real pred = map (map Returns) M.
Proof.
  rewrite masked_loss_checked_alt. apply all_returned2_inv.
Qed.

Lemma masked_loss_checked_at (real : tensor2) (pred : logits3)
    (M : list (list tfloat)) (b j : nat) (t : Z) (logits : list R) (x : tfloat) :
  masked_loss_checked kernel real pred = Returns M ->
  at2 real b j = Some t -> at3 pred b j = Some logits ->
  entry t logits = Returns x ->
  (row ← M !! b; row !! j) = Some x.
Proof.
  intros HM Ht Hl Hx. apply masked_loss_checked_entries in HM.
  pose proof (lookup2_zip_with entry real pred b j t logits Ht Hl) as H.
  rewrite HM, lookup2_fmap, Hx in H.
  destruct (row ← M !! b; row !! j) as [y |]; simpl in H; [| discriminate].
  now injection H as ->.
Qed.

(** C2 (amended). At a position where the target holds the pad id 0, the
    masked loss does not depend on the prediction as long as the
    cross-entropy there is finite: replacing the logits by others with a
    finite cross-entropy leaves [loss_function] unchanged.  The mask is
    applied by multiplication, so a cross-entropy that is inf or NaN at a pad
    position is not masked out: it makes the loss NaN.  The label itself
    decides whether the position is masked: writing 0 changes nothing;
    writing an id [v] other than 0 with a finite cross-entropy [c] adds 1 to
    the divisor and [c] to the dividend; writing an id that the kernel
    rejects makes [loss_function] raise. *)
Theorem loss_function_pad_position (real : tensor2) (pred : logits3)
    (b j : nat) (old : list R) :
  at2 real b j = Some 0 ->
  at3 pred b j = Some old ->
  (forall (logits : list R) (a a' : R),
      kernel 0 old = Returns (Finite a) ->
      kernel 0 logits = Returns (Finite a') ->
      loss_function_checked kernel real (set_logits pred b j logits)
      = loss_function_checked kernel real pred) /\
  (forall (x : tfloat) (M : list (list tfloat)),
      kernel 0 old = Returns x -> (forall a : R, x <> Finite a) ->
      masked_loss_checked kernel real pred = Returns M ->
      loss_function_checked kernel real pred = Returns NaN) /\
  loss_function_checked kernel (set_label real b j 0) pred
  = loss_function_checked kernel real pred /\
  (forall (v : Z) (a c : R) (M : list (list tfloat)),
      v <> 0 ->
      kernel 0 old = Returns (Finite a) ->
      kernel v old = Returns (Finite c) ->
      masked_loss_checked kernel real pred = Returns M ->
      reduce_sum (loss_mask (set_label real b j v))
      = (reduce_sum (loss_mask real) + 1)%R /\
      loss_function_checked kernel (set_label real b j v) pred
      = Returns (tf_div (tf_add (reduce_sum_fl M) (Finite c))
                        (reduce_sum (loss_mask real) + 1))) /\
  (forall (v : Z) (e : string),
      kernel v old = Raises e ->
      exists e' : string,
        loss_function_checked kernel (set_label real b j v) pred = Raises e').
Proof.
  intros Hpad Hold. split; [| split; [| split; [| split]]].
  - intros logits a a' Ha Ha'. unfold loss_function_checked.
    rewrite !masked_loss_checked_alt. unfold set_logits.
    rewrite (zip2_alter_r_same entry real pred b j 0 old logits Hpad Hold);
      [reflexivity |].
    now rewrite (entry_pad_finite kernel logits a' Ha'),
                (entry_pad_finite kernel old a Ha).
  - intros x M Hx Hnf HM.
    pose proof (masked_loss_checked_at real pred M b j 0 old NaN HM Hpad Hold
                  (entry_pad_not_finite kernel old x Hx Hnf)) as Hat.
    unfold loss_function_checked. rewrite HM. simpl.
    now rewrite (reduce_sum_fl_nan M b j Hat).
  - now rewrite (set_label_same real b j 0 Hpad).
  - intros v a c M Hv Ha Hc HM.
    assert (Hmask : reduce_sum (loss_mask (set_label real b j v))
                    = (reduce_sum (loss_mask real) + 1)%R).
    { rewrite (mask_sum_set_label real b j 0 v Hpad). unfold not_equal0.
      destruct (Z.eqb_spec v 0); [contradiction |]. simpl. lra. }
    split; [exact Hmask |].
    pose proof (masked_loss_checked_at real pred M b j 0 old (Finite 0) HM
                  Hpad Hold (entry_pad_finite kernel old a Ha)) as Hat.
    unfold loss_function_checked. rewrite Hmask, masked_loss_checked_alt.
    unfold set_label.
    rewrite (zip2_alter_l entry real pred b j 0 v old Hpad Hold).
    rewrite (masked_loss_checked_entries real pred M HM).
    rewrite (entry_nonpad_finite kernel v old c Hv Hc).
    rewrite fmap2_alter_insert, all_returned2_fmap. simpl.
    now rewrite (reduce_sum_fl_set M b j (Finite c) Hat).
  - intros v e He. unfold loss_function_checked.
    rewrite masked_loss_checked_alt. unfold set_label.
    rewrite (zip2_alter_l entry real pred b j 0 v old Hpad Hold).
    assert (Hentry : entry v old = Raises e)
      by (unfold masked_entry_checked; now rewrite He).
    rewrite Hentry.
    pose proof (lookup2_zip_with entry real pred b j 0 old Hpad Hold) as Hat.
    destruct (all_returned2_raises _ b j e
                (lookup2_alter_insert _ b j _ (Raises e) Hat)) as [e' ->].
    now exists e'.
Qed.
End PadPosition.

Lemma loss_function_pad_position_witness :
  loss_function_checked ideal_kernel [[1; 0]]
                        (set_logits [[[0; 0]; [1; 0]]]%R 0 1 [5; 7]%R)
  = loss_function_checked ideal_kernel [[1; 0]] [[[0; 0]; [1; 0]]]%R.
Proof.
  exact (proj1 (loss_function_pad_position ideal_kernel [[1; 0]]
                  [[[0; 0]; [1; 0]]]%R 0%nat 1%nat [1; 0]%R eq_refl eq_refl)
               [5; 7]%R _ _ eq_refl eq_refl).
Defined.

Lemma crossentropy_uniform :
  sparse_categorical_crossentropy 1 [0; 0]%R = ln 2.
Proof.
  unfold sparse_categorical_crossentropy, reduce_sum1.
  change (nth (Z.to_nat 1) [0; 0]%R 0%R) with 0%R.
  cbn [map foldr]. rewrite exp_0.
  replace (1 + (1 + 0))%R with 2%R by lra. lra.
Qed.

Lemma crossentropy_skewed :
  sparse_categorical_crossentropy 1 [1; 0]%R = ln (exp 1 + 1).
Proof.
  unfold sparse_categorical_crossentropy, reduce_sum1.
  change (nth (Z.to_nat 1) [1; 0]%R 0%R) with 0%R.
  cbn [map foldr]. rewrite exp_0.
  replace (exp 1 + (1 + 0))%R with (exp 1 + 1)%R by lra. lra.
Qed.

Lemma ln_2_lt_ln_e1 : (ln 2 < ln (exp 1 + 1))%R.
Proof.
  apply ln_increasing; [lra |].
  pose proof (exp_ineq1 1 ltac:(lra)). lra.
Qed.

(** C2 as stated fails: the label 0 at row 0, column 1 is a pad position;
    replacing it by the id 1 changes the loss from [ln 2] to
    [(ln 2 + ln (e + 1)) / 2]. *)
Lemma loss_function_depends_on_pad_label :
  at2 [[1; 0]] 0 1 = Some 0 /\
  set_label [[1; 0]] 0 1 1 = [[1; 1]] /\
  loss_function [[1; 0]] [[[0; 0]; [1; 0]]]%R = Finite (ln 2) /\
  loss_function [[1; 1]] [[[0; 0]; [1; 0]]]%R
  = Finite ((ln 2 + ln (exp 1 + 1)) / 2) /\
  loss_function [[1; 0]] [[[0; 0]; [1; 0]]]%R
  <> loss_function (set_label [[1; 0]] 0 1 1) [[[0; 0]; [1; 0]]]%R.
Proof.
  assert (H1 : has_nonpad [[1; 0]])
    by (apply Exists_cons_hd, Exists_cons_hd; discriminate).
  assert (H2 : has_nonpad [[1; 1]])
    by (apply Exists_cons_hd, Exists_cons_hd; discriminate).
  assert (E1 : loss_function [[1; 0]] [[[0; 0]; [1; 0]]]%R = Finite (ln 2)).
  { destruct (loss_function_finite [[1; 0]] [[[0; 0]; [1; 0]]]%R H1) as [_ ->].
    change (nonpad_count [[1; 0]]) with 1%nat.
    rewrite masked_loss_alt. unfold reduce_sum, reduce_sum1.
    cbn [zip_with concat app foldr INR].
    rewrite masked_entry_pad. unfold masked_entry.
    rewrite crossentropy_uniform. change (not_equal0 1) with 1%R.
    f_equal. lra. }
  assert (E2 : loss_function [[1; 1]] [[[0; 0]; [1; 0]]]%R
               = Finite ((ln 2 + ln (exp 1 + 1)) / 2)).
  { destruct (loss_function_finite [[1; 1]] [[[0; 0]; [1; 0]]]%R H2) as [_ ->].
    change (nonpad_count [[1; 1]]) with 2%nat.
    rewrite masked_loss_alt. unfold reduce_sum, reduce_sum1.
    cbn [zip_with concat app foldr INR].
    unfold masked_entry.
    rewrite crossentropy_uniform, crossentropy_skewed.
    change (not_equal0 1) with 1%R. f_equal. lra. }
  repeat split; [exact E1 | exact E2 |].
  change (set_label [[1; 0]] 0 1 1) with [[1; 1]].
  rewrite E1, E2. intros H. injection H as H.
  pose proof ln_2_lt_ln_e1. lra.
Qed.

(** ** Metric trackers *)

Lemma foldr_tf_add_finite (l : list R) :
  foldr tf_add (Finite 0) (map Finite l) = Finite (reduce_sum1 l).
Proof.
  unfold reduce_sum1. induction l as [| x l IH]; [reflexivity |].
  simpl. now rewrite IH.
Qed.

Lemma matches_compared (real : tensor2) (pred : logits3) :
  concat (sparse_categorical_accuracy real pred)
  = map (fun p => if hit p then 1%R else 0%R) (compared real pred).
Proof.
  unfold sparse_categorical_accuracy, compared.
  revert pred. induction real as [| row real IH]; intros [| p pred];
    try reflexivity.
  simpl. rewrite map_app, IH. f_equal.
  clear IH. revert p. induction row as [| t row IHrow]; intros [| lg p];
    try reflexivity.
  simpl. now rewrite IHrow.
Qed.

Lemma indicator_sum {A} (f : A -> bool) (l : list A) :
  reduce_sum1 (map (fun p => if f p then 1%R else 0%R) l)
  = INR (length (List.filter f l)).
Proof.
  unfold reduce_sum1. induction l as [| a l IH]; [reflexivity |].
  simpl. rewrite IH. destruct (f a).
  - cbn [length]. rewrite S_INR. lra.
  - lra.
Qed.

(** One update of the accuracy tracker: every compared position, pad or
    not, adds 1 to [count], and adds 1 to [total] when its label equals the
    argmax of its logits. *)
Lemma SparseCategoricalAccuracy_call_counts (real : tensor2) (pred : logits3)
    (m : Metric) :
  SparseCategoricalAccuracy_call real pred m
  = {| total := tf_add (total m) (Finite (INR (hit_count real pred)));
       count := (count m + INR (position_count real pred))%R |}.
Proof.
  unfold SparseCategoricalAccuracy_call, update_state, hit_count, position_count.
  rewrite foldr_tf_add_finite, length_map, matches_compared, indicator_sum.
  now rewrite length_map.
Qed.

(** ** Evaluation and the training step *)

Section EvaluateProps.
Context (weights : Type)
        (call : weights -> tensor2 -> tensor2 -> bool ->
                tensor4 -> tensor4 -> tensor4 -> logits3)
        (apply_gradients : weights -> tensor2 -> tensor2 -> tensor2 -> weights)
        (BATCH_SIZE : nat).

Local Abbreviation targets := (batch_targets weights call).
Local Abbreviation metrics_step := (batch_metrics weights call).
Local Abbreviation loop_body := (evaluate_batch weights call).

Lemma evaluate_batch_alter (w : weights) (l1 l2 : nat) (h : heap)
    (batch : tensor2 * tensor2) :
  loop_body w l1 l2 h batch
  = alter (SparseCategoricalAccuracy_call
             (targets w false batch.1 batch.2).1
             (targets w false batch.1 batch.2).2) l2
      (alter (Mean_call (loss_function (targets w false batch.1 batch.2).1
                                       (targets w false batch.1 batch.2).2))
             l1 h).
Proof.
  destruct batch as [inp tar]. unfold evaluate_batch, batch_targets. simpl.
  now destruct (create_masks inp (drop_last_column tar)) as [[m1 m2] m3].
Qed.

Lemma batch_metrics_pair (w : weights) (ms : Metric * Metric)
    (batch : tensor2 * tensor2) :
  metrics_step w ms batch
  = (Mean_call (loss_function (targets w false batch.1 batch.2).1
                              (targets w false batch.1 batch.2).2) ms.1,
     SparseCategoricalAccuracy_call (targets w false batch.1 batch.2).1
                                    (targets w false batch.1 batch.2).2 ms.2).
Proof.
  unfold batch_metrics. now destruct (targets w false batch.1 batch.2).
Qed.

(** The loop only touches the two local trackers. *)
Lemma evaluate_loop (w : weights) (l1 l2 : nat) (h : heap)
    (batches : list (tensor2 * tensor2)) :
  l1 <> l2 ->
  forall ms : Metric * Metric,
    foldl (loop_body w l1 l2) (<[l2 := ms.2]> (<[l1 := ms.1]> h)) batches
    = <[l2 := (foldl (metrics_step w) ms batches).2]>
        (<[l1 := (foldl (metrics_step w) ms batches).1]> h).
Proof.
  intros Hne. induction batches as [| batch batches IH]; intros ms;
    [reflexivity |].
  cbn [foldl]. rewrite evaluate_batch_alter.
  rewrite (alter_insert_ne _ l1 l2) by exact Hne.
  rewrite alter_insert_eq, alter_insert_eq.
  rewrite batch_metrics_pair.
  exact (IH (_, _)).
Qed.

(** [evaluate] as a function of the store: it allocates two objects that
    the store did not hold, and leaves in them the metrics folded over the
    batches from the reset state. *)
Lemma evaluate_run (w : weights) (inp tar : tensor2) (h : heap) :
  exists l1 l2 : nat,
    h !! l1 = None /\ h !! l2 = None /\ l1 <> l2 /\
    match split_batch inp BATCH_SIZE, split_batch tar BATCH_SIZE with
    | Some inp_batch, Some tar_batch =>
        let ms := evaluate_metrics weights call w (zip inp_batch tar_batch) in
        evaluate weights call BATCH_SIZE w inp tar h
        = (Returns (Metric_result ms.1, Metric_result ms.2),
           <[l2 := ms.2]> (<[l1 := ms.1]> h))
    | _, _ =>
        evaluate weights call BATCH_SIZE w inp tar h
        = (Raises "ValueError",
           <[l2 := Metric_new]> (<[l1 := Metric_new]> h))
    end.
Proof.
  set (l1 := fresh (dom h)).
  set (h1 := <[l1 := Metric_new]> h).
  set (l2 := fresh (dom h1)).
  assert (H1 : h !! l1 = None) by apply not_elem_of_dom, is_fresh.
  assert (H2 : h1 !! l2 = None) by apply not_elem_of_dom, is_fresh.
  assert (Hne : l1 <> l2).
  { intros E. rewrite <- E in H2. unfold h1 in H2.
    now rewrite lookup_insert_eq in H2. }
  assert (H2' : h !! l2 = None).
  { unfold h1 in H2. now rewrite lookup_insert_ne in H2. }
  exists l1, l2. repeat split; [exact H1 | exact H2' | exact Hne |].
  assert (Hreset :
    alter reset_states l2 (alter reset_states l1 (<[l2 := Metric_new]> h1))
    = <[l2 := Metric_new]> (<[l1 := Metric_new]> h)).
  { unfold h1. rewrite (alter_insert_ne _ l1 l2) by exact Hne.
    now rewrite !alter_insert_eq. }
  unfold evaluate, new_metric. fold l1. fold h1. fold l2. rewrite Hreset.
  destruct (split_batch inp BATCH_SIZE) as [inp_batch |];
    [| reflexivity].
  destruct (split_batch tar BATCH_SIZE) as [tar_batch |];
    [| reflexivity].
  cbv zeta.
  pose proof (evaluate_loop w l1 l2 h (zip inp_batch tar_batch) Hne
                (Metric_new, Metric_new)) as Hloop.
  cbn [fst snd] in Hloop. rewrite Hloop.
  fold (evaluate_metrics weights call w (zip inp_batch tar_batch)).
  rewrite lookup_total_insert_eq.
  rewrite lookup_total_insert_ne by (intros E; apply Hne; now symmetry).
  now rewrite lookup_total_insert_eq.
Qed.
Lemma tf_add_finite_assoc (t : tfloat) (a b : R) :
  tf_add (tf_add t (Finite a)) (Finite b) = tf_add t (Finite (a + b)).
Proof. destruct t; simpl; try reflexivity. f_equal. lra. Qed.

Lemma tf_add_zero (t : tfloat) : tf_add t (Finite 0) = t.
Proof. destruct t; simpl; try reflexivity. f_equal. lra. Qed.

Lemma eval_accuracy_fold (w : weights) (batches : list (tensor2 * tensor2)) :
  forall ms : Metric * Metric,
    (foldl (metrics_step w) ms batches).2
    = {| total := tf_add (total ms.2)
                    (Finite (INR (eval_hit_count weights call w batches)));
         count := (count ms.2
                   + INR (eval_position_count weights call w batches))%R |}.
Proof.
  unfold eval_hit_count, eval_position_count.
  induction batches as [| batch batches IH]; intros ms.
  - simpl. rewrite tf_add_zero, Rplus_0_r. now destruct ms.2.
  - cbn [foldl map sum_list sum_list_with]. rewrite IH, batch_metrics_pair.
    cbn [snd]. rewrite SparseCategoricalAccuracy_call_counts.
    cbn [total count]. rewrite tf_add_finite_assoc, !plus_INR.
    destruct (targets w false batch.1 batch.2) as [tar_real predictions].
    cbn [fst snd]. unfold Datatypes.id. f_equal. lra.
Qed.

Lemma train_step_accuracy (w : weights) (inp tar : tensor2) (h : heap) :
  (train_step weights call apply_gradients w inp tar h).2 !! train_accuracy
  = SparseCategoricalAccuracy_call (targets w true inp tar).1
                                   (targets w true inp tar).2
      <$> h !! train_accuracy.
Proof.
  unfold train_step, batch_targets.
  destruct (create_masks inp (drop_last_column tar)) as [[m1 m2] m3].
  cbn [fst snd]. rewrite lookup_alter_eq, lookup_alter_ne; [reflexivity |].
  discriminate.
Qed.

(** C10. [evaluate] builds its own two metric objects and resets them, so
    the pair it returns is the same whatever the store of metric objects
    holds when it is called: it is computed from the weights and the
    input/target arrays alone, by folding the batches from the reset
    state.  Every object already in the store, in particular the
    module-level [train_loss] and [train_accuracy], is left as it was. *)
Theorem evaluate_frame (w : weights) (inp tar : tensor2) :
  (forall h h' : heap,
      (evaluate weights call BATCH_SIZE w inp tar h).1
      = (evaluate weights call BATCH_SIZE w inp tar h').1) /\
  (forall (h : heap) (inp_batch tar_batch : list tensor2),
      split_batch inp BATCH_SIZE = Some inp_batch ->
      split_batch tar BATCH_SIZE = Some tar_batch ->
      (evaluate weights call BATCH_SIZE w inp tar h).1
      = Returns
          (Metric_result
             (evaluate_metrics weights call w (zip inp_batch tar_batch)).1,
           Metric_result
             (evaluate_metrics weights call w (zip inp_batch tar_batch)).2)) /\
  (forall (h : heap) (l : nat) (m : Metric),
      h !! l = Some m ->
      (evaluate weights call BATCH_SIZE w inp tar h).2 !! l = Some m) /\
  (forall (h : heap) (mL mA : Metric),
      h !! train_loss = Some mL ->
      h !! train_accuracy = Some mA ->
      (evaluate weights call BATCH_SIZE w inp tar h).2 !! train_loss = Some mL /\
      (evaluate weights call BATCH_SIZE w inp tar h).2 !! train_accuracy
      = Some mA).
Proof.
  assert (Hframe : forall (h : heap) (l : nat) (m : Metric),
             h !! l = Some m ->
             (evaluate weights call BATCH_SIZE w inp tar h).2 !! l = Some m).
  { intros h l m Hl.
    destruct (evaluate_run w inp tar h)
      as (l1 & l2 & H1 & H2 & Hne & Hrun).
    assert (l1 <> l) by congruence. assert (l2 <> l) by congruence.
    destruct (split_batch inp BATCH_SIZE), (split_batch tar BATCH_SIZE);
      rewrite Hrun; cbn [snd]; now rewrite !lookup_insert_ne. }
  repeat split.
  - intros h h'.
    destruct (evaluate_run w inp tar h)
      as (l1 & l2 & _ & _ & _ & Hrun).
    destruct (evaluate_run w inp tar h')
      as (l1' & l2' & _ & _ & _ & Hrun').
    destruct (split_batch inp BATCH_SIZE), (split_batch tar BATCH_SIZE);
      now rewrite Hrun, Hrun'.
  - intros h inp_batch tar_batch Hi Ht.
    destruct (evaluate_run w inp tar h)
      as (l1 & l2 & _ & _ & _ & Hrun).
    rewrite Hi, Ht in Hrun. now rewrite Hrun.
  - exact Hframe.
  - now apply Hframe.
  - now apply Hframe.
Qed.

(** C1 (amended). The accuracy tracker counts every target position, pad
    or not: one call adds the number of compared positions to [count] and
    the number of positions whose label equals the argmax of the logits to
    [total].  [train_step] updates [train_accuracy] in this way with the
    shifted targets and the predictions of the step, and the accuracy
    returned by [evaluate] is the number of matching positions over the
    number of compared positions, summed over the batches.  A pad position
    is in the denominator, and in the numerator when the argmax there is
    0. *)
Theorem accuracy_counts_every_position (w : weights) (inp tar : tensor2) :
  (forall (real : tensor2) (pred : logits3) (m : Metric),
      SparseCategoricalAccuracy_call real pred m
      = {| total := tf_add (total m) (Finite (INR (hit_count real pred)));
           count := (count m + INR (position_count real pred))%R |}) /\
  (forall (h : heap) (m : Metric),
      h !! train_accuracy = Some m ->
      (train_step weights call apply_gradients w inp tar h).2 !! train_accuracy
      = Some {| total := tf_add (total m)
                           (Finite (INR (hit_count (targets w true inp tar).1
                                                   (targets w true inp tar).2)));
                count := (count m
                          + INR (position_count (targets w true inp tar).1
                                                (targets w true inp tar).2))%R |}) /\
  (forall (h : heap) (inp_batch tar_batch : list tensor2),
      split_batch inp BATCH_SIZE = Some inp_batch ->
      split_batch tar BATCH_SIZE = Some tar_batch ->
      exists loss : tfloat,
        (evaluate weights call BATCH_SIZE w inp tar h).1
        = Returns
            (loss,
             div_no_nan
               (Finite (INR (eval_hit_count weights call w
                               (zip inp_batch tar_batch))))
               (INR (eval_position_count weights call w
                       (zip inp_batch tar_batch))))).
Proof.
  repeat split.
  - apply SparseCategoricalAccuracy_call_counts.
  - intros h m Hm. rewrite train_step_accuracy, Hm. simpl.
    now rewrite SparseCategoricalAccuracy_call_counts.
  - intros h inp_batch tar_batch Hi Ht.
    destruct (evaluate_run w inp tar h)
      as (l1 & l2 & _ & _ & _ & Hrun).
    rewrite Hi, Ht in Hrun. rewrite Hrun. cbn [fst].
    eexists. f_equal. f_equal.
    unfold evaluate_metrics. rewrite eval_accuracy_fold.
    unfold Metric_result. cbn [total count snd Metric_new tf_add].
    now rewrite !Rplus_0_l.
Qed.
End EvaluateProps.

(** *** Running the metrics on the small models *)

Lemma module_heap_train_loss : module_heap !! train_loss = Some Metric_new.
Proof.
  unfold module_heap. rewrite lookup_insert_ne by discriminate.
  apply lookup_insert_eq.
Qed.

Lemma module_heap_train_accuracy :
  module_heap !! train_accuracy = Some Metric_new.
Proof. unfold module_heap. apply lookup_insert_eq. Qed.

Lemma evaluate_frame_witness :
  (evaluate unit (toy_call [0; 1]%R) 1 tt [[5; 6]] [[2; 1; 0]] module_heap).2
    !! train_loss = Some Metric_new /\
  (evaluate unit (toy_call [0; 1]%R) 1 tt [[5; 6]] [[2; 1; 0]] module_heap).2
    !! train_accuracy = Some Metric_new.
Proof.
  exact (proj2 (proj2 (proj2
           (evaluate_frame unit (toy_call [0; 1]%R) 1 tt [[5; 6]] [[2; 1; 0]])))
           module_heap Metric_new Metric_new
           module_heap_train_loss module_heap_train_accuracy).
Defined.

Lemma accuracy_counts_every_position_witness :
  (train_step unit (toy_call [0; 1]%R) toy_apply_gradients tt
              [[5; 6]] [[2; 1; 0]] module_heap).2 !! train_accuracy
  = Some {| total :=
              tf_add (total Metric_new)
                (Finite (INR (hit_count
                   (batch_targets unit (toy_call [0; 1]%R) tt true
                                  [[5; 6]] [[2; 1; 0]]).1
                   (batch_targets unit (toy_call [0; 1]%R) tt true
                                  [[5; 6]] [[2; 1; 0]]).2)));
            count :=
              Rplus (count Metric_new)
                (INR (position_count
                   (batch_targets unit (toy_call [0; 1]%R) tt true
                                  [[5; 6]] [[2; 1; 0]]).1
                   (batch_targets unit (toy_call [0; 1]%R) tt true
                                  [[5; 6]] [[2; 1; 0]]).2)) |}.
Proof.
  exact (proj1 (proj2
           (accuracy_counts_every_position unit (toy_call [0; 1]%R)
              toy_apply_gradients 1 tt [[5; 6]] [[2; 1; 0]]))
           module_heap Metric_new module_heap_train_accuracy).
Defined.

Lemma toy_targets :
  batch_targets unit (toy_call [0; 1]%R) tt true [[5; 6]] [[2; 1; 0]]
  = ([[1; 0]], [[[0; 1]; [0; 1]]]%R).
Proof. reflexivity. Qed.

Lemma toy_hits :
  List.filter hit (compared [[1; 0]] [[[0; 1]; [0; 1]]]%R) = [(1, [0; 1]%R)].
Proof.
  unfold compared. cbn [zip_with zip concat app List.filter].
  unfold hit. cbn [fst snd]. rewrite argmax_word. reflexivity.
Qed.

(** C1 as stated fails: with the target row [2, 1, 0] the shifted labels are
    [1, 0]; the model predicts id 1 at both positions, so the one real token
    is right and the pad position is a miss.  The tracker reports 1/2, the
    fraction over non-pad positions is 1. *)
Lemma accuracy_counts_pad_positions :
  batch_targets unit (toy_call [0; 1]%R) tt true [[5; 6]] [[2; 1; 0]]
  = ([[1; 0]], [[[0; 1]; [0; 1]]]%R) /\
  Metric_result
    <$> (train_step unit (toy_call [0; 1]%R) toy_apply_gradients tt
                    [[5; 6]] [[2; 1; 0]] module_heap).2 !! train_accuracy
  = Some (Finite (1 / 2)) /\
  spec_masked_accuracy [[1; 0]] [[[0; 1]; [0; 1]]]%R = Finite 1 /\
  Finite (1 / 2) <> Finite 1.
Proof.
  split; [exact toy_targets |]. split; [| split].
  - rewrite train_step_accuracy, module_heap_train_accuracy, toy_targets.
    cbn [fmap option_fmap option_map fst snd].
    rewrite SparseCategoricalAccuracy_call_counts.
    unfold hit_count, position_count. rewrite toy_hits.
    unfold Metric_result, div_no_nan.
    cbn [total count Metric_new tf_add compared zip_with zip concat app length INR].
    destruct (Req_dec_T (0 + (1 + 1)) 0) as [E | _]; [exfalso; lra |].
    do 2 f_equal. lra.
  - unfold spec_masked_accuracy, compared.
    cbn [zip_with zip concat app List.filter is_nonpad hit fst snd Z.eqb negb andb].
    rewrite argmax_word.
    change (Z.of_nat 1) with 1.
    cbn [Z.eqb Pos.eqb length INR].
    unfold div_no_nan.
    destruct (Req_dec_T 1 0) as [E | _]; [exfalso; lra |].
    f_equal. lra.
  - intros H. injection H as H. lra.
Qed.

(* ================================================================= *)
(** * Part III: further properties of the code *)
(* ================================================================= *)

(** ** The decoder self-attention mask *)

Lemma look_ahead_mask_entry (n i j : nat) :
  (i < n)%nat -> (j < n)%nat ->
  at2 (create_look_ahead_mask n) i j = Some (if (i <? j)%nat then 1 else 0).
Proof.
  intros Hi Hj. rewrite look_ahead_mask_seq. unfold at2.
  rewrite list_lookup_fmap, (lookup_seq_lt 0 n i Hi). simpl.
  now rewrite list_lookup_fmap, (lookup_seq_lt 0 n j Hj).
Qed.

(** X1. In the combined mask built for a decoder input [tar] of width [n],
    query position [i] of row [b] is blocked from key position [j] exactly
    when [j] lies in the future of [i] or the token at [j] is the pad id:
    the entry is 1 in these cases and 0 otherwise. *)
Theorem combined_mask_blocks_future_and_pad (inp tar : tensor2) (n b i j : nat)
    (t : Z) :
  rectangular n tar ->
  (i < n)%nat ->
  at2 tar b j = Some t ->
  at4 (create_masks inp tar).1.2 b 0 i j
  = Some (if (i <? j)%nat || (t =? 0) then 1 else 0).
Proof.
  intros Hrect Hi Ht. cbn [create_masks fst snd].
  rewrite (combined_mask_entry n tar b i j Hrect), padding_mask_entry, Ht.
  assert (Hj : (j < n)%nat).
  { unfold at2 in Ht. destruct (tar !! b) as [row |] eqn:Hrow; [| discriminate].
    simpl in Ht. apply lookup_lt_Some in Ht.
    destruct (shape1_rectangular n tar b row Hrect Hrow) as [_ <-]. exact Ht. }
  rewrite (look_ahead_mask_entry n i j Hi Hj). simpl. f_equal.
  unfold equal0. destruct (t =? 0), (i <? j)%nat; reflexivity.
Qed.

Lemma combined_mask_blocks_future_and_pad_witness :
  at4 (create_masks [[4; 5; 0]] [[2; 7; 0]]).1.2 0 0 2 1 = Some 0 /\
  at4 (create_masks [[4; 5; 0]] [[2; 7; 0]]).1.2 0 0 2 2 = Some 1 /\
  at4 (create_masks [[4; 5; 0]] [[2; 7; 0]]).1.2 0 0 0 1 = Some 1.
Proof.
  assert (H : rectangular 3 [[2; 7; 0]]) by (repeat constructor).
  split; [| split].
  - exact (combined_mask_blocks_future_and_pad [[4; 5; 0]] [[2; 7; 0]]
             3%nat 0%nat 2%nat 1%nat 7 H ltac:(lia) eq_refl).
  - exact (combined_mask_blocks_future_and_pad [[4; 5; 0]] [[2; 7; 0]]
             3%nat 0%nat 2%nat 2%nat 0 H ltac:(lia) eq_refl).
  - exact (combined_mask_blocks_future_and_pad [[4; 5; 0]] [[2; 7; 0]]
             3%nat 0%nat 0%nat 1%nat 7 H ltac:(lia) eq_refl).
Defined.

(** X2. For a decoder input of shape (batch, n) the combined mask has shape
    (batch, 1, n, n): one block per row of the batch, each block holding a
    single [n] x [n] matrix. *)
Theorem combined_mask_shape (inp tar : tensor2) (n : nat) :
  rectangular n tar ->
  length (create_masks inp tar).1.2 = length tar /\
  forall (b : nat) (block : list (list (list Z))),
    (create_masks inp tar).1.2 !! b = Some block ->
    exists m : tensor2, block = [m] /\ length m = n /\ rectangular n m.
Proof.
  intros Hrect. cbn [create_masks fst snd]. unfold tf_maximum, create_padding_mask.
  split; [now rewrite !length_map |].
  intros b block Hb. rewrite !list_lookup_fmap in Hb.
  destruct (tar !! b) as [row |] eqn:Hrow; [| discriminate]. simpl in Hb.
  injection Hb as <-.
  destruct (shape1_rectangular n tar b row Hrect Hrow) as [-> Hlen].
  eexists. split; [reflexivity |].
  destruct (look_ahead_mask_shape n) as [Hl Hr].
  split; [now rewrite length_map |].
  unfold rectangular in *. apply Forall_map. simpl.
  eapply Forall_impl; [exact Hr |]. intros larow Hla. simpl in Hla |- *.
  rewrite bcast_same_length by (rewrite length_map; lia).
  rewrite length_zip_with, length_map. lia.
Qed.

Lemma combined_mask_shape_witness :
  length (create_masks [[4; 5; 0]] [[2; 7; 0]; [2; 0; 0]]).1.2 = 2%nat.
Proof.
  refine (proj1 (combined_mask_shape [[4; 5; 0]] [[2; 7; 0]; [2; 0; 0]] 3 _)).
  repeat constructor.
Defined.

(** ** The shape and the content of a greedy decoding run *)

Section PredictTrace.
Context (weights : Type)
        (call : weights -> tensor2 -> tensor2 -> bool ->
                tensor4 -> tensor4 -> tensor4 -> logits3)
        (tokenize_batch : string -> tensor2)
        (MAX_LENGTH : nat).

Local Abbreviation loop := (predict_loop weights call).
Local Abbreviation choice := (greedy_choice weights call).

Lemma predict_loop_length (w : weights) (encoder_input : tensor2) (n : nat) :
  forall (output : tensor2) (result : list Z) (passes : nat)
         (result' : list Z) (passes' : nat),
    loop w encoder_input n output result passes = Returns (result', passes') ->
    exists ids : list Z,
      result' = result ++ ids /\
      ((passes' = passes + S (length ids) /\ length ids < n)%nat \/
       (passes' = passes + n /\ length ids = n)%nat).
Proof.
  induction n as [| n IH]; intros output result passes result' passes' Hrun.
  - simpl in Hrun. injection Hrun as <- <-. exists [].
    rewrite app_nil_r. split; [reflexivity | right; simpl; lia].
  - cbn [predict_loop] in Hrun.
    destruct (at2 (greedy_step weights call w encoder_input output) 0 0)
      as [pid |]; [| discriminate Hrun].
    destruct (pid =? 3).
    + injection Hrun as <- <-. exists [].
      rewrite app_nil_r. split; [reflexivity | left; simpl; lia].
    + apply IH in Hrun as (ids & -> & Hcases).
      exists (pid :: ids). rewrite <- app_assoc. split; [reflexivity |].
      simpl. destruct Hcases as [[-> Hlt] | [-> Hlen]]; [left | right]; lia.
Qed.

(** X3. Whatever the model answers, the id sequence that [predict] hands to
    [decode] starts with the start token 2 and holds at most [MAX_LENGTH]
    further ids: one per forward pass, except for the pass that selected the
    end token.  A run cut by the iteration bound has made [MAX_LENGTH] passes
    and returns all [MAX_LENGTH] ids without any sign of truncation. *)
Theorem predict_result_length (w : weights) (inp_sentence : string)
    (result : list Z) (passes : nat) :
  predict_ids weights call tokenize_batch MAX_LENGTH w inp_sentence
  = Returns (result, passes) ->
  exists ids : list Z,
    result = 2 :: ids /\
    (length ids <= MAX_LENGTH)%nat /\
    ((passes = S (length ids) /\ length ids < MAX_LENGTH)%nat \/
     (passes = MAX_LENGTH /\ length ids = MAX_LENGTH)%nat).
Proof.
  unfold predict_ids. intros Hrun.
  apply predict_loop_length in Hrun as (ids & -> & Hcases).
  exists ids. split; [reflexivity |]. split; [lia |].
  destruct Hcases as [[-> Hlt] | [-> Hlen]]; [left | right]; lia.
Qed.

Lemma predict_loop_trace (w : weights) (encoder_input : tensor2) (n : nat) :
  call_shape weights call ->
  forall (result : list Z) (passes : nat) (result' : list Z) (passes' : nat),
    result <> [] ->
    loop w encoder_input n [result] result passes = Returns (result', passes') ->
    exists ids : list Z,
      result' = result ++ ids /\
      (forall (k : nat) (id : Z),
          ids !! k = Some id ->
          choice w encoder_input (result ++ take k ids) = Some id) /\
      ((passes' = passes + S (length ids))%nat /\
       choice w encoder_input result' = Some 3 \/
       (passes' = passes + n)%nat /\ length ids = n).
Proof.
  intros Hshape.
  induction n as [| n IH]; intros result passes result' passes' Hne Hrun.
  - simpl in Hrun. injection Hrun as <- <-. exists [].
    rewrite app_nil_r. split; [reflexivity |].
    split; [intros k id Hk; discriminate Hk | right; simpl; lia].
  - destruct (greedy_step_single weights call w encoder_input result Hshape Hne)
      as [pid Hpid].
    assert (Hchoice : choice w encoder_input result = Some pid)
      by (unfold greedy_choice; now rewrite Hpid).
    cbn [predict_loop] in Hrun. rewrite Hpid in Hrun.
    change (at2 [[pid]] 0 0) with (Some pid) in Hrun.
    change (concat_last [result] [[pid]]) with [result ++ [pid]] in Hrun.
    cbv beta iota in Hrun.
    destruct (Z.eqb_spec pid 3) as [Heq | Hpid3].
    + subst pid. injection Hrun as <- <-. exists [].
      rewrite app_nil_r. split; [reflexivity |].
      split; [intros k id Hk; discriminate Hk |].
      left. split; [simpl; lia | exact Hchoice].
    + apply IH in Hrun as (ids & -> & Htrace & Hcases);
        [| now destruct result].
      exists (pid :: ids). rewrite <- app_assoc. split; [reflexivity |].
      split.
      * intros [| k] id Hk.
        -- injection Hk as <-. simpl. now rewrite app_nil_r.
        -- simpl in Hk. apply Htrace in Hk.
           now rewrite <- app_assoc in Hk.
      * simpl. rewrite <- app_assoc in Hcases. simpl in Hcases.
        destruct Hcases as [[-> Hc] | [-> Hlen]]; [left | right];
          (split; [lia | assumption || lia]).
Qed.

(** X4. Greedy decoding is autoregressive: with a forward pass that answers
    logits of the shape of its decoder input, every id after the start token
    in the sequence handed to [decode] is the id that the model selects when
    it is given exactly the ids before it, and the run ends either because
    the model selects the end token after the whole sequence or because
    [MAX_LENGTH] ids were generated. *)
Theorem predict_is_greedy_rollout (w : weights) (inp_sentence : string)
    (result : list Z) (passes : nat) :
  call_shape weights call ->
  predict_ids weights call tokenize_batch MAX_LENGTH w inp_sentence
  = Returns (result, passes) ->
  (forall (k : nat) (id : Z),
      (0 < k)%nat -> result !! k = Some id ->
      choice w (tokenize_batch inp_sentence) (take k result) = Some id) /\
  (passes = length result /\
   choice w (tokenize_batch inp_sentence) result = Some 3 \/
   passes = MAX_LENGTH /\ length result = S MAX_LENGTH).
Proof.
  intros Hshape Hrun. unfold predict_ids in Hrun.
  apply predict_loop_trace in Hrun as (ids & -> & Htrace & Hcases);
    [| exact Hshape | discriminate].
  split.
  - intros [| k] id Hk Hid; [lia |].
    simpl in Hid. apply Htrace in Hid. exact Hid.
  - simpl. destruct Hcases as [[-> Hc] | [-> Hlen]]; [left | right];
      (split; [lia | assumption || lia]).
Qed.
End PredictTrace.

Lemma toy_rollout :
  predict_ids unit (toy_call [0; 1]%R) toy_tokenize 2 tt "ab"
  = Returns ([2; 1; 1], 2%nat).
Proof.
  unfold predict_ids. cbn [predict_loop].
  assert (Hstep : forall output : list Z,
             greedy_step unit (toy_call [0; 1]%R) tt (toy_tokenize "ab")
                         [2 :: output]
             = [[1]]).
  { intros output. unfold greedy_step, toy_call, last_position, argmax_ids.
    destruct (create_masks (toy_tokenize "ab") [2 :: output]) as [[m1 m2] m3].
    cbn [map length]. rewrite length_map.
    replace (S (length output) - 1)%nat with (length output) by lia.
    assert (Hlast : drop (length output)
                      ([0; 1]%R :: map (fun _ : Z => [0; 1]%R) output)
                    = [[0; 1]%R]).
    { clear. induction output as [| a output IH]; [reflexivity |].
      cbn [length map drop]. exact IH. }
    rewrite Hlast. cbn [map]. now rewrite argmax_word. }
  rewrite (Hstep []).
  change (concat_last [[2]] [[1]]) with [[2; 1]].
  change (at2 [[1]] 0 0) with (Some 1). cbv beta iota.
  change (1 =? 3) with false. cbv iota.
  rewrite (Hstep [1]). reflexivity.
Qed.

Lemma predict_result_length_witness :
  exists ids : list Z,
    [2; 1; 1] = 2 :: ids /\
    (length ids <= 2)%nat /\
    ((2 = S (length ids) /\ length ids < 2)%nat \/
     (2 = 2 /\ length ids = 2)%nat).
Proof.
  exact (predict_result_length unit (toy_call [0; 1]%R) toy_tokenize 2 tt "ab"
           [2; 1; 1] 2%nat toy_rollout).
Defined.

Lemma predict_is_greedy_rollout_witness :
  (forall (k : nat) (id : Z),
      (0 < k)%nat -> [2; 1; 1] !! k = Some id ->
      greedy_choice unit (toy_call [0; 1]%R) tt (toy_tokenize "ab")
                    (take k [2; 1; 1]) = Some id) /\
  (2%nat = length [2; 1; 1] /\
   greedy_choice unit (toy_call [0; 1]%R) tt (toy_tokenize "ab") [2; 1; 1]
   = Some 3 \/
   2%nat = 2%nat /\ length [2; 1; 1] = 3%nat).
Proof.
  exact (predict_is_greedy_rollout unit (toy_call [0; 1]%R) toy_tokenize 2 tt
           "ab" [2; 1; 1] 2%nat (toy_call_shape [0; 1]%R) toy_rollout).
Defined.

(** ** Batching in [evaluate] *)

Lemma split_batch_nil {A} (n : nat) :
  n <> 0%nat -> split_batch (@nil A) n = Some [].
Proof.
  intros Hn. unfold split_batch, py_range.
  destruct (Nat.eqb_spec n 0) as [E | _]; [contradiction |].
  simpl length. replace ((0 + n - 1) / n)%nat with 0%nat; [reflexivity |].
  symmetry. apply Nat.div_small. lia.
Qed.

Lemma py_range_step (len n : nat) :
  n <> 0%nat -> len <> 0%nat ->
  py_range len n = 0%nat :: map (fun ndx => (ndx + n)%nat) (py_range (len - n) n).
Proof.
  intros Hn Hlen. unfold py_range.
  assert (Hc : ((len + n - 1) / n = S ((len - n + n - 1) / n))%nat).
  { destruct (Nat.le_gt_cases n len) as [Hle | Hgt].
    - replace (len + n - 1)%nat with (len - n + n - 1 + 1 * n)%nat by lia.
      rewrite Nat.div_add by exact Hn. lia.
    - replace (len - n + n - 1)%nat with (n - 1)%nat by lia.
      rewrite (Nat.div_small (n - 1) n) by lia.
      symmetry. apply (Nat.div_unique _ _ _ (len - 1)); lia. }
  rewrite Hc. cbn [seq map]. f_equal.
  rewrite <- seq_shift, !map_map. apply map_ext. intros k. simpl. lia.
Qed.

Lemma split_batch_cons {A} (l : list A) (n : nat) :
  n <> 0%nat -> l <> [] ->
  exists rest : list (list A),
    split_batch (drop n l) n = Some rest /\
    split_batch l n = Some (take n l :: rest).
Proof.
  intros Hn Hl. unfold split_batch.
  destruct (Nat.eqb_spec n 0) as [E | _]; [contradiction |].
  eexists. split; [reflexivity |]. f_equal.
  assert (Hlen : length l <> 0%nat) by (destruct l; [congruence | discriminate]).
  rewrite (py_range_step (length l) n Hn Hlen). cbn [map]. f_equal.
  - unfold slice. rewrite drop_0, Nat.sub_0_r.
    destruct (Nat.le_gt_cases n (length l)) as [Hle | Hgt].
    + now rewrite Nat.min_l by lia.
    + rewrite Nat.min_r by lia. now rewrite !take_ge by lia.
  - rewrite map_map, length_drop. apply map_ext. intros ndx.
    unfold slice. rewrite drop_drop. f_equal; [lia | f_equal; lia].
Qed.

Lemma split_batch_spec {A} (n k : nat) :
  n <> 0%nat ->
  forall l : list A,
    (length l <= k)%nat ->
    exists batches : list (list A),
      split_batch l n = Some batches /\
      concat batches = l /\
      Forall (fun b => b <> [] /\ (length b <= n)%nat) batches /\
      (forall (i : nat) (b : list A),
          batches !! i = Some b -> (S i < length batches)%nat -> length b = n).
Proof.
  intros Hn. induction k as [| k IH]; intros l Hk.
  - destruct l; [| simpl in Hk; lia].
    exists []. rewrite (split_batch_nil n Hn).
    repeat split; [constructor | intros i b Hb; discriminate Hb].
  - destruct l as [| a l]; [exists []; rewrite (split_batch_nil n Hn);
      repeat split; [constructor | intros i b Hb; discriminate Hb] |].
    destruct (split_batch_cons (a :: l) n Hn ltac:(discriminate))
      as (rest & Hrest & Hsplit).
    destruct (IH (drop n (a :: l))) as (rest' & Hrest' & Hcat & Hall & Hfull).
    { rewrite length_drop. simpl in *. lia. }
    rewrite Hrest in Hrest'. injection Hrest' as <-.
    exists (take n (a :: l) :: rest). split; [exact Hsplit |].
    split; [| split].
    + simpl concat. rewrite Hcat. apply take_drop.
    + constructor; [| exact Hall]. split.
      * destruct n; [congruence | discriminate].
      * rewrite length_take. lia.
    + intros [| i] b Hb Hi.
      * injection Hb as <-. rewrite length_take.
        destruct rest as [| r rest]; [simpl in Hi; lia |].
        assert (Hdrop : drop n (a :: l) <> []).
        { intros E. rewrite E, (split_batch_nil n Hn) in Hrest.
          discriminate Hrest. }
        assert (n < length (a :: l))%nat; [| lia].
        destruct (Nat.le_gt_cases (length (a :: l)) n) as [Hle | Hgt];
          [| exact Hgt].
        exfalso. apply Hdrop. now apply drop_ge.
      * simpl in Hb, Hi. apply (Hfull i b Hb). lia.
Qed.

(** X5. [split_batch] cuts an array into consecutive batches without losing
    or reordering rows: for a positive batch size the batches concatenate
    back to the array, there are [ceil(len / n)] of them, none is empty or
    longer than [n], and every batch but the last holds exactly [n] rows.
    With a batch size of 0 the underlying [range] raises. *)
Theorem split_batch_partitions {A} (l : list A) (n : nat) :
  (n = 0%nat -> split_batch l n = None) /\
  (n <> 0%nat ->
   exists batches : list (list A),
     split_batch l n = Some batches /\
     concat batches = l /\
     length batches = ((length l + n - 1) / n)%nat /\
     Forall (fun b => b <> [] /\ (length b <= n)%nat) batches /\
     (forall (i : nat) (b : list A),
         batches !! i = Some b -> (S i < length batches)%nat -> length b = n)).
Proof.
  split.
  - intros ->. reflexivity.
  - intros Hn.
    destruct (split_batch_spec n (length l) Hn l (le_n _))
      as (batches & Hsplit & Hcat & Hall & Hfull).
    exists batches. repeat split; try assumption.
    unfold split_batch in Hsplit.
    destruct (Nat.eqb_spec n 0) as [E | _]; [contradiction |].
    injection Hsplit as <-. unfold py_range.
    now rewrite !length_map, length_seq.
Qed.

Lemma split_batch_partitions_witness :
  exists batches : list (list Z),
    split_batch [1; 2; 3; 4; 5] 2 = Some batches /\
    concat batches = [1; 2; 3; 4; 5] /\
    length batches = ((length [1; 2; 3; 4; 5] + 2 - 1) / 2)%nat /\
    Forall (fun b => b <> [] /\ (length b <= 2)%nat) batches /\
    (forall (i : nat) (b : list Z),
        batches !! i = Some b -> (S i < length batches)%nat -> length b = 2%nat).
Proof.
  refine (proj2 (split_batch_partitions [1; 2; 3; 4; 5] 2) _). discriminate.
Defined.

Example split_batch_example :
  split_batch [1; 2; 3; 4; 5] 2 = Some [[1; 2]; [3; 4]; [5]].
Proof. reflexivity. Qed.

(** ** Running means: what the trackers report *)

Lemma tf_add_finite_zero (t : tfloat) : tf_add t (Finite 0) = t.
Proof. destruct t; simpl; try reflexivity. f_equal. lra. Qed.

Lemma Mean_call_fields (value : tfloat) (m : Metric) :
  Mean_call value m
  = {| total := tf_add (total m) value; count := (count m + 1)%R |}.
Proof.
  unfold Mean_call, update_state. cbn [foldr length INR].
  now rewrite tf_add_finite_zero.
Qed.

Lemma Mean_fold_fields (values : list tfloat) :
  forall m : Metric,
    foldl (fun m value => Mean_call value m) m values
    = {| total := foldl tf_add (total m) values;
         count := (count m + INR (length values))%R |}.
Proof.
  induction values as [| v values IH]; intros m.
  - simpl. rewrite Rplus_0_r. now destruct m.
  - cbn [foldl]. rewrite IH, Mean_call_fields. cbn [total count length].
    rewrite S_INR. f_equal. lra.
Qed.

Lemma foldl_tf_add_nan (values : list tfloat) :
  foldl tf_add NaN values = NaN.
Proof. induction values as [| v values IH]; [reflexivity | exact IH]. Qed.

Lemma foldl_tf_add_in_nan (values : list tfloat) (t : tfloat) :
  In NaN values -> foldl tf_add t values = NaN.
Proof.
  revert t. induction values as [| v values IH]; intros t Hin; [destruct Hin |].
  cbn [foldl]. destruct Hin as [-> | Hin].
  - replace (tf_add t NaN) with NaN by (now destruct t).
    apply foldl_tf_add_nan.
  - now apply IH.
Qed.

Lemma hit_count_le (real : tensor2) (pred : logits3) :
  (hit_count real pred <= position_count real pred)%nat.
Proof. unfold hit_count, position_count. apply List.filter_length_le. Qed.

Lemma sum_list_map_le {A} (f g : A -> nat) (l : list A) :
  (forall a, f a <= g a)%nat ->
  (sum_list (map f l) <= sum_list (map g l))%nat.
Proof.
  intros Hle. induction l as [| a l IH]; [reflexivity |].
  change (f a + sum_list (map f l) <= g a + sum_list (map g l))%nat.
  specialize (Hle a). lia.
Qed.

Lemma Metric_result_new : Metric_result Metric_new = Finite 0.
Proof.
  unfold Metric_result, div_no_nan, Metric_new. cbn [total count].
  destruct (Req_dec_T 0 0); [reflexivity | contradiction].
Qed.

Lemma ratio_in_unit_interval (hits positions : nat) :
  (hits <= positions)%nat ->
  exists a : R,
    div_no_nan (Finite (INR hits)) (INR positions) = Finite a /\
    (0 <= a <= 1)%R.
Proof.
  intros Hle. unfold div_no_nan.
  destruct (Req_dec_T (INR positions) 0) as [E | Hne].
  - exists 0%R. split; [reflexivity | lra].
  - exists (INR hits / INR positions)%R. split; [reflexivity |].
    assert (Hpos : (0 < INR positions)%R).
    { pose proof (pos_INR positions). lra. }
    pose proof (pos_INR hits) as Hh.
    pose proof (le_INR _ _ Hle) as Hhp.
    split.
    + unfold Rdiv. apply Rmult_le_pos; [exact Hh |].
      left. now apply Rinv_0_lt_compat.
    + apply (Rmult_le_reg_r (INR positions)); [exact Hpos |].
      unfold Rdiv. rewrite Rmult_assoc, Rinv_l by exact Hne. lra.
Qed.

Section TrackerProps.
Context (weights : Type)
        (call : weights -> tensor2 -> tensor2 -> bool ->
                tensor4 -> tensor4 -> tensor4 -> logits3)
        (apply_gradients : weights -> tensor2 -> tensor2 -> tensor2 -> weights)
        (BATCH_SIZE : nat).

Local Abbreviation targets := (batch_targets weights call).
Local Abbreviation steps := (train_steps weights call apply_gradients).
Local Abbreviation losses := (train_losses weights call apply_gradients).

Lemma batch_targets_fst (w : weights) (training : bool) (inp tar : tensor2) :
  (targets w training inp tar).1 = drop_first_column tar.
Proof.
  unfold batch_targets.
  now destruct (create_masks inp (drop_last_column tar)) as [[m1 m2] m3].
Qed.

Lemma train_step_fields (w : weights) (inp tar : tensor2) (h : heap) :
  train_step weights call apply_gradients w inp tar h
  = (apply_gradients w inp (drop_last_column tar) (drop_first_column tar),
     alter (SparseCategoricalAccuracy_call (targets w true inp tar).1
                                           (targets w true inp tar).2)
           train_accuracy
           (alter (Mean_call (loss_function (targets w true inp tar).1
                                            (targets w true inp tar).2))
                  train_loss h)).
Proof.
  unfold train_step, batch_targets.
  now destruct (create_masks inp (drop_last_column tar)) as [[m1 m2] m3].
Qed.

Lemma train_steps_loss (batches : list (tensor2 * tensor2)) :
  forall (w : weights) (h : heap),
    (steps w h batches).2 !! train_loss
    = (fun m => foldl (fun m value => Mean_call value m) m (losses w batches))
        <$> h !! train_loss.
Proof.
  unfold train_steps.
  induction batches as [| batch batches IH]; intros w h.
  - simpl. now destruct (h !! train_loss).
  - cbn [foldl train_losses fst snd]. rewrite train_step_fields.
    rewrite IH. rewrite lookup_alter_ne by discriminate.
    rewrite lookup_alter_eq. now destruct (h !! train_loss).
Qed.

Lemma train_steps_frame (batches : list (tensor2 * tensor2)) :
  forall (w : weights) (h : heap) (l : nat),
    l <> train_loss -> l <> train_accuracy ->
    (steps w h batches).2 !! l = h !! l.
Proof.
  unfold train_steps.
  induction batches as [| batch batches IH]; intros w h l Hl Ha;
    [reflexivity |].
  cbn [foldl fst snd]. rewrite train_step_fields, IH by assumption.
  rewrite !lookup_alter_ne by congruence. reflexivity.
Qed.

(** X6. Over a run of training steps the tracker [train_loss] is a running
    mean: its [total] is the sum of the losses of the steps added to what it
    held before, its [count] grows by one per step, so that from a reset
    tracker [result()] is the sum of the step losses divided by the number of
    steps.  The steps touch no metric object other than [train_loss] and
    [train_accuracy]. *)
Theorem train_loss_is_running_mean (w : weights) (h : heap) (m : Metric)
    (batches : list (tensor2 * tensor2)) :
  h !! train_loss = Some m ->
  (steps w h batches).2 !! train_loss
  = Some {| total := foldl tf_add (total m) (losses w batches);
            count := (count m + INR (length batches))%R |} /\
  (m = Metric_new ->
   Metric_result <$> (steps w h batches).2 !! train_loss
   = Some (div_no_nan (foldl tf_add (Finite 0) (losses w batches))
                      (INR (length batches)))) /\
  (forall l : nat,
      l <> train_loss -> l <> train_accuracy ->
      (steps w h batches).2 !! l = h !! l).
Proof.
  intros Hm.
  assert (Hlen : length (losses w batches) = length batches).
  { clear. revert w. induction batches as [| b bs IH]; intros w;
      [reflexivity |]. cbn [train_losses length]. now rewrite IH. }
  assert (Hfields :
    (steps w h batches).2 !! train_loss
    = Some {| total := foldl tf_add (total m) (losses w batches);
              count := (count m + INR (length batches))%R |}).
  { rewrite train_steps_loss, Hm. cbn [fmap option_fmap option_map].
    now rewrite Mean_fold_fields, Hlen. }
  split; [exact Hfields |]. split.
  - intros ->. rewrite Hfields. cbn [fmap option_fmap option_map].
    unfold Metric_result. cbn [total count Metric_new].
    now rewrite Rplus_0_l.
  - intros l Hl Ha. now apply train_steps_frame.
Qed.

Lemma train_losses_all_pad (batches : list (tensor2 * tensor2)) :
  forall w : weights,
    Exists (fun batch => all_pad (drop_first_column batch.2)) batches ->
    In NaN (losses w batches).
Proof.
  induction batches as [| batch batches IH]; intros w Hex;
    [inversion Hex |].
  cbn [train_losses]. inversion Hex as [? ? Hpad | ? ? Hrest]; subst.
  - left. rewrite <- (batch_targets_fst w true batch.1 batch.2) in Hpad.
    now destruct (loss_function_nan _ (targets w true batch.1 batch.2).2 Hpad)
      as (_ & _ & ->).
  - right. now apply IH.
Qed.

(** X7. A NaN loss poisons the running mean: once one training step has
    seen a target batch whose shifted labels are all pad (its loss is 0/0),
    [train_loss.result()] is NaN after that step and after every later step,
    until the tracker is reset. *)
Theorem train_loss_nan_is_sticky (w : weights) (h : heap) (m : Metric)
    (batches : list (tensor2 * tensor2)) :
  h !! train_loss = Some m ->
  (0 <= count m)%R ->
  Exists (fun batch => all_pad (drop_first_column batch.2)) batches ->
  Metric_result <$> (steps w h batches).2 !! train_loss = Some NaN.
Proof.
  intros Hm Hcount Hex.
  rewrite train_steps_loss, Hm. cbn [fmap option_fmap option_map].
  rewrite Mean_fold_fields. unfold Metric_result. cbn [total count].
  rewrite (foldl_tf_add_in_nan _ _ (train_losses_all_pad batches w Hex)).
  unfold div_no_nan.
  destruct (Req_dec_T (count m + INR (length (losses w batches))) 0)
    as [E | _]; [| reflexivity].
  exfalso.
  assert (Hlen : (0 < length (losses w batches))%nat).
  { pose proof (train_losses_all_pad batches w Hex) as Hin.
    destruct (losses w batches); [destruct Hin | simpl; lia]. }
  apply lt_INR in Hlen. simpl in Hlen. lra.
Qed.

Lemma eval_loss_fold (w : weights) (batches : list (tensor2 * tensor2)) :
  forall ms : Metric * Metric,
    (foldl (batch_metrics weights call w) ms batches).1
    = foldl (fun m value => Mean_call value m) ms.1
        (map (fun batch =>
                loss_function (targets w false batch.1 batch.2).1
                              (targets w false batch.1 batch.2).2) batches).
Proof.
  induction batches as [| batch batches IH]; intros ms; [reflexivity |].
  cbn [foldl map]. rewrite IH, batch_metrics_pair. reflexivity.
Qed.

Lemma eval_counts_le (w : weights) (batches : list (tensor2 * tensor2)) :
  (eval_hit_count weights call w batches
   <= eval_position_count weights call w batches)%nat.
Proof.
  unfold eval_hit_count, eval_position_count.
  apply sum_list_map_le. intros batch.
  destruct (targets w false batch.1 batch.2) as [tr pr].
  apply hit_count_le.
Qed.

(** X8. Whenever [evaluate] returns, the accuracy it reports is a finite
    number between 0 and 1 (0 when no position was compared). *)
Theorem evaluate_accuracy_in_unit_interval (w : weights) (inp tar : tensor2)
    (h : heap) (loss acc : tfloat) :
  (evaluate weights call BATCH_SIZE w inp tar h).1 = Returns (loss, acc) ->
  exists a : R, acc = Finite a /\ (0 <= a <= 1)%R.
Proof.
  intros Hret.
  destruct (evaluate_run weights call BATCH_SIZE w inp tar h)
    as (l1 & l2 & _ & _ & _ & Hrun).
  destruct (split_batch inp BATCH_SIZE) as [ib |];
    [| rewrite Hrun in Hret; discriminate Hret].
  destruct (split_batch tar BATCH_SIZE) as [tb |];
    [| rewrite Hrun in Hret; discriminate Hret].
  rewrite Hrun in Hret. cbn [fst] in Hret. injection Hret as _ <-.
  unfold evaluate_metrics. rewrite eval_accuracy_fold.
  unfold Metric_result. cbn [total count snd Metric_new tf_add].
  rewrite !Rplus_0_l.
  apply ratio_in_unit_interval, eval_counts_le.
Qed.

(** X9. Evaluating no data is not an error: with a positive batch size and
    an empty input or target array the loop body never runs and [evaluate]
    returns loss 0 and accuracy 0 ([divide_no_nan] of 0 by 0). *)
Theorem evaluate_empty (w : weights) (inp tar : tensor2) (h : heap) :
  BATCH_SIZE <> 0%nat ->
  inp = [] \/ tar = [] ->
  (evaluate weights call BATCH_SIZE w inp tar h).1
  = Returns (Finite 0, Finite 0).
Proof.
  intros Hn Hempty.
  destruct (evaluate_run weights call BATCH_SIZE w inp tar h)
    as (l1 & l2 & _ & _ & _ & Hrun).
  destruct (split_batch_spec BATCH_SIZE (length inp) Hn inp (le_n _))
    as (ib & Hib & Hcat_i & _).
  destruct (split_batch_spec BATCH_SIZE (length tar) Hn tar (le_n _))
    as (tb & Htb & Hcat_t & _).
  rewrite Hib, Htb in Hrun. rewrite Hrun. cbn [fst].
  assert (Hzip : zip ib tb = []).
  { destruct Hempty as [-> | ->].
    - rewrite (split_batch_nil BATCH_SIZE Hn) in Hib. now injection Hib as <-.
    - rewrite (split_batch_nil BATCH_SIZE Hn) in Htb. injection Htb as <-.
      now destruct ib. }
  rewrite Hzip. unfold evaluate_metrics. cbn [foldl fst snd].
  now rewrite Metric_result_new.
Qed.

(** X10. One degenerate batch spoils the evaluation loss: if the shifted
    labels of some evaluated batch are all pad (for instance every target row
    holds the start token only), the loss returned by [evaluate] is NaN. *)
Theorem evaluate_loss_nan (w : weights) (inp tar : tensor2) (h : heap)
    (inp_batch tar_batch : list tensor2) :
  split_batch inp BATCH_SIZE = Some inp_batch ->
  split_batch tar BATCH_SIZE = Some tar_batch ->
  Exists (fun batch => all_pad (drop_first_column batch.2))
         (zip inp_batch tar_batch) ->
  exists acc : tfloat,
    (evaluate weights call BATCH_SIZE w inp tar h).1 = Returns (NaN, acc).
Proof.
  intros Hib Htb Hex.
  destruct (evaluate_run weights call BATCH_SIZE w inp tar h)
    as (l1 & l2 & _ & _ & _ & Hrun).
  rewrite Hib, Htb in Hrun. rewrite Hrun. cbn [fst].
  eexists. f_equal. f_equal.
  unfold evaluate_metrics. rewrite eval_loss_fold, Mean_fold_fields.
  unfold Metric_result. cbn [total count fst Metric_new].
  assert (Hin : In NaN (map (fun batch =>
                   loss_function (targets w false batch.1 batch.2).1
                                 (targets w false batch.1 batch.2).2)
                 (zip inp_batch tar_batch))).
  { apply in_map_iff. apply List.Exists_exists in Hex as (batch & Hb & Hpad).
    exists batch. split; [| exact Hb].
    rewrite <- (batch_targets_fst w false batch.1 batch.2) in Hpad.
    now destruct (loss_function_nan _ (targets w false batch.1 batch.2).2 Hpad)
      as (_ & _ & ->). }
  rewrite (foldl_tf_add_in_nan _ _ Hin). unfold div_no_nan.
  destruct (Req_dec_T _ 0) as [E | _]; [| reflexivity].
  exfalso. rewrite length_map in E.
  assert (Hlen : (0 < length (zip inp_batch tar_batch))%nat).
  { apply List.Exists_exists in Hex as (batch & Hb & _).
    destruct (zip inp_batch tar_batch); [destruct Hb | simpl; lia]. }
  apply lt_INR in Hlen. simpl in Hlen. lra.
Qed.
End TrackerProps.

(** *** Running the trackers on the small models *)

Lemma train_loss_is_running_mean_witness :
  (train_steps unit (toy_call [0; 1]%R) toy_apply_gradients tt module_heap
               [([[5; 6]], [[2; 1; 0]])]).2 !! train_loss
  = Some {| total :=
              foldl tf_add (total Metric_new)
                (train_losses unit (toy_call [0; 1]%R) toy_apply_gradients tt
                              [([[5; 6]], [[2; 1; 0]])]);
            count :=
              Rplus (count Metric_new)
                    (INR (length [([[5; 6]], [[2; 1; 0]])])) |}.
Proof.
  exact (proj1 (train_loss_is_running_mean unit (toy_call [0; 1]%R)
                  toy_apply_gradients tt module_heap Metric_new
                  [([[5; 6]], [[2; 1; 0]])] module_heap_train_loss)).
Defined.

Lemma train_loss_nan_is_sticky_witness :
  Metric_result
    <$> (train_steps unit (toy_call [0; 1]%R) toy_apply_gradients tt module_heap
                     [([[5; 6]], [[2; 1; 0]]); ([[5]], [[2; 0]]);
                      ([[5; 6]], [[2; 1; 0]])]).2 !! train_loss
  = Some NaN.
Proof.
  refine (train_loss_nan_is_sticky unit (toy_call [0; 1]%R)
            toy_apply_gradients tt module_heap Metric_new _
            module_heap_train_loss (Rle_refl 0) _).
  apply Exists_cons_tl, Exists_cons_hd.
  unfold all_pad. repeat constructor.
Defined.

Lemma toy_evaluate_returns :
  (evaluate unit (toy_call [0; 1]%R) 1 tt [[5; 6]] [[2; 1; 0]] module_heap).1
  = Returns
      (Metric_result
         (evaluate_metrics unit (toy_call [0; 1]%R) tt
                           [([[5; 6]], [[2; 1; 0]])]).1,
       Metric_result
         (evaluate_metrics unit (toy_call [0; 1]%R) tt
                           [([[5; 6]], [[2; 1; 0]])]).2).
Proof.
  destruct (evaluate_run unit (toy_call [0; 1]%R) 1 tt [[5; 6]] [[2; 1; 0]]
              module_heap) as (l1 & l2 & _ & _ & _ & Hrun).
  change (split_batch [[5; 6]] 1) with (Some [[[5; 6]]]) in Hrun.
  change (split_batch [[2; 1; 0]] 1) with (Some [[[2; 1; 0]]]) in Hrun.
  cbv beta iota zeta in Hrun. now rewrite Hrun.
Qed.

Lemma evaluate_accuracy_in_unit_interval_witness :
  exists a : R,
    Metric_result
      (evaluate_metrics unit (toy_call [0; 1]%R) tt
                        [([[5; 6]], [[2; 1; 0]])]).2 = Finite a /\
    (0 <= a <= 1)%R.
Proof.
  exact (evaluate_accuracy_in_unit_interval unit (toy_call [0; 1]%R) 1 tt
           [[5; 6]] [[2; 1; 0]] module_heap _ _ toy_evaluate_returns).
Defined.

Lemma evaluate_empty_witness :
  (evaluate unit (toy_call [0; 1]%R) 1 tt [] [[2; 1; 0]] module_heap).1
  = Returns (Finite 0, Finite 0).
Proof.
  refine (evaluate_empty unit (toy_call [0; 1]%R) 1 tt [] [[2; 1; 0]]
            module_heap _ (or_introl eq_refl)).
  discriminate.
Defined.

Lemma evaluate_loss_nan_witness :
  exists acc : tfloat,
    (evaluate unit (toy_call [0; 1]%R) 1 tt [[5]] [[2; 0]] module_heap).1
    = Returns (NaN, acc).
Proof.
  refine (evaluate_loss_nan unit (toy_call [0; 1]%R) 1 tt [[5]] [[2; 0]]
            module_heap [[[5]]] [[[2; 0]]] eq_refl eq_refl _).
  apply Exists_cons_hd. unfold all_pad. repeat constructor.
Defined.

(** ** The accuracy tracker on batches without pad labels *)

Lemma compared_labels (P : Z -> Prop) (real : tensor2) (pred : logits3) :
  Forall (Forall P) real -> Forall (fun p => P p.1) (compared real pred).
Proof.
  unfold compared. intros Hall. revert pred.
  induction Hall as [| row real Hrow _ IH]; intros [| p pred];
    try (simpl; constructor).
  simpl. apply Forall_app. split; [| apply IH].
  clear IH. revert p.
  induction Hrow as [| t row Ht _ IHrow]; intros [| lg p];
    simpl; constructor; [exact Ht | apply IHrow].
Qed.

Lemma filter_all {A} (f : A -> bool) (l : list A) :
  Forall (fun a => f a = true) l -> List.filter f l = l.
Proof.
  induction 1 as [| a l Ha _ IH]; [reflexivity |].
  simpl. now rewrite Ha, IH.
Qed.

(** X11. The accuracy tracker and the masked accuracy agree when there is
    nothing to mask: for a target batch without any pad label, one call of a
    freshly reset [SparseCategoricalAccuracy] reports exactly the fraction of
    non-pad positions whose argmax matches the label. *)
Theorem accuracy_agrees_without_pad (real : tensor2) (pred : logits3) :
  Forall (Forall (fun t => t <> 0)) real ->
  Metric_result (SparseCategoricalAccuracy_call real pred Metric_new)
  = spec_masked_accuracy real pred.
Proof.
  intros Hnopad.
  pose proof (compared_labels _ real pred Hnopad) as Hcmp.
  assert (Hnon : Forall (fun p => is_nonpad p = true) (compared real pred)).
  { eapply Forall_impl; [exact Hcmp |]. intros p Hp. unfold is_nonpad.
    now apply negb_true_iff, Z.eqb_neq. }
  rewrite SparseCategoricalAccuracy_call_counts.
  unfold spec_masked_accuracy, Metric_result, hit_count, position_count.
  cbn [total count Metric_new tf_add]. rewrite !Rplus_0_l.
  rewrite (filter_all is_nonpad _ Hnon).
  rewrite (List.filter_ext_in (fun p => is_nonpad p && hit p) hit); [reflexivity |].
  intros p Hin. rewrite List.Forall_forall in Hnon. now rewrite (Hnon p Hin).
Qed.

Lemma accuracy_agrees_without_pad_witness :
  Metric_result
    (SparseCategoricalAccuracy_call [[1; 4]] [[[0; 1]; [0; 1]]]%R Metric_new)
  = spec_masked_accuracy [[1; 4]] [[[0; 1]; [0; 1]]]%R.
Proof.
  refine (accuracy_agrees_without_pad [[1; 4]] [[[0; 1]; [0; 1]]]%R _).
  repeat constructor; discriminate.
Defined.

(** ** The size of the masked loss *)

Lemma exp_sum_pos (l : list R) : l <> [] -> (0 < reduce_sum1 (map exp l))%R.
Proof.
  unfold reduce_sum1. intros Hl.
  assert (Hnn : forall k : list R, (0 <= foldr Rplus 0 (map exp k))%R).
  { induction k as [| x k IH]; simpl; [lra |].
    pose proof (exp_pos x). lra. }
  destruct l as [| x l]; [congruence |]. simpl.
  pose proof (exp_pos x). pose proof (Hnn l). lra.
Qed.

Lemma exp_nth_le_sum (l : list R) (i : nat) :
  (i < length l)%nat -> (exp (nth i l 0) <= reduce_sum1 (map exp l))%R.
Proof.
  unfold reduce_sum1. revert i.
  assert (Hnn : forall k : list R, (0 <= foldr Rplus 0 (map exp k))%R).
  { induction k as [| x k IH]; simpl; [lra |].
    pose proof (exp_pos x). lra. }
  induction l as [| x l IH]; intros [| i] Hi; simpl in *; try lia.
  - pose proof (Hnn l). lra.
  - pose proof (IH i ltac:(lia)). pose proof (exp_pos x). lra.
Qed.

Lemma crossentropy_nonneg (t : Z) (logits : list R) :
  (Z.to_nat t < length logits)%nat ->
  (0 <= sparse_categorical_crossentropy t logits)%R.
Proof.
  intros Hin. unfold sparse_categorical_crossentropy.
  pose proof (exp_nth_le_sum logits (Z.to_nat t) Hin) as Hle.
  pose proof (exp_pos (nth (Z.to_nat t) logits 0%R)) as Hpos.
  assert (Hln : (ln (exp (nth (Z.to_nat t) logits 0))
                 <= ln (reduce_sum1 (map exp logits)))%R).
  { destruct Hle as [Hlt | Heq].
    - left. now apply ln_increasing.
    - right. now rewrite Heq. }
  rewrite ln_exp in Hln. lra.
Qed.

Lemma masked_sum_compared (real : tensor2) (pred : logits3) :
  reduce_sum (masked_loss real pred)
  = reduce_sum1 (map (fun p => masked_entry p.1 p.2) (compared real pred)).
Proof.
  rewrite masked_loss_alt. unfold reduce_sum, compared. f_equal.
  revert pred. induction real as [| row real IH]; intros [| p pred];
    try reflexivity.
  simpl. rewrite map_app, IH. f_equal.
  clear IH. revert p. induction row as [| t row IHrow]; intros [| lg p];
    try reflexivity.
  simpl. now rewrite IHrow.
Qed.

Lemma reduce_sum1_nonneg (l : list R) :
  Forall (fun x => (0 <= x)%R) l -> (0 <= reduce_sum1 l)%R.
Proof.
  unfold reduce_sum1. induction 1 as [| x l Hx _ IH]; simpl; lra.
Qed.

(** ** The masked loss in exact arithmetic and over a float kernel *)

Lemma ideal_kernel_in_range (t : Z) (logits : list R) :
  0 <= t < Z.of_nat (length logits) ->
  ideal_kernel t logits
  = Returns (Finite (sparse_categorical_crossentropy t logits)).
Proof.
  intros [H0 H1]. unfold ideal_kernel.
  destruct (Z.leb_spec 0 t); [| lia].
  destruct (Z.ltb_spec t (Z.of_nat (length logits))); [reflexivity | lia].
Qed.

Lemma ideal_kernel_out_of_range (t : Z) (logits : list R) :
  ~ (0 <= t < Z.of_nat (length logits)) ->
  ideal_kernel t logits = Raises "InvalidArgumentError".
Proof.
  intros H. unfold ideal_kernel.
  destruct (Z.leb_spec 0 t); [| reflexivity].
  destruct (Z.ltb_spec t (Z.of_nat (length logits))); [lia | reflexivity].
Qed.

Lemma ideal_entries (real : tensor2) (pred : logits3) :
  labels_in_range real pred ->
  zip_with (zip_with (masked_entry_checked ideal_kernel)) real pred
  = map (map Returns)
        (map (map Finite) (zip_with (zip_with masked_entry) real pred)).
Proof.
  unfold labels_in_range, compared. revert pred.
  induction real as [| row real IH]; intros [| p pred]; simpl;
    try reflexivity.
  rewrite Forall_app. intros [Hrow Hrest]. f_equal; [| now apply IH].
  clear IH Hrest. revert p Hrow.
  induction row as [| t row IHrow]; intros [| lg p]; simpl; try reflexivity.
  intros Hrow. apply Forall_cons in Hrow as [Ht Hrow].
  f_equal; [| now apply IHrow].
  unfold masked_entry_checked, masked_entry.
  now rewrite (ideal_kernel_in_range t lg Ht).
Qed.

Lemma reduce_sum_fl_finite (M : list (list R)) :
  reduce_sum_fl (map (map Finite) M) = Finite (reduce_sum M).
Proof.
  induction M as [| row M IH]; [reflexivity |].
  cbn [map]. rewrite reduce_sum_fl_cons, reduce_sum_cons, IH.
  now rewrite foldr_tf_add_finite.
Qed.

Lemma loss_function_checked_ideal (real : tensor2) (pred : logits3) :
  labels_in_range real pred ->
  loss_function_checked ideal_kernel real pred
  = Returns (loss_function real pred).
Proof.
  intros Hrange. unfold loss_function_checked.
  rewrite masked_loss_checked_alt, (ideal_entries real pred Hrange).
  rewrite all_returned2_fmap. simpl.
  rewrite reduce_sum_fl_finite. unfold loss_function.
  now rewrite masked_loss_alt.
Qed.

Lemma tf_add_not_negative (a b : tfloat) :
  not_negative a -> not_negative b -> not_negative (tf_add a b).
Proof. destruct a, b; simpl; try tauto. lra. Qed.

Lemma sum_not_negative (l : list tfloat) :
  Forall not_negative l -> not_negative (foldr tf_add (Finite 0) l).
Proof.
  induction 1 as [| a l Ha _ IH]; simpl; [lra |].
  now apply tf_add_not_negative.
Qed.

Lemma entries_not_negative (kernel : Z -> list R -> outcome tfloat)
    (real : tensor2) (pred : logits3) :
  kernel_not_negative kernel real pred ->
  exists M : list (list tfloat),
    masked_loss_checked kernel real pred = Returns M /\
    Forall not_negative (concat M).
Proof.
  rewrite masked_loss_checked_alt.
  unfold kernel_not_negative, compared. revert pred.
  induction real as [| row real IH]; intros [| p pred]; simpl;
    try (intros _; exists []; split; [reflexivity | constructor]).
  rewrite Forall_app. intros [Hrow Hrest].
  destruct (IH pred Hrest) as (M & -> & HM).
  assert (Hr : exists L, all_returned
                           (zip_with (masked_entry_checked kernel) row p)
                         = Returns L /\ Forall not_negative L).
  { clear IH Hrest HM. revert p Hrow.
    induction row as [| t row IHrow]; intros [| lg p]; simpl;
      try (intros _; exists []; split; [reflexivity | constructor]).
    intros Hrow. apply Forall_cons in Hrow as [(x & Hx & Hnn & Hpad) Hrow].
    destruct (IHrow p Hrow) as (L & -> & HL).
    simpl in Hx, Hpad. unfold masked_entry_checked at 1. rewrite Hx. simpl.
    eexists. split; [reflexivity |]. constructor; [| exact HL].
    unfold not_equal0. destruct (Z.eqb_spec t 0) as [Ht | Ht].
    - destruct (Hpad Ht) as [a ->]. simpl. lra.
    - destruct x as [y | | |]; simpl in *; try tauto; [lra |].
      destruct (Req_dec_T 1 0); [lra |]. destruct (Rlt_dec 0 1); [exact I | lra]. }
  destruct Hr as (L & -> & HL). simpl.
  exists (L :: M). split; [reflexivity |]. simpl. now apply Forall_app.
Qed.

Lemma loss_function_checked_not_negative
    (kernel : Z -> list R -> outcome tfloat) (real : tensor2) (pred : logits3) :
  kernel_not_negative kernel real pred ->
  has_nonpad real ->
  exists x : tfloat,
    loss_function_checked kernel real pred = Returns x /\ not_negative x.
Proof.
  intros Hk Hex. destruct (entries_not_negative kernel real pred Hk)
    as (M & HM & Hnn).
  unfold loss_function_checked. rewrite HM. simpl.
  eexists. split; [reflexivity |].
  apply has_nonpad_count in Hex. rewrite mask_sum_count.
  assert (Hpos : (0 < INR (nonpad_count real))%R) by (apply lt_0_INR; lia).
  pose proof (sum_not_negative (concat M) Hnn) as Hsum.
  unfold reduce_sum_fl.
  destruct (foldr tf_add (Finite 0) (concat M)) as [s | | |]; simpl in *;
    try tauto.
  - unfold tf_truediv. destruct (Req_dec_T (INR (nonpad_count real)) 0); [lra |].
    simpl. unfold Rdiv. apply Rmult_le_pos; [exact Hsum |].
    left. now apply Rinv_0_lt_compat.
  - destruct (Rlt_dec (INR (nonpad_count real)) 0); [lra | exact I].
Qed.

Lemma loss_function_exact_nonneg (real : tensor2) (pred : logits3) :
  in_vocabulary real pred ->
  has_nonpad real ->
  exists x : R, loss_function real pred = Finite x /\ (0 <= x)%R.
Proof.
  intros Hvocab Hex.
  destruct (loss_function_finite real pred Hex) as [Hne ->].
  eexists. split; [reflexivity |].
  assert (Hpos : (0 < INR (nonpad_count real))%R).
  { pose proof (pos_INR (nonpad_count real)). lra. }
  unfold Rdiv. apply Rmult_le_pos; [| left; now apply Rinv_0_lt_compat].
  rewrite masked_sum_compared. apply reduce_sum1_nonneg.
  apply Forall_map. eapply Forall_impl; [exact Hvocab |].
  intros [t lg] Hp. simpl in *. unfold masked_entry, not_equal0.
  destruct (Z.eqb_spec t 0) as [-> | Hnz]; [lra |].
  destruct (Hp Hnz) as [_ Hin].
  pose proof (crossentropy_nonneg t lg Hin). lra.
Qed.

Lemma ideal_kernel_not_negative (real : tensor2) (pred : logits3) :
  labels_in_range real pred -> kernel_not_negative ideal_kernel real pred.
Proof.
  unfold labels_in_range, kernel_not_negative. intros H.
  eapply Forall_impl; [exact H |]. simpl. intros [t lg] Ht. simpl in *.
  exists (Finite (sparse_categorical_crossentropy t lg)).
  split; [now apply ideal_kernel_in_range |]. split; [| now eexists].
  simpl. apply crossentropy_nonneg. lia.
Qed.

(** X12. [loss_function] never turns per-position losses that are not
    negative into a negative loss.  For a batch with at least one non-pad
    label and any cross-entropy kernel whose values are finite and at least
    0, or +inf, and finite at the pad positions, the result is finite and at
    least 0, or +inf: never negative and never NaN.  In exact arithmetic,
    where the cross-entropy is [ln (sum exp) - logit] and cannot overflow,
    this is the case whenever every non-pad label is inside the vocabulary,
    and the result is then finite. *)
Theorem loss_function_nonneg (real : tensor2) (pred : logits3) :
  has_nonpad real ->
  (forall kernel : Z -> list R -> outcome tfloat,
      kernel_not_negative kernel real pred ->
      exists x : tfloat,
        loss_function_checked kernel real pred = Returns x /\ not_negative x) /\
  (in_vocabulary real pred ->
   exists x : R, loss_function real pred = Finite x /\ (0 <= x)%R).
Proof.
  intros Hex. split.
  - intros kernel Hk. now apply loss_function_checked_not_negative.
  - intros Hvocab. now apply loss_function_exact_nonneg.
Qed.

Lemma loss_function_nonneg_witness :
  (exists x : tfloat,
      loss_function_checked ideal_kernel [[1; 0]] [[[0; 0]; [1; 0]]]%R
      = Returns x /\ not_negative x) /\
  (exists x : R,
      loss_function [[1; 0]] [[[0; 0]; [1; 0]]]%R = Finite x /\ (0 <= x)%R).
Proof.
  assert (Hex : has_nonpad [[1; 0]])
    by (apply Exists_cons_hd, Exists_cons_hd; discriminate).
  destruct (loss_function_nonneg [[1; 0]] [[[0; 0]; [1; 0]]]%R Hex)
    as [Hkernel Hexact].
  split.
  - apply Hkernel, ideal_kernel_not_negative.
    unfold labels_in_range, compared. cbn [zip_with zip concat app].
    constructor; [| constructor; [| constructor]]; cbn [fst snd length];
      lia.
  - apply Hexact.
    unfold in_vocabulary, compared. cbn [zip_with zip concat app].
    constructor; [| constructor; [| constructor]]; cbn [fst snd]; intros H;
      [split; [lia | simpl; lia] | congruence].
Defined.

Lemma exp_sum_shift (c : R) (l : list R) :
  reduce_sum1 (map exp (map (fun x => (x + c)%R) l))
  = (exp c * reduce_sum1 (map exp l))%R.
Proof.
  unfold reduce_sum1. induction l as [| x l IH]; simpl; [lra |].
  rewrite IH, exp_plus. lra.
Qed.

Lemma crossentropy_shift (c : R) (t : Z) (logits : list R) :
  (Z.to_nat t < length logits)%nat ->
  sparse_categorical_crossentropy t (map (fun x => (x + c)%R) logits)
  = sparse_categorical_crossentropy t logits.
Proof.
  intros Hin. unfold sparse_categorical_crossentropy.
  rewrite exp_sum_shift.
  assert (Hne : logits <> []) by (destruct logits; [simpl in Hin; lia | discriminate]).
  rewrite ln_mult by (apply exp_pos || now apply exp_sum_pos).
  rewrite ln_exp.
  rewrite (nth_indep _ 0%R ((fun x => (x + c)%R) 0%R))
    by (now rewrite length_map).
  rewrite (map_nth (fun x => (x + c)%R)). lra.
Qed.

Lemma compared_shift (c : R) (real : tensor2) (pred : logits3) :
  compared real (shift_logits c pred)
  = map (fun p => (p.1, map (fun x => (x + c)%R) p.2)) (compared real pred).
Proof.
  unfold compared, shift_logits.
  revert pred. induction real as [| row real IH]; intros [| p pred];
    try reflexivity.
  simpl. rewrite map_app, IH. f_equal.
  clear IH. revert p. induction row as [| t row IHrow]; intros [| lg p];
    try reflexivity.
  simpl. now rewrite IHrow.
Qed.

(** X13. The masked loss depends on the logits only through their softmax:
    adding one constant to every logit leaves [loss_function] unchanged, as
    long as every non-pad label is inside the vocabulary. *)
Theorem loss_function_shift_invariant (c : R) (real : tensor2) (pred : logits3) :
  in_vocabulary real pred ->
  loss_function real (shift_logits c pred) = loss_function real pred.
Proof.
  intros Hvocab. unfold loss_function. f_equal.
  rewrite !masked_sum_compared, compared_shift, map_map. f_equal.
  unfold in_vocabulary in Hvocab. rewrite List.Forall_forall in Hvocab.
  apply map_ext_in. intros [t lg] Hin. cbn [fst snd].
  unfold masked_entry, not_equal0.
  destruct (Z.eqb_spec t 0) as [-> | Hnz]; [lra |].
  destruct (Hvocab _ Hin Hnz) as [_ Hlt]. cbn [fst snd] in Hlt.
  now rewrite crossentropy_shift.
Qed.

Lemma loss_function_shift_invariant_witness :
  loss_function [[1; 0]] (shift_logits 3 [[[0; 0]; [1; 0]]]%R)
  = loss_function [[1; 0]] [[[0; 0]; [1; 0]]]%R.
Proof.
  refine (loss_function_shift_invariant 3 [[1; 0]] [[[0; 0]; [1; 0]]]%R _).
  unfold in_vocabulary, compared. cbn [zip_with zip concat app].
  constructor; [| constructor; [| constructor]]; cbn [fst snd]; intros H;
    [split; [lia | simpl; lia] | congruence].
Defined.

(** ** Lines of text: [split], blank lines, the history file *)

Lemma split_nonempty (sep : ascii) (s : string) : split sep s <> [].
Proof.
  destruct s as [| c s]; simpl; [discriminate |].
  destruct (Ascii.eqb c sep); [discriminate |].
  destruct (split sep s); discriminate.
Qed.

Lemma split_app_sep (sep : ascii) (a b : string) :
  split sep (a ++ String sep b) = split sep a ++ split sep b.
Proof.
  induction a as [| c a IH]; simpl.
  - now rewrite Ascii.eqb_refl.
  - destruct (Ascii.eqb c sep); [now rewrite IH |].
    rewrite IH. destruct (split sep a) as [| piece pieces] eqn:E;
      [now apply split_nonempty in E |]. reflexivity.
Qed.

Lemma split_free (sep : ascii) (s : string) :
  free_of sep s -> split sep s = [s].
Proof.
  unfold free_of. induction s as [| c s IH]; simpl; intros Hfree;
    [reflexivity |].
  destruct (Ascii.eqb_spec c sep) as [-> | Hne]; [exfalso; apply Hfree; now left |].
  rewrite IH; [reflexivity |]. intros Hin. apply Hfree. now right.
Qed.

(** [split] loses nothing of the text it cuts: joining the pieces with
    the separator gives the text back, no piece contains the separator, and
    there is always at least one piece (the text ["a\n"] gives the two
    pieces ["a"] and [""]). *)
Lemma split_join (sep : ascii) (s : string) :
  String.concat (String sep EmptyString) (split sep s) = s /\
  Forall (free_of sep) (split sep s) /\
  split sep s <> [].
Proof.
  split; [| split; [| apply split_nonempty]].
  - induction s as [| c s IH]; [reflexivity |]. simpl.
    destruct (Ascii.eqb_spec c sep) as [-> | Hne].
    + destruct (split sep s) as [| piece pieces] eqn:E;
        [now apply split_nonempty in E |].
      cbn [String.concat]. cbn [String.concat] in IH. now rewrite IH.
    + destruct (split sep s) as [| piece pieces] eqn:E;
        [now apply split_nonempty in E |].
      cbn [String.concat] in IH |- *.
      destruct pieces; [now rewrite <- IH | simpl; now rewrite <- IH].
  - unfold free_of. induction s as [| c s IH]; simpl.
    + constructor; [intros [] | constructor].
    + destruct (Ascii.eqb_spec c sep) as [-> | Hne].
      * constructor; [intros [] | exact IH].
      * destruct (split sep s) as [| piece pieces];
          [constructor; [| constructor]; simpl; intuition congruence |].
        inversion IH as [| ? ? Hp Hps]; subst.
        constructor; [| exact Hps]. simpl. intuition congruence.
Qed.

Section BlankLines.
Context (predict : string -> outcome string).

Local Abbreviation body :=
  (fun i : string =>
     if negb (String.length i =? 0)%nat then
       print i ;; text ← lift (predict i); print text
     else mret tt).

Lemma io_bind_ret_unit (m : io unit) : (mret tt ≫= fun _ : unit => m) = m.
Proof. unfold mret, io_ret, mbind, io_bind. now destruct m. Qed.

Lemma for_each_skips_blank (ls : list string) :
  for_each ls body = for_each (List.filter nonempty_line ls) body.
Proof.
  induction ls as [| i ls IH]; [reflexivity |].
  cbn [for_each List.filter]. unfold nonempty_line at 1.
  destruct (negb (String.length i =? 0)%nat) eqn:E.
  - cbn [for_each]. rewrite E, IH. reflexivity.
  - rewrite io_bind_ret_unit. exact IH.
Qed.

(** X14. Blank lines of [demo.txt] do not matter: two files whose non-empty
    lines are the same, in the same order, make [demo] print the same lines
    and end in the same way; in particular a newline at the end of the file
    or an empty line between two sentences causes no prediction. *)
Theorem demo_ignores_blank_lines (d d' : string) :
  List.filter nonempty_line (split newline d)
  = List.filter nonempty_line (split newline d') ->
  demo_with predict (Returns d) = demo_with predict (Returns d').
Proof.
  intros Hsame. unfold demo_with. rewrite !io_bind_lift_returns.
  rewrite (for_each_skips_blank (split newline d)).
  rewrite (for_each_skips_blank (split newline d')).
  now rewrite Hsame.
Qed.
End BlankLines.

Lemma demo_ignores_blank_lines_witness :
  demo_with toy_predict
    (Returns (String "b" (String newline (String newline
               (String "c" (String newline EmptyString))))))
  = demo_with toy_predict
      (Returns (String "b" (String newline (String "c" EmptyString)))).
Proof.
  exact (demo_ignores_blank_lines toy_predict _ _ eq_refl).
Defined.

(** X15. [_history] only appends: when the rendered numbers contain no
    newline, the lines of the file after the call are the lines it had
    before followed by the one new line ["<loss> <accuracy>"].  Because the
    record is written with a leading newline, a history file that did not
    exist starts with an empty line. *)
Theorem history_appends_one_line (str_float : tfloat -> string)
    (file : option string) (test_loss test_acc : tfloat) :
  free_of newline (str_float test_loss) ->
  free_of newline (str_float test_acc) ->
  split newline (_history str_float file test_loss test_acc)
  = split newline (default EmptyString file)
    ++ [(str_float test_loss ++ " " ++ str_float test_acc)%string] /\
  (file = None ->
   split newline (_history str_float file test_loss test_acc)
   = [EmptyString;
      (str_float test_loss ++ " " ++ str_float test_acc)%string]).
Proof.
  intros Hl Ha.
  assert (Hrec : free_of newline
                   (str_float test_loss ++ " " ++ str_float test_acc)%string).
  { unfold free_of in *.
    assert (Happ : forall a b : string,
               list_ascii_of_string (a ++ b)
               = list_ascii_of_string a ++ list_ascii_of_string b).
    { intros a b. induction a as [| c a IH]; [reflexivity |].
      simpl. now rewrite IH. }
    rewrite !Happ, !in_app_iff. simpl.
    intros [H | [[H | []] | H]]; [now apply Hl | discriminate H | now apply Ha]. }
  assert (Hsplit : split newline (_history str_float file test_loss test_acc)
                   = split newline (default EmptyString file)
                     ++ [(str_float test_loss ++ " " ++ str_float test_acc)%string]).
  { unfold _history. now rewrite split_app_sep, (split_free _ _ Hrec). }
  split; [exact Hsplit |].
  intros ->. exact Hsplit.
Qed.

Lemma history_appends_one_line_witness :
  split newline (_history (fun _ => "0.5"%string) None (Finite 0) (Finite 1))
  = [EmptyString; "0.5 0.5"%string].
Proof.
  refine (proj2 (history_appends_one_line (fun _ => "0.5"%string) None
                   (Finite 0) (Finite 1) _ _) eq_refl);
    unfold free_of; simpl; intuition discriminate.
Defined.

(** ** [gelu] *)

Lemma tanh_bounds (y : R) : (-1 < tanh y < 1)%R.
Proof.
  unfold tanh, sinh, cosh.
  pose proof (exp_pos y) as Ha. pose proof (exp_pos (- y)) as Hb.
  set (N := ((exp y - exp (- y)) / 2)%R).
  set (D := ((exp y + exp (- y)) / 2)%R).
  assert (HD : (0 < D)%R) by (unfold D; lra).
  assert (HN : (- D < N < D)%R) by (unfold N, D; lra).
  assert (Hq : (N / D * D = N)%R) by (field; lra).
  split.
  - apply (Rmult_lt_reg_r D); [exact HD |]. rewrite Hq. lra.
  - apply (Rmult_lt_reg_r D); [exact HD |]. rewrite Hq. lra.
Qed.

(** X16. [gelu] shrinks its argument towards 0 and never changes its sign:
    [gelu 0 = 0], for [x >= 0] the value lies between 0 and [x], and for
    [x <= 0] it lies between [x] and 0. *)
Theorem gelu_between_zero_and_identity (x : R) :
  gelu 0 = 0%R /\
  ((0 <= x)%R -> (0 <= gelu x <= x)%R) /\
  ((x <= 0)%R -> (x <= gelu x <= 0)%R).
Proof.
  unfold gelu. split; [lra |].
  pose proof (tanh_bounds (sqrt (2 / PI) * (x + 0.044715 * x ^ 3))) as [Hlo Hhi].
  set (t := tanh (sqrt (2 / PI) * (x + 0.044715 * x ^ 3))) in *.
  split; intros Hx; split; nra.
Qed.

Lemma gelu_between_zero_and_identity_witness :
  (0 <= gelu 2 <= 2)%R /\ (-3 <= gelu (-3) <= 0)%R.
Proof.
  split.
  - apply (proj1 (proj2 (gelu_between_zero_and_identity 2))). lra.
  - apply (proj2 (proj2 (gelu_between_zero_and_identity (-3)))). lra.
Defined.

(** ** The positional-encoding table *)

Lemma positional_encoding_row (position d_model p : nat) :
  (p < position)%nat ->
  exists row : list R,
    (m ← positional_encoding position d_model !! 0%nat; m !! p) = Some row /\
    length row = d_model /\
    forall i : nat,
      (i < d_model)%nat ->
      row !! i
      = Some (if Nat.even i then sin (INR p * angle_rates i d_model)
              else cos (INR p * angle_rates i d_model)).
Proof.
  intros Hp. unfold positional_encoding, get_angles, np_arange.
  cbn [lookup list_lookup mbind option_bind].
  rewrite !list_lookup_fmap, (lookup_seq_lt 0 position p Hp).
  cbn [fmap option_fmap option_map Nat.add].
  eexists. split; [reflexivity |]. split.
  - now rewrite !length_imap, length_map, length_seq.
  - intros i Hi.
    rewrite !list_lookup_imap, list_lookup_fmap, (lookup_seq_lt 0 d_model i Hi).
    cbn [fmap option_fmap option_map Nat.add].
    rewrite <- Nat.negb_even. now destruct (Nat.even i).
Qed.

(** X17. [positional_encoding(position, d_model)] has shape
    (1, position, d_model) and all its entries lie in [-1, 1]; the entry at
    position [p], dimension [i] is the sine (even [i]) or the cosine (odd [i])
    of [p / 10000^(2 * (i // 2) / d_model)]. *)
Theorem positional_encoding_table (position d_model : nat) :
  length (positional_encoding position d_model) = 1%nat /\
  (forall m : list (list R),
      positional_encoding position d_model !! 0%nat = Some m ->
      length m = position /\ Forall (fun row => length row = d_model) m) /\
  (forall p i : nat,
      pe_at (positional_encoding position d_model) p i
      = if ((p <? position) && (i <? d_model))%nat
        then Some (if Nat.even i then sin (INR p * angle_rates i d_model)
                   else cos (INR p * angle_rates i d_model))
        else None) /\
  (forall (p i : nat) (x : R),
      pe_at (positional_encoding position d_model) p i = Some x ->
      (-1 <= x <= 1)%R).
Proof.
  assert (Hentry : forall p i : nat,
    pe_at (positional_encoding position d_model) p i
    = if ((p <? position) && (i <? d_model))%nat
      then Some (if Nat.even i then sin (INR p * angle_rates i d_model)
                 else cos (INR p * angle_rates i d_model))
      else None).
  { intros p i. unfold pe_at.
    destruct (Nat.ltb_spec p position) as [Hp | Hp].
    - destruct (positional_encoding_row position d_model p Hp)
        as (row & Hrow & Hlen & Hval).
      destruct (positional_encoding position d_model !! 0%nat) as [m |];
        [| discriminate Hrow].
      cbn [mbind option_bind] in Hrow |- *. rewrite Hrow.
      cbn [mbind option_bind andb].
      destruct (Nat.ltb_spec i d_model) as [Hi | Hi]; [now apply Hval |].
      apply lookup_ge_None. lia.
    - unfold positional_encoding, get_angles, np_arange.
      cbn [lookup list_lookup mbind option_bind].
      rewrite !list_lookup_fmap, (lookup_seq_ge 0 position p Hp).
      reflexivity. }
  split; [reflexivity |]. split; [| split; [exact Hentry |]].
  - intros m Hm. unfold positional_encoding, get_angles, np_arange in Hm.
    injection Hm as <-. split.
    + now rewrite !length_map, length_seq.
    + apply Forall_map, Forall_map, Forall_map, Forall_forall. intros p _.
      simpl. now rewrite !length_imap, length_map, length_seq.
  - intros p i x Hx. rewrite Hentry in Hx.
    destruct ((p <? position) && (i <? d_model))%nat; [| discriminate Hx].
    injection Hx as <-.
    destruct (Nat.even i); [apply SIN_bound | apply COS_bound].
Qed.

(** X18. The dimensions of the table come in pairs that share one angle:
    at every position the entries at dimensions [2k] and [2k + 1] are the sine
    and the cosine of the same number, so their squares add up to 1; at
    position 0 they are 0 and 1. *)
Theorem positional_encoding_pairs (position d_model p k : nat) :
  (p < position)%nat ->
  (2 * k + 1 < d_model)%nat ->
  exists s c : R,
    pe_at (positional_encoding position d_model) p (2 * k) = Some s /\
    pe_at (positional_encoding position d_model) p (2 * k + 1) = Some c /\
    (s * s + c * c = 1)%R /\
    (p = 0%nat -> s = 0%R /\ c = 1%R).
Proof.
  intros Hp Hk.
  destruct (positional_encoding_row position d_model p Hp)
    as (row & Hrow & Hlen & Hval).
  assert (Hat : forall i, pe_at (positional_encoding position d_model) p i
                          = row !! i).
  { intros i. unfold pe_at.
    destruct (positional_encoding position d_model !! 0%nat) as [m |];
      [| discriminate Hrow].
    cbn [mbind option_bind] in Hrow |- *. now rewrite Hrow. }
  assert (Hrate : angle_rates (2 * k + 1) d_model = angle_rates (2 * k) d_model).
  { unfold angle_rates.
    replace ((2 * k + 1) / 2)%nat with k
      by (apply (Nat.div_unique _ _ _ 1%nat); lia).
    replace ((2 * k) / 2)%nat with k
      by (apply (Nat.div_unique _ _ _ 0%nat); lia).
    reflexivity. }
  assert (Heven : Nat.even (2 * k) = true)
    by (rewrite Nat.even_mul; reflexivity).
  assert (Hodd : Nat.even (2 * k + 1) = false).
  { rewrite Nat.even_add, Heven. reflexivity. }
  exists (sin (INR p * angle_rates (2 * k) d_model)),
         (cos (INR p * angle_rates (2 * k) d_model)).
  split; [| split; [| split]].
  - rewrite Hat, (Hval (2 * k)%nat) by lia. now rewrite Heven.
  - rewrite Hat, (Hval (2 * k + 1)%nat) by lia. now rewrite Hodd, Hrate.
  - pose proof (sin2_cos2 (INR p * angle_rates (2 * k) d_model)) as H.
    unfold Rsqr in H. exact H.
  - intros ->. simpl INR. rewrite Rmult_0_l. split; [apply sin_0 | apply cos_0].
Qed.

Lemma positional_encoding_pairs_witness :
  exists s c : R,
    pe_at (positional_encoding 1 2) 0 (2 * 0) = Some s /\
    pe_at (positional_encoding 1 2) 0 (2 * 0 + 1) = Some c /\
    (s * s + c * c = 1)%R /\
    (0%nat = 0%nat -> s = 0%R /\ c = 1%R).
Proof.
  refine (positional_encoding_pairs 1 2 0 0 _ _); lia.
Defined.

Lemma positional_encoding_table_witness :
  pe_at (positional_encoding 1 2) 0 1 = Some (cos (INR 0 * angle_rates 1 2)) /\
  (-1 <= cos (INR 0 * angle_rates 1 2) <= 1)%R.
Proof.
  destruct (positional_encoding_table 1 2) as (_ & _ & Hat & Hbound).
  split; [exact (Hat 0%nat 1%nat) |].
  apply (Hbound 0%nat 1%nat). exact (Hat 0%nat 1%nat).
Defined.

(** ** Attention weights are probability distributions *)

Lemma softmax_row_sum (l : list R) :
  l <> [] -> reduce_sum1 (softmax_row l) = 1%R.
Proof.
  intros Hl. pose proof (exp_sum_pos l Hl) as Hpos.
  unfold softmax_row. set (s := reduce_sum1 (map exp l)) in *.
  assert (Hsum : forall k : list R,
             reduce_sum1 (map (fun x => (exp x / s)%R) k)
             = (reduce_sum1 (map exp k) / s)%R).
  { unfold reduce_sum1. induction k as [| x k IH]; simpl; [lra |].
    rewrite IH. lra. }
  rewrite Hsum. fold s. field. lra.
Qed.

Lemma exp_in_le_sum (l : list R) (x : R) :
  In x l -> (exp x <= reduce_sum1 (map exp l))%R.
Proof.
  intros Hin. apply In_nth with (d := 0%R) in Hin as (i & Hi & <-).
  now apply exp_nth_le_sum.
Qed.

Lemma softmax_row_entries (l : list R) :
  Forall (fun p => (0 < p <= 1)%R) (softmax_row l).
Proof.
  unfold softmax_row. apply Forall_map, List.Forall_forall. intros x Hin.
  assert (Hl : l <> []) by (destruct l; [destruct Hin | discriminate]).
  pose proof (exp_sum_pos l Hl) as Hpos.
  pose proof (exp_in_le_sum l x Hin) as Hle.
  pose proof (exp_pos x) as Hx. simpl. split.
  - unfold Rdiv. apply Rmult_lt_0_compat; [exact Hx |].
    now apply Rinv_0_lt_compat.
  - apply (Rmult_le_reg_r (reduce_sum1 (map exp l))); [exact Hpos |].
    unfold Rdiv. rewrite Rmult_assoc, Rinv_l by lra. lra.
Qed.

Lemma tf_nn_softmax_row (x : rtensor4) (b h i : nat) (row : list R) :
  row4 (tf_nn_softmax x) b h i = Some row ->
  exists l : list R, row4 x b h i = Some l /\ row = softmax_row l.
Proof.
  unfold row4, tf_nn_softmax. rewrite list_lookup_fmap.
  destruct (x !! b) as [m3 |]; [| discriminate]. simpl.
  rewrite list_lookup_fmap.
  destruct (m3 !! h) as [m2 |]; [| discriminate]. simpl.
  rewrite list_lookup_fmap.
  destruct (m2 !! i) as [l |]; [| discriminate]. simpl.
  intros [= <-]. now exists l.
Qed.

Section AttentionWeights.
Context (tf_shape0 : rtensor4 -> Z)
        (tf_reshape tf_transpose : rtensor4 -> list Z -> rtensor4)
        (tf_matmul : rtensor4 -> rtensor4 -> bool -> rtensor4)
        (div_sqrt_dk : rtensor4 -> rtensor4 -> rtensor4)
        (add_mask : rtensor4 -> tensor4 -> rtensor4).

Local Abbreviation attention :=
  (scaled_dot_product_attention rtensor4 tf_matmul div_sqrt_dk add_mask
                                tf_nn_softmax).
Local Abbreviation mha_call :=
  (MultiHeadAttention_call rtensor4 tf_shape0 tf_reshape tf_transpose
                           tf_matmul div_sqrt_dk add_mask tf_nn_softmax).

(** X19. The attention weights that [scaled_dot_product_attention] and
    [MultiHeadAttention.call] return are a probability distribution over the
    keys for every query: each non-empty row sums to 1 and each weight lies
    between 0 and 1.  This holds with or without a mask and also when the
    mask covers every key, since masking adds a finite number to the scores. *)
Theorem attention_weights_are_distributions (self : MultiHeadAttention rtensor4)
    (v k q : rtensor4) (mask : option tensor4) (b h i : nat) (row : list R) :
  row4 (attention q k v mask).2 b h i = Some row \/
  row4 (mha_call self v k q mask).2 b h i = Some row ->
  Forall (fun p => (0 <= p <= 1)%R) row /\
  (row <> [] -> reduce_sum1 row = 1%R).
Proof.
  assert (Hrow : forall logits : rtensor4,
             row4 (tf_nn_softmax logits) b h i = Some row ->
             Forall (fun p => (0 <= p <= 1)%R) row /\
             (row <> [] -> reduce_sum1 row = 1%R)).
  { intros logits Hr. apply tf_nn_softmax_row in Hr as (l & _ & ->).
    split; [eapply Forall_impl; [apply softmax_row_entries |];
            simpl; intros p Hp; lra |].
    intros Hne. apply softmax_row_sum. intros ->. now apply Hne. }
  intros [Hatt | Hmha].
  - unfold scaled_dot_product_attention in Hatt. cbn [snd] in Hatt.
    now apply Hrow in Hatt.
  - unfold MultiHeadAttention_call, scaled_dot_product_attention in Hmha.
    cbn [snd] in Hmha. now apply Hrow in Hmha.
Qed.
End AttentionWeights.

Lemma attention_weights_are_distributions_witness :
  Forall (fun p => (0 <= p <= 1)%R) (softmax_row [1; 2]%R) /\
  (softmax_row [1; 2]%R <> [] -> reduce_sum1 (softmax_row [1; 2]%R) = 1%R).
Proof.
  refine (attention_weights_are_distributions
            (fun _ => 1) (fun x _ => x) (fun x _ => x)
            (fun a _ _ => a) (fun a _ => a) (fun a _ => a)
            {| num_heads := 1; d_model := 1; depth := 1;
               wq := fun x => x; wk := fun x => x; wv := fun x => x;
               dense := fun x => x |}
            [] [] [[[[1; 2]]]]%R None 0 0 0 (softmax_row [1; 2]%R) _).
  left. reflexivity.
Defined.

(** ** The decoder stack and its map of attention weights *)

Lemma string_length_app (a b : string) :
  String.length (a ++ b) = (String.length a + String.length b)%nat.
Proof. induction a as [| c a IH]; simpl; [reflexivity | now rewrite IH]. Qed.

Lemma string_app_inj (a b s1 s2 : string) :
  String.length s1 = String.length s2 ->
  (a ++ s1 = b ++ s2)%string -> a = b /\ s1 = s2.
Proof.
  intros Hlen. revert b.
  induction a as [| c a IH]; intros [| c' b] Heq; simpl in Heq.
  - now split.
  - exfalso. apply (f_equal String.length) in Heq.
    rewrite ?string_length_app in Heq. simpl in Heq.
    rewrite ?string_length_app in Heq. lia.
  - exfalso. apply (f_equal String.length) in Heq.
    rewrite ?string_length_app in Heq. simpl in Heq.
    rewrite ?string_length_app in Heq. lia.
  - injection Heq as -> Heq. destruct (IH b Heq) as [-> ->]. now split.
Qed.

Lemma string_app_cancel_l (p a b : string) :
  (p ++ a = p ++ b)%string -> a = b.
Proof.
  induction p as [| c p IH]; simpl; [trivial |].
  intros Heq. injection Heq as Heq. now apply IH.
Qed.

Lemma py_str_nat_inj (a b : nat) : py_str_nat a = py_str_nat b -> a = b.
Proof.
  unfold py_str_nat. intros Heq.
  assert (Hnn : forall n, Nat.to_uint n <> Decimal.Nil).
  { intros n. rewrite <- (Unsigned.of_to n) at 1. rewrite Unsigned.to_of.
    apply DecimalFacts.unorm_nonnil. }
  apply (f_equal NilZero.uint_of_string) in Heq.
  rewrite !NilZero.usu in Heq by apply Hnn.
  injection Heq as Heq. now apply Unsigned.to_uint_inj.
Qed.

Lemma block_keys_split (a b : nat) (s1 s2 : string) :
  String.length s1 = String.length s2 ->
  ("decoder_layer" ++ py_str_nat a ++ s1
   = "decoder_layer" ++ py_str_nat b ++ s2)%string ->
  a = b /\ s1 = s2.
Proof.
  intros Hlen Heq. apply string_app_cancel_l in Heq.
  apply string_app_inj in Heq as [Heq ->]; [| exact Hlen].
  split; [now apply py_str_nat_inj | reflexivity].
Qed.

Lemma block1_key_inj (a b : nat) : block1_key a = block1_key b -> a = b.
Proof. intros H. now apply block_keys_split in H as [-> _]. Qed.

Lemma block2_key_inj (a b : nat) : block2_key a = block2_key b -> a = b.
Proof. intros H. now apply block_keys_split in H as [-> _]. Qed.

Lemma block_keys_differ (a b : nat) : block1_key a <> block2_key b.
Proof.
  intros H. apply block_keys_split in H as [_ H]; [discriminate H | reflexivity].
Qed.

Example block1_key_12 : block1_key 12 = "decoder_layer12_block1"%string.
Proof. reflexivity. Qed.

Section DecoderProps.
Context (T : Type) (tf_shape0 : T -> Z) (tf_reshape tf_transpose : T -> list Z -> T)
        (tf_matmul : T -> T -> bool -> T) (div_sqrt_dk : T -> T -> T)
        (add_mask : T -> tensor4 -> T) (softmax : T -> T)
        (tensor_add : T -> T -> T) (scale_sqrt : T -> Z -> T)
        (slice_positions : T -> nat -> T).

Local Abbreviation layer_call :=
  (DecoderLayer_call T tf_shape0 tf_reshape tf_transpose tf_matmul
                     div_sqrt_dk add_mask softmax tensor_add).
Local Abbreviation state :=
  (Decoder_state T tf_shape0 tf_reshape tf_transpose tf_matmul div_sqrt_dk
                 add_mask softmax tensor_add scale_sqrt slice_positions).
Local Abbreviation step :=
  (Decoder_step T tf_shape0 tf_reshape tf_transpose tf_matmul div_sqrt_dk
                add_mask softmax tensor_add).
Local Abbreviation embed :=
  (Decoder_embed T tensor_add scale_sqrt slice_positions).
Local Abbreviation decoder_call :=
  (Decoder_call T tf_shape0 tf_reshape tf_transpose tf_matmul div_sqrt_dk
                add_mask softmax tensor_add scale_sqrt slice_positions).

Lemma Decoder_loop (self : Decoder T) (x : tensor2) (enc_output : T)
    (training : bool) (look_ahead_mask padding_mask : option tensor4) (n : nat) :
  (n <= length (dec_layers T self))%nat ->
  exists aw : gmap string T,
    foldl (step self enc_output training look_ahead_mask padding_mask)
          (Returns (embed self x training, ∅)) (seq 0 n)
    = Returns (state self x enc_output training look_ahead_mask padding_mask n,
               aw) /\
    size aw = (2 * n)%nat /\
    (forall k : string,
        is_Some (aw !! k) ->
        exists i : nat, (i < n)%nat /\
                        (k = block1_key (S i) \/ k = block2_key (S i))) /\
    (forall (i : nat) (layer : DecoderLayer T),
        (i < n)%nat ->
        dec_layers T self !! i = Some layer ->
        aw !! block1_key (S i)
        = Some (layer_call layer
                  (state self x enc_output training look_ahead_mask padding_mask i)
                  enc_output training look_ahead_mask padding_mask).1.2 /\
        aw !! block2_key (S i)
        = Some (layer_call layer
                  (state self x enc_output training look_ahead_mask padding_mask i)
                  enc_output training look_ahead_mask padding_mask).2).
Proof.
  induction n as [| n IH]; intros Hn.
  - exists ∅. split; [reflexivity |]. split; [reflexivity |]. split.
    + intros k [v Hv]. rewrite lookup_empty in Hv. discriminate Hv.
    + intros i layer Hi. lia.
  - destruct IH as (aw & Hrun & Hsize & Hdom & Hval); [lia |].
    destruct (lookup_lt_is_Some_2 (dec_layers T self) n) as [layer Hlayer];
      [lia |].
    rewrite seq_S, foldl_app, Hrun. cbn [foldl Nat.add].
    unfold Decoder_step. rewrite Hlayer.
    assert (Hstate :
      state self x enc_output training look_ahead_mask padding_mask (S n)
      = (layer_call layer
           (state self x enc_output training look_ahead_mask padding_mask n)
           enc_output training look_ahead_mask padding_mask).1.1).
    { unfold Decoder_state. now rewrite (take_S_r _ _ _ Hlayer), foldl_app. }
    set (sn := state self x enc_output training look_ahead_mask padding_mask n)
      in *.
    destruct (layer_call layer sn enc_output training look_ahead_mask padding_mask)
      as [[x' b1] b2] eqn:Hcall.
    cbn [fst] in Hstate. rewrite Nat.add_1_r.
    assert (Hfresh1 : aw !! block1_key (S n) = None).
    { destruct (aw !! block1_key (S n)) eqn:E; [| reflexivity].
      destruct (Hdom _ (mk_is_Some _ _ E)) as (i & Hi & [Hk | Hk]).
      - apply block1_key_inj in Hk. lia.
      - now apply block_keys_differ in Hk. }
    assert (Hfresh2 : aw !! block2_key (S n) = None).
    { destruct (aw !! block2_key (S n)) eqn:E; [| reflexivity].
      destruct (Hdom _ (mk_is_Some _ _ E)) as (i & Hi & [Hk | Hk]).
      - symmetry in Hk. now apply block_keys_differ in Hk.
      - apply block2_key_inj in Hk. lia. }
    pose proof (block_keys_differ (S n) (S n)) as Hk12.
    eexists. split; [rewrite Hstate; reflexivity |]. split; [| split].
    + rewrite map_size_insert_None, map_size_insert_None, Hsize by
        (try rewrite lookup_insert_ne; assumption). lia.
    + intros k Hk.
      destruct (decide (k = block2_key (S n))) as [-> | Hne2];
        [exists n; split; [lia | now right] |].
      rewrite lookup_insert_ne in Hk by congruence.
      destruct (decide (k = block1_key (S n))) as [-> | Hne1];
        [exists n; split; [lia | now left] |].
      rewrite lookup_insert_ne in Hk by congruence.
      destruct (Hdom k Hk) as (i & Hi & Hcase).
      exists i. split; [lia | exact Hcase].
    + intros i layer' Hi Hl.
      destruct (decide (i = n)) as [-> | Hne].
      * rewrite Hlayer in Hl. injection Hl as <-. fold sn. rewrite Hcall.
        cbn [fst snd]. split.
        -- rewrite lookup_insert_ne by congruence. apply lookup_insert_eq.
        -- apply lookup_insert_eq.
      * destruct (Hval i layer' ltac:(lia) Hl) as [H1 H2].
        split.
        -- rewrite !lookup_insert_ne; [exact H1 | |].
           ++ intros E. apply block1_key_inj in E. lia.
           ++ intros E. symmetry in E. now apply block_keys_differ in E.
        -- rewrite !lookup_insert_ne; [exact H2 | |].
           ++ intros E. now apply block_keys_differ in E.
           ++ intros E. apply block2_key_inj in E. lia.
Qed.

(** X21. [Decoder.call] threads the hidden state through its layers in
    order and records two attention-weight tensors per layer under distinct
    keys: when the decoder holds at least [num_layers] layers, the call
    returns the state after [num_layers] layers together with a map of
    exactly [2 * num_layers] entries, in which
    ["decoder_layer{i+1}_block1"] and ["decoder_layer{i+1}_block2"] are the
    two weight tensors that layer [i] computed from the state entering it.
    No entry is overwritten and no other key is present.  The tensor
    operations and the layers are total functions here, so the only failure
    left is the index [self.dec_layers[i]]. *)
Theorem Decoder_call_attention_weights (self : Decoder T) (x : tensor2)
    (enc_output : T) (training : bool)
    (look_ahead_mask padding_mask : option tensor4) :
  (decoder_num_layers T self <= length (dec_layers T self))%nat ->
  exists aw : gmap string T,
    decoder_call self x enc_output training look_ahead_mask padding_mask
    = Returns (state self x enc_output training look_ahead_mask padding_mask
                     (decoder_num_layers T self), aw) /\
    size aw = (2 * decoder_num_layers T self)%nat /\
    (forall k : string,
        is_Some (aw !! k) ->
        exists i : nat,
          (i < decoder_num_layers T self)%nat /\
          (k = block1_key (S i) \/ k = block2_key (S i))) /\
    (forall (i : nat) (layer : DecoderLayer T),
        (i < decoder_num_layers T self)%nat ->
        dec_layers T self !! i = Some layer ->
        aw !! block1_key (S i)
        = Some (layer_call layer
                  (state self x enc_output training look_ahead_mask padding_mask i)
                  enc_output training look_ahead_mask padding_mask).1.2 /\
        aw !! block2_key (S i)
        = Some (layer_call layer
                  (state self x enc_output training look_ahead_mask padding_mask i)
                  enc_output training look_ahead_mask padding_mask).2).
Proof.
  intros Hlen. unfold Decoder_call.
  exact (Decoder_loop self x enc_output training look_ahead_mask padding_mask
           (decoder_num_layers T self) Hlen).
Qed.

(** X22. A decoder built by its constructor never fails on a layer index:
    [Decoder.__init__] creates exactly [num_layers] layers, so, the tensor
    operations being total, [Decoder.call] returns, with [2 * num_layers]
    attention-weight entries. *)
Theorem Decoder_init_call_returns (num_layers : nat) (d_model : Z)
    (embedding : tensor2 -> T) (pos_encoding : T)
    (new_layer : nat -> DecoderLayer T) (dropout : T -> bool -> T)
    (x : tensor2) (enc_output : T) (training : bool)
    (look_ahead_mask padding_mask : option tensor4) :
  let self := Decoder_init T num_layers d_model embedding pos_encoding
                           new_layer dropout in
  length (dec_layers T self) = num_layers /\
  exists (out : T) (aw : gmap string T),
    decoder_call self x enc_output training look_ahead_mask padding_mask
    = Returns (out, aw) /\
    size aw = (2 * num_layers)%nat.
Proof.
  intros self.
  assert (Hlen : length (dec_layers T self) = num_layers).
  { unfold self, Decoder_init. cbn [dec_layers].
    now rewrite length_map, length_seq. }
  split; [exact Hlen |].
  destruct (Decoder_loop self x enc_output training look_ahead_mask
              padding_mask num_layers ltac:(lia))
    as (aw & Hrun & Hsize & _).
  eexists _, aw. split; [exact Hrun | exact Hsize].
Qed.
End DecoderProps.

Lemma Decoder_call_attention_weights_witness :
  exists (out : unit) (aw : gmap string unit),
    Decoder_call unit (fun _ => 0) (fun x _ => x) (fun x _ => x)
                 (fun a _ _ => a) (fun a _ => a) (fun a _ => a) (fun a => a)
                 (fun a _ => a) (fun a _ => a) (fun a _ => a)
                 toy_decoder [[2; 7]] tt false None None
    = Returns (out, aw) /\
    size aw = 4%nat.
Proof.
  destruct (Decoder_call_attention_weights unit (fun _ => 0) (fun x _ => x)
              (fun x _ => x) (fun a _ _ => a) (fun a _ => a) (fun a _ => a)
              (fun a => a) (fun a _ => a) (fun a _ => a) (fun a _ => a)
              toy_decoder [[2; 7]] tt false None None (le_n 2))
    as (aw & Hrun & Hsize & _).
  eexists _, aw. split; [exact Hrun | exact Hsize].
Defined.

(** ** Demo mode with a well-shaped model *)

Section DemoReturns.
Context (weights : Type)
        (call : weights -> tensor2 -> tensor2 -> bool ->
                tensor4 -> tensor4 -> tensor4 -> logits3)
        (tokenize_batch : string -> tensor2)
        (decode : list Z -> string)
        (MAX_LENGTH : nat).

Local Abbreviation predict_w :=
  (predict weights call tokenize_batch decode MAX_LENGTH).

Lemma predict_returns (w : weights) (inp_sentence : string) :
  call_shape weights call ->
  exists text : string, predict_w w inp_sentence = Returns text.
Proof.
  intros Hshape. unfold predict, predict_ids.
  destruct (predict_loop_returns weights call tokenize_batch decode w
              (tokenize_batch inp_sentence) MAX_LENGTH Hshape [2] [2] 0%nat)
    as (result & passes & Hrun & _).
  - discriminate.
  - simpl. intros [H | []]. discriminate H.
  - rewrite Hrun. eexists. reflexivity.
Qed.

(** X23. With a forward pass that answers logits of the shape of its decoder
    input and a file that can be read, [demo] reports no error: for every
    non-empty line of the file, in order, it prints the line and then its
    prediction, it prints nothing else, and it returns. *)
Theorem demo_prints_every_line (w : weights) (d : string) :
  call_shape weights call ->
  demo weights call tokenize_batch decode MAX_LENGTH w (Returns d)
  = (lines_output (predict_w w) (split newline d), Returns tt) /\
  length (lines_output (predict_w w) (split newline d))
  = (2 * length (List.filter nonempty_line (split newline d)))%nat.
Proof.
  intros Hshape.
  assert (Hok : forall ls : list string, Forall (line_ok (predict_w w)) ls).
  { intros ls. apply List.Forall_forall. intros i _. right.
    now apply predict_returns. }
  split.
  - unfold demo, demo_with. rewrite io_bind_lift_returns.
    now rewrite (for_each_ok _ _ (Hok _)).
  - generalize (split newline d). intros ls.
    induction ls as [| i ls IH]; [reflexivity |].
    cbn [lines_output flat_map List.filter]. fold (lines_output (predict_w w) ls).
    rewrite length_app, IH. unfold nonempty_line at 2.
    destruct (String.length i =? 0)%nat; [reflexivity |].
    destruct (predict_returns w i Hshape) as [text ->].
    cbn [negb length]. lia.
Qed.
End DemoReturns.

Lemma demo_prints_every_line_witness :
  demo unit (toy_call [0; 0; 0; 1]%R) toy_tokenize (toy_decode false) 1 tt
       (Returns toy_demo_file)
  = (lines_output
       (predict unit (toy_call [0; 0; 0; 1]%R) toy_tokenize (toy_decode false) 1 tt)
       (split newline toy_demo_file), Returns tt).
Proof.
  exact (proj1 (demo_prints_every_line unit (toy_call [0; 0; 0; 1]%R)
                  toy_tokenize (toy_decode false) 1 tt toy_demo_file
                  (toy_call_shape [0; 0; 0; 1]%R))).
Defined.

(** ** The decoder and the capacity of its positional table *)

Lemma all_returned_zip_with {A B C} (g : A -> B -> C) (f : A -> B -> outcome C)
    (u : list A) (v : list B) :
  (forall i x y, u !! i = Some x -> v !! i = Some y -> f x y = Returns (g x y)) ->
  all_returned (zip_with f u v) = Returns (zip_with g u v).
Proof.
  revert v. induction u as [| a u IH]; intros [| b0 v] H; simpl;
    try reflexivity.
  rewrite (H 0%nat a b0 eq_refl eq_refl). simpl.
  rewrite (IH v); [reflexivity |].
  intros i x y Hx Hy. exact (H (S i) x y Hx Hy).
Qed.

Lemma all_returned_map {A C} (g : A -> C) (f : A -> outcome C) (u : list A) :
  (forall i x, u !! i = Some x -> f x = Returns (g x)) ->
  all_returned (map f u) = Returns (map g u).
Proof.
  induction u as [| a u IH]; intros H; simpl; [reflexivity |].
  rewrite (H 0%nat a eq_refl). simpl.
  rewrite IH; [reflexivity |]. intros i x Hx. exact (H (S i) x Hx).
Qed.

Lemma bcast_checked_zip_eq {A B C} (g : A -> B -> C) (f : A -> B -> outcome C)
    (u : list A) (v : list B) :
  length u = length v ->
  (forall i x y, u !! i = Some x -> v !! i = Some y -> f x y = Returns (g x y)) ->
  bcast_checked f u v = Returns (zip_with g u v).
Proof.
  intros Hlen H. unfold bcast_checked. rewrite Hlen, Nat.eqb_refl.
  now apply all_returned_zip_with.
Qed.

Lemma bcast_checked_stretch_eq {A B C} (g : A -> B -> C)
    (f : A -> B -> outcome C) (u : list A) (y : B) :
  (forall i x, u !! i = Some x -> f x y = Returns (g x y)) ->
  bcast_checked f u [y] = Returns (map (fun x => g x y) u).
Proof.
  intros H.
  pose proof (all_returned_map (fun x => g x y) (fun x => f x y) u H) as Hmap.
  unfold bcast_checked. destruct u as [| x [| x' u']]; simpl in *; exact Hmap.
Qed.

Lemma tf_add3_rows (b s d : nat) (x : rtensor3) (rows : list (list R)) :
  shape3 b s d x -> length rows = s ->
  Forall (fun r => length r = d) rows ->
  tf_add3 x [rows]
  = Returns (map (fun m => zip_with (zip_with Rplus) m rows) x).
Proof.
  intros [Hb Hx] Hrows Hd. unfold tf_add3.
  apply (bcast_checked_stretch_eq (fun m rows => zip_with (zip_with Rplus) m rows)).
  intros k m Hm.
  assert (Hshape : length m = s /\ Forall (fun r : list R => length r = d) m).
  { rewrite Forall_forall in Hx. apply Hx. eapply list_elem_of_lookup_2. exact Hm. }
  destruct Hshape as [Hs Hm_rows].
  apply (bcast_checked_zip_eq (zip_with Rplus)); [lia |].
  intros i r r' Hr Hr'.
  apply (bcast_checked_zip_eq Rplus); [| reflexivity].
  rewrite Forall_forall in Hm_rows, Hd.
  rewrite (Hm_rows r), (Hd r'); [reflexivity | |];
    eapply list_elem_of_lookup_2; eassumption.
Qed.

Lemma tf_add3_row (b s d : nat) (x : rtensor3) (row : list R) :
  shape3 b s d x -> length row = d ->
  tf_add3 x [[row]]
  = Returns (map (map (fun r => zip_with Rplus r row)) x).
Proof.
  intros [Hb Hx] Hd. unfold tf_add3.
  apply (bcast_checked_stretch_eq
           (fun m rows => map (fun r => zip_with Rplus r row) m)).
  intros k m Hm.
  assert (Hshape : length m = s /\ Forall (fun r : list R => length r = d) m).
  { rewrite Forall_forall in Hx. apply Hx. eapply list_elem_of_lookup_2. exact Hm. }
  destruct Hshape as [Hs Hm_rows].
  apply (bcast_checked_stretch_eq (fun r row => zip_with Rplus r row)).
  intros i r Hr.
  apply (bcast_checked_zip_eq Rplus); [| reflexivity].
  rewrite Forall_forall in Hm_rows. rewrite (Hm_rows r); [lia |].
  eapply list_elem_of_lookup_2; eassumption.
Qed.

Lemma entry3_add_rows (x : rtensor3) (rows : list (list R)) (b p i : nat)
    (v e : R) :
  entry3 x b p i = Some v ->
  (r ← rows !! p; r !! i) = Some e ->
  entry3 (map (fun m => zip_with (zip_with Rplus) m rows) x) b p i
  = Some (v + e)%R.
Proof.
  unfold entry3, at3. intros Hv He.
  change (map (fun m => zip_with (zip_with Rplus) m rows) x)
    with ((fun m => zip_with (zip_with Rplus) m rows) <$> x).
  rewrite list_lookup_fmap.
  destruct (x !! b) as [m |]; simpl in *; [| discriminate].
  rewrite lookup_zip_with.
  destruct (m !! p) as [r |]; simpl in *; [| discriminate].
  destruct (rows !! p) as [r' |]; simpl in *; [| discriminate].
  now rewrite lookup_zip_with, Hv, He.
Qed.

Lemma entry3_add_row (x : rtensor3) (row : list R) (b p i : nat) (v e : R) :
  entry3 x b p i = Some v ->
  row !! i = Some e ->
  entry3 (map (map (fun r => zip_with Rplus r row)) x) b p i = Some (v + e)%R.
Proof.
  unfold entry3, at3. intros Hv He.
  change (map (map (fun r => zip_with Rplus r row)) x)
    with (map (fun r => zip_with Rplus r row) <$> x).
  rewrite list_lookup_fmap.
  destruct (x !! b) as [m |]; simpl in *; [| discriminate].
  change (map (fun r => zip_with Rplus r row) m)
    with ((fun r => zip_with Rplus r row) <$> m).
  rewrite list_lookup_fmap.
  destruct (m !! p) as [r |]; simpl in *; [| discriminate].
  now rewrite lookup_zip_with, Hv, He.
Qed.

Lemma entry3_shape (b s d : nat) (x : rtensor3) (k p i : nat) (v : R) :
  shape3 b s d x -> entry3 x k p i = Some v -> (p < s)%nat /\ (i < d)%nat.
Proof.
  intros [_ Hx] Hv. unfold entry3, at3 in Hv.
  destruct (x !! k) as [m |] eqn:Hm; simpl in Hv; [| discriminate].
  destruct (m !! p) as [r |] eqn:Hr; simpl in Hv; [| discriminate].
  rewrite Forall_forall in Hx.
  destruct (Hx m (list_elem_of_lookup_2 _ _ _ Hm)) as [Hs Hrows].
  rewrite Forall_forall in Hrows.
  pose proof (Hrows r (list_elem_of_lookup_2 _ _ _ Hr)) as Hd.
  apply lookup_lt_Some in Hr, Hv. lia.
Qed.

Lemma pe_at_rows (m : list (list R)) (p i : nat) :
  pe_at [m] p i = (r ← m !! p; r !! i).
Proof. reflexivity. Qed.

Lemma table_entry (m : list (list R)) (capacity d p i : nat) :
  length m = capacity -> Forall (fun r => length r = d) m ->
  (p < capacity)%nat -> (i < d)%nat ->
  exists e : R, (r ← m !! p; r !! i) = Some e.
Proof.
  intros Hm Hrows Hp Hi.
  destruct (lookup_lt_is_Some_2 m p ltac:(lia)) as [r Hr].
  rewrite Forall_forall in Hrows.
  pose proof (Hrows r (list_elem_of_lookup_2 _ _ _ Hr)) as Hd.
  destruct (lookup_lt_is_Some_2 r i ltac:(lia)) as [e He].
  exists e. now rewrite Hr.
Qed.

(** X24. What [Decoder.call] adds to the embedded input, and what it does
    with a decoder input longer than its table of positional encodings.  An
    input that fits receives, position by position, the encodings of the
    table and is handed to the layers with its shape unchanged.  An input
    that does not fit is neither truncated nor indexed out of range: the
    slice [pos_encoding[:, :seq_len, :]] is shorter than the embedded input
    and the addition raises before any layer runs, unless the table holds
    exactly one position, which is then added to every position. *)
Theorem Decoder_call_positional_capacity (self : Decoder_checked) (x : tensor2)
    (s d capacity : nat) (enc_output : rtensor3) (training : bool)
    (look_ahead_mask padding_mask : tensor4) :
  embedding_shape d (dec_embedding self) ->
  dec_pos_encoding self = positional_encoding capacity d ->
  x <> [] -> rectangular s x ->
  ((s <= capacity)%nat \/ capacity = 1%nat ->
   exists h : rtensor3,
     Decoder_call_checked self x enc_output training look_ahead_mask padding_mask
     = dec_layers_call self (dec_dropout self h training) enc_output training
                       look_ahead_mask padding_mask /\
     shape3 (length x) s d h /\
     forall (b p i : nat) (v : R),
       entry3 (scale3 (dec_embedding self x) (sqrt (IZR (dec_d_model self))))
              b p i = Some v ->
       exists e : R,
         pe_at (dec_pos_encoding self) (Nat.min p (capacity - 1)) i = Some e /\
         entry3 h b p i = Some (v + e)%R) /\
  ((capacity < s)%nat -> capacity <> 1%nat -> s <> 1%nat ->
   Decoder_call_checked self x enc_output training look_ahead_mask padding_mask
   = Raises "InvalidArgumentError").
Proof.
  intros Hemb Hpos Hx Hrect.
  pose proof (shape1_rows x s Hx Hrect) as Hs1.
  set (embedded := scale3 (dec_embedding self x) (sqrt (IZR (dec_d_model self)))).
  assert (Hshape : shape3 (length x) s d embedded)
    by (now apply scale3_shape, Hemb).
  split.
  - intros Hfit. unfold Decoder_call_checked. fold embedded.
    rewrite Hpos, Hs1.
    destruct (positional_encoding_shape capacity d) as (m & -> & Hm & Hrows).
    cbn [map].
    destruct (decide (s <= capacity)%nat) as [Hle | Hgt].
    + assert (Hrows' : Forall (fun r => length r = d) (take s m)).
      { rewrite Forall_forall in Hrows |- *. intros r Hr.
        apply Hrows. apply list_elem_of_lookup_1 in Hr as [k Hk].
        apply lookup_take_Some in Hk as [Hk _].
        eapply list_elem_of_lookup_2. exact Hk. }
      rewrite (tf_add3_rows (length x) s d embedded (take s m) Hshape);
        [| rewrite length_take; lia | exact Hrows'].
      cbn [mbind outcome_bind]. eexists. split; [reflexivity |]. split.
      * destruct Hshape as [Hb Hx']. split; [now rewrite length_map |].
        rewrite Forall_map. eapply Forall_impl; [exact Hx' |].
        simpl. intros mx [Hmx Hrx]. split.
        -- rewrite length_zip_with, length_take. lia.
        -- apply Forall_forall. intros r Hr.
           apply list_elem_of_lookup_1 in Hr as [k Hk].
           apply lookup_zip_with_Some in Hk as (r1 & r2 & -> & Hr1 & Hr2).
           rewrite length_zip_with.
           rewrite Forall_forall in Hrx, Hrows'.
           rewrite (Hrx r1 (list_elem_of_lookup_2 _ _ _ Hr1)),
                   (Hrows' r2 (list_elem_of_lookup_2 _ _ _ Hr2)). lia.
      * intros b p i v Hv.
        destruct (entry3_shape _ _ _ _ _ _ _ _ Hshape Hv) as [Hp Hi].
        destruct (table_entry m capacity d p i Hm Hrows ltac:(lia) Hi)
          as [e He].
        exists e. rewrite pe_at_rows.
        replace (Nat.min p (capacity - 1)) with p by lia.
        split; [exact He |].
        apply entry3_add_rows; [exact Hv |].
        now rewrite lookup_take_lt by lia.
    + destruct Hfit as [Hle | ->]; [contradiction |].
      destruct m as [| r0 [| r1 m]]; try discriminate Hm.
      apply Forall_cons in Hrows as [Hr0 _].
      rewrite take_ge by (simpl; lia).
      rewrite (tf_add3_row (length x) s d embedded r0 Hshape Hr0).
      cbn [mbind outcome_bind]. eexists. split; [reflexivity |]. split.
      * destruct Hshape as [Hb Hx']. split; [now rewrite length_map |].
        rewrite Forall_map. eapply Forall_impl; [exact Hx' |].
        simpl. intros mx [Hmx Hrx]. split; [now rewrite length_map |].
        rewrite Forall_map. eapply Forall_impl; [exact Hrx |].
        simpl. intros r Hr. rewrite length_zip_with. lia.
      * intros b p i v Hv.
        destruct (entry3_shape _ _ _ _ _ _ _ _ Hshape Hv) as [Hp Hi].
        destruct (lookup_lt_is_Some_2 r0 i ltac:(lia)) as [e He].
        exists e. rewrite pe_at_rows.
        replace (Nat.min p (1 - 1)) with 0%nat by lia.
        split; [exact He |].
        now apply entry3_add_row.
  - intros Hs Hc1 Hs1'.
    now apply (Decoder_call_checked_outgrows self x s d capacity).
Qed.

Lemma Decoder_call_positional_capacity_witness :
  Decoder_call_checked (toy_decoder_checked 2) [[2; 1; 1]] [] false [] []
  = Raises "InvalidArgumentError".
Proof.
  refine (proj2 (Decoder_call_positional_capacity (toy_decoder_checked 2)
                   [[2; 1; 1]] 3 2 2 [] false [] []
                   (toy_embedding_shape 2) eq_refl _ _) _ _ _).
  - discriminate.
  - constructor; [reflexivity | constructor].
  - lia.
  - lia.
  - lia.
Defined.
